(** * dataset_fs_benchmark: the time-boxed concurrent read benchmark

    A shallow embedding of [benchmark_worker] and [benchmark] of
    [src/benchmark.py] (lines 104-154) and of the three calls that [main]
    makes on one list object (lines 198-202).

    The program is concurrent: one parent process and [queue_depth] worker
    processes that communicate through two [multiprocessing.Queue] objects.
    It is modelled as an interleaving transition system.  A state holds the
    clock, the caller's list object, both queues, the program counter of the
    parent and of every started worker.  One [action] is one atomic
    statement of one process, or the passing of time; [step] is an
    executable partial function (an action that is blocked gives [None]),
    and an execution is a list of actions, [run].

    Conventions.
    - [time.perf_counter()] is a monotonic clock; its readings are taken as
      integers (nanoseconds), so [30.0] seconds is [30 * 10^9].
    - [Queue()] is created without [maxsize]: [put] never blocks, [get]
      blocks on an empty queue, delivery is first-in first-out.
    - [path_queue.close()] and [path_queue.join_thread()] (lines 143-144)
      are part of the step that ends the second [put] loop.  In Python
      [join_thread()] returns when the feeder thread of the queue has
      written every token to the pipe under the queue, and the pipe holds
      64 KiB: with more than that unread and no worker left to read, the
      parent stays at line 144 for ever.  The model does not bound the
      pipe; it lets the step through whatever is unread.  So every
      execution of the code is one of the model, and what holds of all
      executions of the model holds of the code.  An execution of the
      model that passes line 144 is one of the code if the tokens unread
      there fit the pipe; from a state past line 144 ([all_put]) on, that
      pipe holds the parent no more.
    - Line 124 runs its command without [check=True]: the exit status is
      not looked at, and the call goes on whether or not anything was
      written to [drop_caches].  [cache_drops] lists the commands run, not
      their effect.  If the command cannot be started (no [sudo]), line 124
      raises and the call ends there; that execution is the one in which
      the parent runs no statement from line 124 on.
    - A worker whose read raises dies with the exception: nothing is put
      on [result_queue], and [join()] returns for it as for any process
      that has exited.
    - A file read either completes or raises; when it completes it has
      taken at least [min_read] nanoseconds (an environment parameter;
      any value [<= 0] puts no constraint on reads).
    - [random.shuffle] is the Fisher-Yates loop of the Python standard
      library, driven by an explicit stream of random draws.

    The rest of [src/benchmark.py], the classes of the file systems
    (lines 17-101), [size] (lines 157-163) and [main] (lines 166-207), is
    embedded after that, with conventions of its own. *)

From stdpp Require Import base list strings.
From Stdlib Require Import ZArith Lia Ascii.

Local Open Scope Z_scope.

(** ** Data *)

Definition Path := string.

(** A token of [path_queue]: a path, or [None], the stop sentinel. *)
Abbreviation token := (option Path).

(** Where a worker stands in [benchmark_worker].  Every constructor carries
    [completed_count]. *)
Inductive wpc :=
| WLoop (c : nat)                       (* line 107: about to read the clock *)
| WGet (t : Z) (c : nat)                (* line 110: [t <= exit_time] held, in [path_queue.get()] *)
| WRead (p : Path) (t0 : Z) (c : nat)   (* lines 113-114: reading [p], obtained at time [t0] *)
| WReport (c : nat)                     (* lines 117-119: left the loop *)
| WExited (c : nat)                     (* returned; [c] was put on [result_queue] *)
| WCrashed (c : nat).                   (* the read raised; the process died *)

(** A worker process: its [exit_time] argument and its position. *)
Record worker := Worker { exit_time : Z; w_at : wpc }.

(** Where the parent stands in [benchmark]. *)
Inductive rpc :=
| RDropCaches                               (* lines 123-124 *)
| RShuffle                                  (* lines 126-127 *)
| RDeadline                                 (* line 129 *)
| RSpawn (i : nat)                          (* lines 132-135, loop index [i] *)
| RStartClock                               (* line 138 *)
| RPutPaths (i : nat) (start_t : Z)         (* lines 139-140, position [i] in [all_files] *)
| RPutStops (i : nat) (start_t : Z)         (* lines 141-142, loop index [i] *)
| RJoin (i : nat) (start_t : Z)             (* lines 143-147, joining [workers[i]] *)
| RStopClock (start_t : Z)                  (* line 148 *)
| RCollect (i : nat) (completed_count : nat) (used_t : Z)   (* lines 149-151 *)
| RReturn (completed_count : nat) (used_t : Z).             (* line 154 *)

Record state := State {
  (* environment *)
  now : Z;                        (* the value [time.perf_counter()] would return *)
  min_read : Z;                   (* least time a completed read takes *)
  rng : list nat;                 (* the draws [random] will make *)
  cache_drops : list Z;           (* the [N] of the commands of line 124 that were run *)
  (* arguments of [benchmark] *)
  all_files : list Path;          (* the caller's list object *)
  queue_depth : nat;
  drop_caches : Z;
  (* locals of [benchmark] *)
  path_queue : list token;
  result_queue : list nat;
  end_t : option Z;               (* unbound before line 129 *)
  workers : list worker;
  pc : rpc;
  (* history, not read by the program *)
  enqueued : list token;          (* every token put on [path_queue], in order *)
  dequeued : list (nat * token)   (* every [get]: which worker, which token *)
}.

(** The constant of line 129, [30.0] seconds. *)
Definition DURATION : Z := 30000000000.

(** ** [random.shuffle] *)

(** [x[i], x[j] = x[j], x[i]] *)
Definition swap (x : list Path) (i j : nat) : list Path :=
  match x !! i, x !! j with
  | Some a, Some b => <[j:=a]> (<[i:=b]> x)
  | _, _ => x
  end.

(** [randbelow(n)]: the next draw, reduced below [n]. *)
Definition randbelow (n : nat) (rs : list nat) : nat * list nat :=
  match rs with
  | [] => (0%nat, [])
  | r :: rs' => ((r mod n)%nat, rs')
  end.

(** [for i in reversed(range(1, len(x))): j = randbelow(i + 1); swap],
    started at index [i]. *)
Fixpoint shuffle_from (i : nat) (rs : list nat) (x : list Path) : list Path * list nat :=
  match i with
  | O => (x, rs)
  | S i' =>
      let '(j, rs') := randbelow (S i) rs in
      shuffle_from i' rs' (swap x i j)
  end.

Definition shuffle (rs : list nat) (x : list Path) : list Path * list nat :=
  shuffle_from (length x - 1) rs x.

(** ** One statement of the parent *)

Definition set_pc (s : state) (p : rpc) : state :=
  State (now s) (min_read s) (rng s) (cache_drops s) (all_files s) (queue_depth s)
        (drop_caches s) (path_queue s) (result_queue s) (end_t s) (workers s) p
        (enqueued s) (dequeued s).

Definition set_now (s : state) (t : Z) : state :=
  State t (min_read s) (rng s) (cache_drops s) (all_files s) (queue_depth s)
        (drop_caches s) (path_queue s) (result_queue s) (end_t s) (workers s) (pc s)
        (enqueued s) (dequeued s).

(** [subprocess.run(['sudo', 'sh', '-c', 'echo N > /proc/sys/vm/drop_caches'])]:
    the command is run and waited for.  There is no [check=True], so its
    exit status is dropped: what is recorded is that the command was run,
    not that it wrote anything. *)
Definition do_drop (s : state) : state :=
  State (now s) (min_read s) (rng s) (cache_drops s ++ [drop_caches s]) (all_files s)
        (queue_depth s) (drop_caches s) (path_queue s) (result_queue s) (end_t s)
        (workers s) RShuffle (enqueued s) (dequeued s).

(** [path_queue = Queue(); random.shuffle(all_files)] *)
Definition do_shuffle (s : state) : state :=
  let r := shuffle (rng s) (all_files s) in
  State (now s) (min_read s) r.2 (cache_drops s) r.1 (queue_depth s)
        (drop_caches s) [] (result_queue s) (end_t s) (workers s) RDeadline
        (enqueued s) (dequeued s).

(** [end_t = time.perf_counter() + 30.0; workers = []; result_queue = Queue()] *)
Definition do_deadline (s : state) : state :=
  State (now s) (min_read s) (rng s) (cache_drops s) (all_files s) (queue_depth s)
        (drop_caches s) (path_queue s) [] (Some (now s + DURATION)) [] (RSpawn 0)
        (enqueued s) (dequeued s).

(** [worker = Process(target=benchmark_worker, args=(path_queue, end_t,
    result_queue)); worker.start(); workers.append(worker)] *)
Definition do_spawn (s : state) (i : nat) (e : Z) : state :=
  State (now s) (min_read s) (rng s) (cache_drops s) (all_files s) (queue_depth s)
        (drop_caches s) (path_queue s) (result_queue s) (end_t s)
        (workers s ++ [Worker e (WLoop 0)]) (RSpawn (S i))
        (enqueued s) (dequeued s).

(** [path_queue.put(tok)] *)
Definition do_put (s : state) (tok : token) (p : rpc) : state :=
  State (now s) (min_read s) (rng s) (cache_drops s) (all_files s) (queue_depth s)
        (drop_caches s) (path_queue s ++ [tok]) (result_queue s) (end_t s)
        (workers s) p (enqueued s ++ [tok]) (dequeued s).

(** [completed_count += result_queue.get()], the queue holding [c :: q] *)
Definition do_collect (s : state) (q : list nat) (p : rpc) : state :=
  State (now s) (min_read s) (rng s) (cache_drops s) (all_files s) (queue_depth s)
        (drop_caches s) (path_queue s) q (end_t s) (workers s) p
        (enqueued s) (dequeued s).

(** Has the process exited, so that [join()] returns? *)
Definition terminated (w : worker) : bool :=
  match w_at w with
  | WExited _ | WCrashed _ => true
  | _ => false
  end.

(** [benchmark s]: the parent runs the next statement of [benchmark];
    [None] while it waits in [join()] or in [result_queue.get()], and after
    the [return].  Lines 143-144 are let through ([RPutStops] to [RJoin]),
    where the code can wait for the pipe: see the conventions. *)
Definition benchmark (s : state) : option state :=
  match pc s with
  | RDropCaches =>
      if 0 <? drop_caches s then Some (do_drop s) else Some (set_pc s RShuffle)
  | RShuffle => Some (do_shuffle s)
  | RDeadline => Some (do_deadline s)
  | RSpawn i =>
      if (i <? queue_depth s)%nat
      then match end_t s with
           | Some e => Some (do_spawn s i e)
           | None => None
           end
      else Some (set_pc s RStartClock)
  | RStartClock => Some (set_pc s (RPutPaths 0 (now s)))
  | RPutPaths i st =>
      match all_files s !! i with
      | Some f => Some (do_put s (Some f) (RPutPaths (S i) st))
      | None => Some (set_pc s (RPutStops 0 st))
      end
  | RPutStops i st =>
      if (i <? queue_depth s)%nat
      then Some (do_put s None (RPutStops (S i) st))
      else Some (set_pc s (RJoin 0 st))
  | RJoin i st =>
      match workers s !! i with
      | Some w => if terminated w then Some (set_pc s (RJoin (S i) st)) else None
      | None => Some (set_pc s (RStopClock st))
      end
  | RStopClock st => Some (set_pc s (RCollect 0 0 (now s - st)))
  | RCollect i acc used =>
      if (i <? queue_depth s)%nat
      then match result_queue s with
           | c :: q => Some (do_collect s q (RCollect (S i) (acc + c) used))
           | [] => None
           end
      else Some (set_pc s (RReturn acc used))
  | RReturn _ _ => None
  end.

(** ** One statement of worker [i] *)

Definition set_worker (s : state) (i : nat) (w : worker) : state :=
  State (now s) (min_read s) (rng s) (cache_drops s) (all_files s) (queue_depth s)
        (drop_caches s) (path_queue s) (result_queue s) (end_t s)
        (<[i:=w]> (workers s)) (pc s) (enqueued s) (dequeued s).

(** [p = path_queue.get()], the queue holding [tok :: q] *)
Definition do_get (s : state) (i : nat) (tok : token) (q : list token) (w : worker) : state :=
  State (now s) (min_read s) (rng s) (cache_drops s) (all_files s) (queue_depth s)
        (drop_caches s) q (result_queue s) (end_t s)
        (<[i:=w]> (workers s)) (pc s) (enqueued s) (dequeued s ++ [(i, tok)]).

(** [result_queue.put(completed_count); result_queue.close()], then exit *)
Definition do_report (s : state) (i : nat) (c : nat) (w : worker) : state :=
  State (now s) (min_read s) (rng s) (cache_drops s) (all_files s) (queue_depth s)
        (drop_caches s) (path_queue s) (result_queue s ++ [c]) (end_t s)
        (<[i:=w]> (workers s)) (pc s) (enqueued s) (dequeued s).

(** [benchmark_worker i ok s]: worker [i] runs the next statement of
    [benchmark_worker]; [None] while it waits in [path_queue.get()], while
    its read has not had its time, and once the process has ended. *)
Definition benchmark_worker (i : nat) (ok : bool) (s : state) : option state :=
  match workers s !! i with
  | None => None
  | Some w =>
      let at_ := Worker (exit_time w) in
      match w_at w with
      | WLoop c =>
          let t := now s in
          if exit_time w <? t
          then Some (set_worker s i (at_ (WReport c)))
          else Some (set_worker s i (at_ (WGet t c)))
      | WGet t c =>
          match path_queue s with
          | [] => None
          | None :: q => Some (do_get s i None q (at_ (WReport c)))
          | Some p :: q => Some (do_get s i (Some p) q (at_ (WRead p (now s) c)))
          end
      | WRead p t0 c =>
          if t0 + min_read s <=? now s
          then Some (set_worker s i (at_ (if ok then WLoop (S c) else WCrashed c)))
          else None
      | WReport c => Some (do_report s i c (at_ (WExited c)))
      | WExited _ | WCrashed _ => None
      end
  end.

(** ** The system *)

Inductive action :=
| Tick (d : Z)                (* time passes: the clock advances by [d > 0] *)
| Main                        (* the parent runs its next statement *)
| Work (i : nat) (ok : bool). (* worker [i] runs its next statement; [ok]
                                 tells whether the read, if this is one, succeeds *)

Definition step (a : action) (s : state) : option state :=
  match a with
  | Tick d => if 0 <? d then Some (set_now s (now s + d)) else None
  | Main => benchmark s
  | Work i ok => benchmark_worker i ok s
  end.

Fixpoint run (sched : list action) (s : state) : option state :=
  match sched with
  | [] => Some s
  | a :: sched' =>
      match step a s with
      | Some s' => run sched' s'
      | None => None
      end
  end.

(** The call [benchmark(files, qd, dc)] made at time [t0], with [rs] the
    future draws of [random] and [mr] the read latency of the file system. *)
Definition init (files : list Path) (qd : nat) (dc : Z)
    (rs : list nat) (t0 mr : Z) : state :=
  State t0 mr rs [] files qd dc [] [] None [] RDropCaches [] [].

Definition reachable_from (s0 s : state) : Prop :=
  ∃ sched, run sched s0 = Some s.

Definition reachable (s : state) : Prop :=
  ∃ files qd dc rs t0 mr, reachable_from (init files qd dc rs t0 mr) s.

Local Close Scope Z_scope.

(** ** Counting *)

Definition is_stop (t : token) : nat := if t is None then 1 else 0.
Definition is_path (t : token) : nat := if t is Some _ then 1 else 0.

(** Stop sentinels and path tokens in a sequence of tokens. *)
Definition nstops (l : list token) : nat := sum_list_with is_stop l.
Definition npaths (l : list token) : nat := sum_list_with is_path l.

(** [completed_count] of a worker. *)
Definition completed (w : worker) : nat :=
  match w_at w with
  | WLoop c | WGet _ c | WRead _ _ c | WReport c | WExited c | WCrashed c => c
  end.

(** A path the worker has dequeued and not counted: being read, or the
    one whose read raised. *)
Definition uncounted (w : worker) : nat :=
  match w_at w with
  | WRead _ _ _ | WCrashed _ => 1
  | _ => 0
  end.

(** Still inside the [while True] loop. *)
Definition live (w : worker) : nat :=
  match w_at w with
  | WLoop _ | WGet _ _ | WRead _ _ _ => 1
  | _ => 0
  end.

(** Left the loop through one of the two [break]s. *)
Definition left_loop (w : worker) : nat :=
  match w_at w with
  | WReport _ | WExited _ => 1
  | _ => 0
  end.

Definition exited (w : worker) : nat := if w_at w is WExited _ then 1 else 0.
Definition crashed (w : worker) : nat := if w_at w is WCrashed _ then 1 else 0.

(** What the worker has put on [result_queue]. *)
Definition reported (w : worker) : nat := if w_at w is WExited c then c else 0.

(** ** Progress of the parent, read off its program counter *)

Definition started (s : state) : bool :=
  match pc s with
  | RDropCaches | RShuffle | RDeadline => false
  | _ => true
  end.

Definition spawned (s : state) : nat :=
  match pc s with
  | RDropCaches | RShuffle | RDeadline => 0
  | RSpawn i => i
  | _ => queue_depth s
  end.

Definition paths_put (s : state) : nat :=
  match pc s with
  | RDropCaches | RShuffle | RDeadline | RSpawn _ | RStartClock => 0
  | RPutPaths i _ => i
  | _ => length (all_files s)
  end.

Definition stops_put (s : state) : nat :=
  match pc s with
  | RDropCaches | RShuffle | RDeadline | RSpawn _ | RStartClock | RPutPaths _ _ => 0
  | RPutStops i _ => i
  | _ => queue_depth s
  end.

Definition joined (s : state) : nat :=
  match pc s with
  | RJoin i _ => i
  | RStopClock _ | RCollect _ _ _ | RReturn _ _ => queue_depth s
  | _ => 0
  end.

Definition collected (s : state) : nat :=
  match pc s with
  | RCollect i _ _ => i
  | RReturn _ _ => queue_depth s
  | _ => 0
  end.

Definition counted (s : state) : nat :=
  match pc s with
  | RCollect _ acc _ | RReturn acc _ => acc
  | _ => 0
  end.

(** The deadline has not passed: the clock is still within [end_t]. *)
Definition in_time (s : state) : Prop :=
  ∀ e, end_t s = Some e → (now s ≤ e)%Z.

(** ** The invariant of the system *)

Record inv (s : state) : Prop := Inv {
  inv_spawned : length (workers s) = spawned s ∧ spawned s ≤ queue_depth s;
  inv_bounds : paths_put s ≤ length (all_files s) ∧ stops_put s ≤ queue_depth s
               ∧ collected s ≤ queue_depth s ∧ joined s ≤ queue_depth s;
  inv_end_t : if started s
              then ∃ e, end_t s = Some e ∧ (e ≤ now s + DURATION)%Z
              else workers s = [] ∧ enqueued s = [];
  inv_exit_time : Forall (λ w, end_t s = Some (exit_time w)) (workers s);
  inv_checked : Forall (λ w, ∀ t c, w_at w = WGet t c →
                   (t ≤ exit_time w)%Z ∧ (t ≤ now s)%Z) (workers s);
  inv_enqueued : enqueued s =
                 (Some <$> take (paths_put s) (all_files s))
                 ++ replicate (stops_put s) None;
  inv_fifo : (dequeued s).*2 ++ path_queue s = enqueued s;
  inv_reads : sum_list_with completed (workers s) + sum_list_with uncounted (workers s)
              = npaths (dequeued s).*2;
  inv_stops : nstops (dequeued s).*2 + sum_list_with live (workers s)
              ≤ length (workers s);
  inv_joined : ∀ j w, j < joined s → workers s !! j = Some w → terminated w = true;
  inv_results : sum_list_with exited (workers s) = length (result_queue s) + collected s
                ∧ sum_list_with reported (workers s) = sum_list (result_queue s) + counted s;
  inv_in_time : in_time s →
                sum_list_with left_loop (workers s) ≤ nstops (dequeued s).*2
}.

(** The parent has put every token. *)
Definition all_put (s : state) : bool :=
  match pc s with
  | RJoin _ _ | RStopClock _ | RCollect _ _ _ | RReturn _ _ => true
  | _ => false
  end.

(** [random.shuffle(all_files)] has run. *)
Definition shuffled (s : state) : bool :=
  match pc s with
  | RDropCaches | RShuffle => false
  | _ => true
  end.

(** Workers whose read raised. *)
Definition ncrashed (s : state) : nat := sum_list_with crashed (workers s).

(** [start_t] is a clock reading of this call, and [used_t] is the time
    between two of them. *)
Definition clock_ok (t0 : Z) (s : state) : Prop :=
  (t0 ≤ now s)%Z ∧
  match pc s with
  | RPutPaths _ st | RPutStops _ st | RJoin _ st | RStopClock st => (t0 ≤ st ≤ now s)%Z
  | RCollect _ _ used | RReturn _ used => (0 ≤ used ≤ now s - t0)%Z
  | _ => True
  end.

(** [used_t], once line 148 has bound it. *)
Definition used_t (s : state) : option Z :=
  match pc s with
  | RCollect _ _ used | RReturn _ used => Some used
  | _ => None
  end.

(** Line 138 has not run yet. *)
Definition before_clock (s : state) : bool :=
  match pc s with
  | RDropCaches | RShuffle | RDeadline | RSpawn _ | RStartClock => true
  | _ => false
  end.


(** The paths delivered to worker [i], in order. *)
Definition taken_by (i : nat) (dq : list (nat * token)) : list Path :=
  omap (λ d, if decide (d.1 = i) then d.2 else None) dq.


(** The read that the action [a] completes in the state [s], if it
    completes one: the worker and the path.  A read is completed by the
    statement of lines 113-115, run when the read has had its time and
    does not raise. *)
Definition read_of (a : action) (s : state) : option (nat * Path) :=
  match a with
  | Work i true =>
      match workers s !! i with
      | Some w =>
          match w_at w with
          | WRead p t0 _ => if (t0 + min_read s <=? now s)%Z then Some (i, p) else None
          | _ => None
          end
      | None => None
      end
  | _ => None
  end.

(** The reads completed in the execution [sched] from [s], in order. *)
Fixpoint reads (sched : list action) (s : state) : list (nat * Path) :=
  match sched with
  | [] => []
  | a :: sched' =>
      match step a s with
      | Some s' => option_list (read_of a s) ++ reads sched' s'
      | None => []
      end
  end.

(** The path that a worker is reading. *)
Definition read_now (w : worker) : option Path :=
  if w_at w is WRead p _ _ then Some p else None.

(** The paths being read. *)
Definition reading (s : state) : list Path := omap read_now (workers s).

(** ** A bound on the statements still to run *)

(** Statements a worker runs at most before it needs a new token. *)
Definition wmeasure (w : worker) : nat :=
  match w_at w with
  | WLoop _ => 3
  | WGet _ _ => 2
  | WRead _ _ _ => 4
  | WReport _ => 1
  | WExited _ | WCrashed _ => 0
  end.

(** Statements left to the parent, counting 4 for a worker it will start
    and for a token it will put: one for its own statement and 3 for what
    that gives the workers to run. *)
Definition rmeasure (s : state) : nat :=
  let Q := queue_depth s in
  let F := length (all_files s) in
  match pc s with
  | RDropCaches => 4 * F + 10 * Q + 10
  | RShuffle => 4 * F + 10 * Q + 9
  | RDeadline => 4 * F + 10 * Q + 8
  | RSpawn i => 4 * (Q - i) + 4 * F + 6 * Q + 7
  | RStartClock => 4 * F + 6 * Q + 6
  | RPutPaths i _ => 4 * (F - i) + 6 * Q + 5
  | RPutStops i _ => 4 * (Q - i) + 2 * Q + 4
  | RJoin i _ => (Q - i) + Q + 3
  | RStopClock _ => Q + 2
  | RCollect i _ _ => (Q - i) + 1
  | RReturn _ _ => 0
  end.

(** Every statement of the parent or of a worker lowers [measure]; the
    passing of time leaves it as it is. *)
Definition measure (s : state) : nat :=
  rmeasure s + 3 * length (path_queue s) + sum_list_with wmeasure (workers s).

Definition is_tick (a : action) : bool := if a is Tick _ then true else false.

(** The statements run in a schedule. *)
Definition statements (sched : list action) : nat :=
  length (filter (λ a, is_tick a = false) sched).

(** From [s] on only time passes: no process has a statement to run, now
    or later. *)
Definition settled (s : state) : Prop :=
  ∀ sched s', run sched s = Some s' → statements sched = 0.

(** ** [main]: several calls on one list *)

(** [n] shuffles in a row, each drawing where the one before stopped. *)
Fixpoint shuffle_n (n : nat) (rs : list nat) (x : list Path) : list Path * list nat :=
  match n with
  | O => (x, rs)
  | S n' => let r := shuffle rs x in shuffle_n n' r.2 r.1
  end.

(** [main], lines 200-202: [benchmark] is called again and again, with
    one queue depth after the other, on the same list object
    [all_read_files].  In [calls dc mr qds l rs t l' rs'], [l] and [rs] are
    the list and the draws before the first call, [l'] and [rs'] those
    after the last; each call starts when the one before has returned. *)
Inductive calls (dc mr : Z) :
    list nat → list Path → list nat → Z → list Path → list nat → Prop :=
| calls_nil l rs t : calls dc mr [] l rs t l rs
| calls_cons qd qds l rs t s total used t' l' rs' :
    reachable_from (init l qd dc rs t mr) s →
    pc s = RReturn total used →
    (now s ≤ t')%Z →
    calls dc mr qds (all_files s) (rng s) t' l' rs' →
    calls dc mr (qd :: qds) l rs t l' rs'.

(** The three calls that [main] makes for one file system:
    [benchmark(all_read_files, queue_depth=q, drop_caches=3)] for [q] = 1,
    8, 64.  (It makes them again, on the same list, for the next file
    system.) *)
Definition main_calls (mr : Z) :
    list Path → list nat → Z → list Path → list nat → Prop :=
  calls 3 mr [1; 8; 64].

(** ** Some executions *)

(** One path, one worker and then two: both calls return [(1, 0)]. *)
Definition depth1_sched : list action :=
  [Main; Main; Main; Main; Main; Main; Main; Main; Main; Main;
   Work 0 true; Work 0 true; Work 0 true; Work 0 true; Work 0 true; Work 0 true;
   Main; Main; Main; Main; Main].

Definition depth1_final : state :=
  State 0 0 [] [] ["a"] 1 0 [] [] (Some DURATION)
        [Worker DURATION (WExited 1)] (RReturn 1 0)
        [Some "a"; None] [(0, Some "a"); (0, None)].

Definition depth2_sched : list action :=
  [Main; Main; Main; Main; Main; Main; Main; Main; Main; Main; Main; Main;
   Work 0 true; Work 0 true; Work 0 true; Work 0 true; Work 0 true; Work 0 true;
   Work 1 true; Work 1 true; Work 1 true;
   Main; Main; Main; Main; Main; Main; Main].

Definition depth2_final : state :=
  State 0 0 [] [] ["a"] 2 0 [] [] (Some DURATION)
        [Worker DURATION (WExited 1); Worker DURATION (WExited 0)] (RReturn 1 0)
        [Some "a"; None; None] [(0, Some "a"); (0, None); (1, None)].

(** One path, one worker: the worker is reading; then the read raises
    and the parent, at time [t], waits for the count. *)
Definition crash_sched : list action :=
  [Main; Main; Main; Main; Main; Main; Main; Main; Main; Main;
   Work 0 true; Work 0 true].

Definition crash_reading : state :=
  State 0 0 [] [] ["a"] 1 0 [None] [] (Some DURATION)
        [Worker DURATION (WRead "a" 0 0)] (RJoin 0 0) [Some "a"; None] [(0, Some "a")].

Definition crash_blocked (t : Z) : state :=
  State t 0 [] [] ["a"] 1 0 [None] [] (Some DURATION)
        [Worker DURATION (WCrashed 0)] (RCollect 0 0 0) [Some "a"; None] [(0, Some "a")].

(** A call made at time 7, about to run line 129; and the same call five
    nanoseconds and one worker later. *)
Definition deadline_sched : list action := [Main; Main].

Definition deadline_state : state :=
  State 7 0 [] [] ["a"] 1 0 [] [] None [] RDeadline [] [].

Definition deadline_later : state :=
  State 12 0 [] [] ["a"] 1 0 [] [] (Some (7 + DURATION)%Z)
        [Worker (7 + DURATION) (WGet 12 0)] RStartClock [] [].

(** The worker checks the clock at 0 and waits; the parent puts the path
    one nanosecond after the deadline. *)
Definition late_sched : list action :=
  [Main; Main; Main; Main; Work 0 true; Tick (DURATION + 1); Main; Main; Main].

Definition late_state : state :=
  State (DURATION + 1) 0 [] [] ["a"] 1 0 [Some "a"] [] (Some DURATION)
        [Worker DURATION (WGet 0 0)] (RPutPaths 1 (DURATION + 1)) [Some "a"] [].

(** Two paths, one worker, reads of one nanosecond. *)
Definition fast_sched : list action :=
  [Main; Main; Main; Main; Main; Main; Main; Main; Main; Main; Main;
   Work 0 true; Work 0 true; Tick 1; Work 0 true;
   Work 0 true; Work 0 true; Tick 1; Work 0 true;
   Work 0 true; Work 0 true; Work 0 true;
   Main; Main; Main; Main; Main].

Definition fast_final : state :=
  State 2 1 [] [] ["b"; "a"] 1 0 [] [] (Some DURATION)
        [Worker DURATION (WExited 2)] (RReturn 2 2)
        [Some "b"; Some "a"; None] [(0, Some "b"); (0, Some "a"); (0, None)].

(** One path, one worker, a read one nanosecond longer than the duration. *)
Definition slow_sched : list action :=
  [Main; Main; Main; Main; Main; Main; Main; Main; Main; Main;
   Work 0 true; Work 0 true; Tick (DURATION + 1); Work 0 true;
   Work 0 true; Work 0 true;
   Main; Main; Main; Main; Main].

Definition slow_final : state :=
  State (DURATION + 1) (DURATION + 1) [] [] ["a"] 1 0 [None] [] (Some DURATION)
        [Worker DURATION (WExited 1)] (RReturn 1 (DURATION + 1))
        [Some "a"; None] [(0, Some "a")].

(** Two paths, two workers taking turns; the draw [1] leaves the order. *)
Definition turn_sched : list action :=
  [Main; Main; Main; Main; Main; Main; Main; Main; Main; Main; Main; Main; Main;
   Work 1 true; Work 1 true; Work 0 true; Work 0 true; Work 1 true; Work 0 true;
   Work 1 true; Work 0 true; Work 1 true; Work 0 true; Work 1 true; Work 0 true;
   Main; Main; Main; Main; Main; Main; Main].

Definition turn_final : state :=
  State 5 0 [] [3%Z] ["a"; "b"] 2 3 [] [] (Some (5 + DURATION)%Z)
        [Worker (5 + DURATION) (WExited 1); Worker (5 + DURATION) (WExited 1)]
        (RReturn 2 0) [Some "a"; Some "b"; None; None]
        [(1, Some "a"); (0, Some "b"); (1, None); (0, None)].

(** One path and no worker: the parent has passed line 144, the path is
    on the queue. *)
Definition depth0_sched : list action :=
  [Main; Main; Main; Main; Main; Main; Main; Main].

Definition depth0_joining : state :=
  State 0 0 [] [] ["a"] 0 0 [Some "a"] [] (Some DURATION) [] (RJoin 0 0) [Some "a"] [].

(** The same two paths, no draw (the shuffle swaps them), worker 0 reads both. *)
Definition plain_sched : list action :=
  [Main; Main; Main; Main; Main; Main; Main; Main; Main; Main; Main; Main; Main;
   Work 0 true; Work 0 true; Work 0 true; Work 0 true; Work 0 true; Work 0 true;
   Work 0 true; Work 0 true; Work 0 true;
   Work 1 true; Work 1 true; Work 1 true;
   Main; Main; Main; Main; Main; Main; Main].

Definition plain_final : state :=
  State 0 0 [] [3%Z] ["b"; "a"] 2 3 [] [] (Some DURATION)
        [Worker DURATION (WExited 2); Worker DURATION (WExited 0)]
        (RReturn 2 0) [Some "b"; Some "a"; None; None]
        [(0, Some "b"); (0, Some "a"); (0, None); (1, None)].

(** * More about [benchmark] *)

(** Line 124 has been passed. *)
Definition dropped (s : state) : bool :=
  if pc s is RDropCaches then false else true.

(** [start_t], once line 138 has bound it and until line 148 uses it. *)
Definition start_t (s : state) : option Z :=
  match pc s with
  | RPutPaths _ st | RPutStops _ st | RJoin _ st | RStopClock st => Some st
  | _ => None
  end.

(** Stop sentinels delivered to worker [i]. *)
Definition stops_by (i : nat) (dq : list (nat * token)) : nat :=
  sum_list_with (λ d, if decide (d.1 = i) then is_stop d.2 else 0) dq.

(** What a worker keeps from one state [w] to a later one [w']: its
    deadline; a count that has not gone down; the count it had, once it is
    out of the loop; everything, once the process has ended. *)
Definition count_kept (w w' : worker) : Prop :=
  exit_time w' = exit_time w ∧
  completed w ≤ completed w' ∧
  (live w = 0 → live w' = 0 ∧ completed w' = completed w) ∧
  (terminated w = true → w' = w).

(** A worker has taken a stop sentinel only if it has left the loop,
    and as long as the deadline has not passed, a worker that has left the
    loop has taken one. *)
Definition stop_taken_on_leaving (s : state) : Prop :=
  (∀ i w, workers s !! i = Some w →
     stops_by i (dequeued s) ≤ left_loop w ∧
     (in_time s → stops_by i (dequeued s) = left_loop w)) ∧
  (∀ i, length (workers s) ≤ i → stops_by i (dequeued s) = 0).

(** From line 138 to line 148: all workers are started, and the
    deadline, fixed before the first was, is within [DURATION] of
    [start_t]. *)
Definition window (s : state) : Prop :=
  match start_t s with
  | Some st => ∃ e, end_t s = Some e ∧ (e ≤ st + DURATION)%Z ∧ (st ≤ now s)%Z ∧
                    length (workers s) = queue_depth s
  | None => True
  end.

(** A worker waiting in [get()], the one place from which a path can
    still come to it once the deadline has passed. *)
Definition waiting (w : worker) : nat := if w_at w is WGet _ _ then 1 else 0.

(** The same for worker [i] of a state, started or not. *)
Definition waiting_at (i : nat) (s : state) : nat :=
  if workers s !! i is Some w then waiting w else 0.

(** * The file systems and [main] *)

(** The classes [TestFS], [Ext4], [SquashFs] and [Erofs] (lines 17-101)
    and [main] (lines 166-207).  This code runs commands, works on the
    file system and calls [generate_fake_dataset] and [benchmark].  It is
    embedded as a program that makes calls to the outside and goes on with
    their answers, with exceptions and [try]/[finally] as the code has
    them.  An execution is the sequence of the calls made, each with its
    answer, and an outcome.  Nothing is assumed about an answer but its
    kind: a command may exit with any code, not start, or run for ever.

    Conventions.
    - Paths are [pathlib] paths of a POSIX system.
    - The calls of [logger] are left out, but for the reading of
      [self.name] in their arguments.
    - The arguments that [argparse] has parsed are parameters of [main].
    - The size of the image in [Ext4.setup], a floating-point expression,
      stands unevaluated in the command line ([CountMB]).
    - [generate_fake_dataset] is of another module; its answer is any
      list of paths.
    - [_copy_files] (lines 24-25) is called nowhere and is left out. *)

(** ** Paths *)

(** A [pathlib] path on a POSIX system, as [pathlib] holds it once the
    string is parsed: whether it starts at the root, and its components
    (none of them empty, ["."] or containing ["/"]). *)
Record PurePath := MkPath { rooted : bool; names : list string }.

#[global] Instance PurePath_eq_dec : EqDecision PurePath.
Proof. solve_decision. Defined.

(** [a / b] *)
Definition joinpath (a b : PurePath) : PurePath :=
  if rooted b then b else MkPath (rooted a) (names a ++ names b).

(** The path that a string of one component is parsed into, as in
    [a / 'dataset']. *)
Definition of_name (n : string) : PurePath := MkPath false [n].

(** [l] without its first components [pre], if it starts with them. *)
Fixpoint strip_prefix (pre l : list string) : option (list string) :=
  match pre, l with
  | [], _ => Some l
  | x :: pre', y :: l' => if decide (x = y) then strip_prefix pre' l' else None
  | _ :: _, [] => None
  end.

(** [p.relative_to(other)]; [None] is [ValueError]. *)
Definition relative_to (p other : PurePath) : option PurePath :=
  if decide (rooted p = rooted other)
  then MkPath false <$> strip_prefix (names other) (names p)
  else None.

(** [str(p)] *)
Definition str (p : PurePath) : string :=
  match rooted p, names p with
  | false, [] => "."
  | false, ns => String.concat "/" ns
  | true, ns => "/" +:+ String.concat "/" ns
  end.

(** Line 188:
    [[mount_target / p.relative_to(dataset_path) for p in all_files]] *)
Definition all_read_files (mount_target dataset_path : PurePath)
    (all_files : list PurePath) : option (list PurePath) :=
  mapM (λ p, joinpath mount_target <$> relative_to p dataset_path) all_files.

(** ** Calls to the outside *)

(** An argument of a command line. *)
Inductive arg :=
| Lit (s : string)            (* a string literal *)
| Str (p : PurePath)          (* [str(p)] *)
| OfEq (p : PurePath)         (* [f'of={p}'] *)
| CountMB (total_size : Z).   (* [f'count={int(total_size * 1.2 / 1024**2)}'] *)

(** What the program asks of the operating system and of the code it
    calls. *)
Inductive call :=
| Subprocess (argv : list arg)        (* [subprocess.run(argv, check=True)] *)
| PathExists (p : PurePath)           (* [p.exists()] *)
| PathMkdir (p : PurePath)            (* [p.mkdir()] *)
| PathRmdir (p : PurePath)            (* [p.rmdir()] *)
| PathUnlink (p : PurePath)           (* [p.unlink()] *)
| Sleep (seconds : Z)                 (* [time.sleep(seconds)] *)
| GenerateFakeDataset (dir : PurePath) (file_size total_size : Z)
| Benchmark (files : list PurePath) (depth : nat) (drop : Z).

#[global] Instance arg_eq_dec : EqDecision arg.
Proof. solve_decision. Defined.

#[global] Instance call_eq_dec : EqDecision call.
Proof. solve_decision. Defined.

(** How a call ends. *)
Inductive answer :=
| Done                                (* it returned [None] *)
| Exit (returncode : Z)               (* the process ended *)
| Bool (b : bool)
| Files (l : list PurePath)
| Result (l : list PurePath) (completed_count : nat) (used_t : Z)
                                      (* [benchmark] returned, leaving the list as [l] *)
| Error                               (* it raised *)
| Never.                              (* it does not return *)

#[global] Instance answer_eq_dec : EqDecision answer.
Proof. solve_decision. Defined.

(** A system call on a path returns or raises ([exists()] raises the
    [OSError] that is not of a missing path: permission denied, a name too
    long), [sleep] returns; a command may also not start, and a command or
    a function of the program may run for ever. *)
Definition possible (c : call) (a : answer) : bool :=
  match c, a with
  | Subprocess _, (Exit _ | Error | Never) => true
  | PathExists _, (Bool _ | Error) => true
  | (PathMkdir _ | PathRmdir _ | PathUnlink _), (Done | Error) => true
  | Sleep _, Done => true
  | GenerateFakeDataset _ _ _, (Files _ | Error | Never) => true
  | Benchmark _ _ _, (Result _ _ _ | Error | Never) => true
  | _, _ => false
  end.

Inductive exn :=
| NotImplementedError
| AttributeError (attr : string)
| RuntimeError (p : PurePath)                       (* [f'Path "{p}" already exists.'] *)
| ValueError                                        (* from [relative_to] *)
| CalledProcessError (argv : list arg) (returncode : Z)
| CallError (c : call).                             (* what the call [c] raised *)

(** A program: it returns, raises, or makes a call and goes on with the
    answer. *)
Inductive prog (A : Type) : Type :=
| Ret (a : A)
| Raise (e : exn)
| Vis (c : call) (k : answer → prog A).

Arguments Ret {A} a.
Arguments Raise {A} e.
Arguments Vis {A} c k.

Fixpoint bind {A B} (m : prog A) (f : A → prog B) : prog B :=
  match m with
  | Ret a => f a
  | Raise e => Raise e
  | Vis c k => Vis c (λ a, bind (k a) f)
  end.

#[global] Instance prog_ret : MRet prog := @Ret.
#[global] Instance prog_bind : MBind prog := λ A B f m, bind m f.

(** [try: m finally: h].  An exception of [h] replaces the outcome of [m]. *)
Fixpoint finally {A} (m : prog A) (h : prog unit) : prog A :=
  match m with
  | Ret a => h ;; Ret a
  | Raise e => h ;; Raise e
  | Vis c k => Vis c (λ a, finally (k a) h)
  end.

(** ** Executions *)

Inductive outcome (A : Type) : Type :=
| Returned (a : A)
| Raises (e : exn)
| Blocked.                    (* waiting for a call that does not return *)

Arguments Returned {A} a.
Arguments Raises {A} e.
Arguments Blocked {A}.

Definition event : Type := call * answer.

(** [exec m tr r]: [m] can make the calls of [tr], get their answers, and
    end as [r]. *)
Inductive exec {A} : prog A → list event → outcome A → Prop :=
| exec_Ret a : exec (Ret a) [] (Returned a)
| exec_Raise e : exec (Raise e) [] (Raises e)
| exec_Never c k : possible c Never = true → exec (Vis c k) [(c, Never)] Blocked
| exec_Vis c k a tr r :
    possible c a = true → a ≠ Never → exec (k a) tr r →
    exec (Vis c k) ((c, a) :: tr) r.

(** [m] run on the answers [o]: the calls made, and the outcome if the
    answers sufficed. *)
Fixpoint run_prog {A} (m : prog A) (o : list answer) : list event * option (outcome A) :=
  match m with
  | Ret a => ([], Some (Returned a))
  | Raise e => ([], Some (Raises e))
  | Vis c k =>
      match o with
      | [] => ([], None)
      | a :: o' =>
          if possible c a
          then match a with
               | Never => ([(c, Never)], Some Blocked)
               | _ => let r := run_prog (k a) o' in ((c, a) :: r.1, r.2)
               end
          else ([], None)
      end
  end.

(** ** Single calls *)

(** [subprocess.run(argv, check=True)] *)
Definition subprocess_run (argv : list arg) : prog unit :=
  Vis (Subprocess argv) (λ a,
    match a with
    | Exit rc => if decide (rc = 0%Z) then Ret () else Raise (CalledProcessError argv rc)
    | _ => Raise (CallError (Subprocess argv))
    end).

(** A call that returns [None]. *)
Definition do_call (c : call) : prog unit :=
  Vis c (λ a, if a is Done then Ret () else Raise (CallError c)).

Definition path_exists (p : PurePath) : prog bool :=
  Vis (PathExists p) (λ a, if a is Bool b then Ret b else Raise (CallError (PathExists p))).

Definition generate_fake_dataset (dir : PurePath) (file_size total_size : Z) :
    prog (list PurePath) :=
  let c := GenerateFakeDataset dir file_size total_size in
  Vis c (λ a, if a is Files l then Ret l else Raise (CallError c)).

(** [benchmark(files, queue_depth=depth, drop_caches=drop)], the value
    returned being dropped: what is left is the list object. *)
Definition call_benchmark (files : list PurePath) (depth : nat) (drop : Z) :
    prog (list PurePath) :=
  let c := Benchmark files depth drop in
  Vis c (λ a, if a is Result l _ _ then Ret l else Raise (CallError c)).

(** ** The classes *)

Inductive fs_class := TestFS | Ext4 | SquashFs | Erofs.

(** An object of one of the classes, with the attributes that [__init__]
    sets. *)
Record fs := Fs {
  cls : fs_class;
  base_path : PurePath;
  mount_target : PurePath;
  total_size : Z;
  file_from : PurePath
}.

(** The class attribute [name]; [TestFS] has none. *)
Definition name (c : fs_class) : option string :=
  match c with
  | TestFS => None
  | Ext4 => Some "ext4"
  | SquashFs => Some "squashfs"
  | Erofs => Some "erofs"
  end.

(** The property [fs_image_path]; [TestFS] has none. *)
Definition fs_image_path (self : fs) : option PurePath :=
  match cls self with
  | TestFS => None
  | Ext4 => Some (joinpath (base_path self) (of_name "dataset.ext4"))
  | SquashFs => Some (joinpath (base_path self) (of_name "dataset.sfs"))
  | Erofs => Some (joinpath (base_path self) (of_name "dataset.erofs"))
  end.

(** The three [mount] commands and the [umount] command. *)
Definition mount_argv (c : fs_class) (image target : PurePath) : list arg :=
  match c with
  | Erofs => [Lit "sudo"; Lit "mount"; Lit "-o"; Lit "loop"; Lit "-t"; Lit "erofs";
              Str image; Str target]
  | _ => [Lit "sudo"; Lit "mount"; Lit "-o"; Lit "loop"; Str image; Str target]
  end.

Definition umount_argv (target : PurePath) : list arg :=
  [Lit "sudo"; Lit "umount"; Str target].

(** [setup], lines 27-28, 51-56, 71-78 and 93-96. *)
Definition setup (self : fs) : prog unit :=
  match cls self, fs_image_path self with
  | Ext4, Some image =>
      subprocess_run [Lit "dd"; Lit "if=/dev/zero"; OfEq image; Lit "bs=1M";
                      CountMB (total_size self)];;
      subprocess_run [Lit "mkfs.ext4"; Lit "-d"; Str (file_from self); Str image];;
      do_call (PathMkdir (mount_target self));;
      subprocess_run (mount_argv Ext4 image (mount_target self))
  | SquashFs, Some image =>
      subprocess_run [Lit "mksquashfs"; Str (file_from self); Str image;
                      Lit "-noD"; Lit "-noI"; Lit "-noF"; Lit "-noX";
                      Lit "-no-duplicates"; Lit "-no-sparse";
                      Lit "-mem"; Lit "4G"; Lit "-processors"; Lit "4"];;
      do_call (PathMkdir (mount_target self));;
      subprocess_run (mount_argv SquashFs image (mount_target self))
  | Erofs, Some image =>
      subprocess_run [Lit "mkfs.erofs"; Str image; Str (file_from self)];;
      do_call (PathMkdir (mount_target self));;
      subprocess_run (mount_argv Erofs image (mount_target self))
  | _, _ => Raise NotImplementedError
  end.

(** [teardown], lines 29-30, 58-61, 80-83 and 98-101. *)
Definition teardown (self : fs) : prog unit :=
  match fs_image_path self with
  | Some image =>
      subprocess_run (umount_argv (mount_target self));;
      do_call (PathRmdir (mount_target self));;
      do_call (PathUnlink image)
  | None => Raise NotImplementedError
  end.

(** [with self.test(): body], lines 32-41.  The two [logger.info] calls
    read [self.name]. *)
Definition test {A} (self : fs) (body : prog A) : prog A :=
  match name (cls self) with
  | None => Raise (AttributeError "name")
  | Some _ =>
      setup self;;
      finally body (do_call (Sleep 5);; teardown self)
  end.

(** ** [main] *)

(** Lines 200-202, on the list object [l]. *)
Definition three_benchmarks (l : list PurePath) : prog (list PurePath) :=
  l1 ← call_benchmark l 1 3;
  l2 ← call_benchmark l1 8 3;
  call_benchmark l2 64 3.

Definition all_fs : list fs_class := [Ext4; SquashFs; Erofs].

(** The loop of lines 191-202 over the classes still to test. *)
Fixpoint for_each_fs (classes : list fs_class) (path target dataset : PurePath)
    (size : Z) (l : list PurePath) : prog (list PurePath) :=
  match classes with
  | [] => Ret l
  | c :: classes' =>
      l' ← test (Fs c path target size dataset) (three_benchmarks l);
      for_each_fs classes' path target dataset size l'
  end.

(** [main], lines 166-207, the arguments parsed being [path], [file_size]
    and [total_size]. *)
Definition main (path : PurePath) (file_size total_size : Z) : prog unit :=
  e ← path_exists path;
  if e : bool then Raise (RuntimeError path) else
  do_call (PathMkdir path);;
  subprocess_run [Lit "sudo"; Lit "mount"; Lit "-t"; Lit "tmpfs"; Lit "tmpfs"; Str path];;
  let dataset_path := joinpath path (of_name "dataset") in
  all_files ← generate_fake_dataset dataset_path file_size total_size;
  let target := joinpath path (of_name "dataset_fs") in
  match all_read_files target dataset_path all_files with
  | None => Raise ValueError
  | Some l =>
      for_each_fs all_fs path target dataset_path total_size l;;
      subprocess_run (umount_argv path);;
      do_call (PathRmdir path)
  end.

(** ** What a trace shows *)

Definition is_benchmark (c : call) : bool :=
  if c is Benchmark _ _ _ then true else false.

(** The calls of [benchmark] in a trace. *)
Definition benchmarks_of (tr : list event) : list event :=
  filter (λ ev, is_benchmark ev.1 = true) tr.

(** A body, like the one of lines 199-202, that calls nothing but
    [benchmark]. *)
Definition only_benchmarks {A} (body : prog A) : Prop :=
  ∀ tr r, exec body tr r → Forall (λ ev, is_benchmark ev.1 = true) tr.

(** A call that [setup] makes: none of [teardown], not [benchmark]. *)
Definition builds (c : call) : Prop :=
  (∀ p, c ≠ Subprocess (umount_argv p)) ∧ (∀ p, c ≠ PathRmdir p) ∧
  (∀ p, c ≠ PathUnlink p) ∧ (∀ d f t, c ≠ GenerateFakeDataset d f t) ∧
  is_benchmark c = false.

(** A call that removes nothing. *)
Definition keeps (c : call) : Prop :=
  (∀ p, c ≠ Subprocess (umount_argv p)) ∧ (∀ p, c ≠ PathRmdir p) ∧
  (∀ p, c ≠ PathUnlink p).

(** A call made while the tmpfs at [path] is in use: it neither unmounts
    [path] nor removes it, and generates no dataset. *)
Definition inner (path : PurePath) (c : call) : Prop :=
  c ≠ Subprocess (umount_argv path) ∧ c ≠ PathRmdir path ∧
  (∀ d f t, c ≠ GenerateFakeDataset d f t).

Definition is_result (a : answer) : bool :=
  if a is Result _ _ _ then true else false.

(** The queue depths of the calls that [main] makes for [n] file
    systems. *)
Definition depths (n : nat) : list nat := mjoin (replicate n [1; 8; 64]).

(** [bs] is a run of calls [benchmark(l, queue_depth=d, drop_caches=3)],
    [d] going through [ds] from its start and each call being made on the
    list as the call before left it; a call that does not return a result
    is the last. *)
Fixpoint chained (ds : list nat) (l : list PurePath) (bs : list event)
    {struct bs} : Prop :=
  match bs with
  | [] => True
  | (c, a) :: bs' =>
      match ds with
      | [] => False
      | d :: ds' =>
          c = Benchmark l d 3 ∧
          match a with
          | Result l' _ _ => chained ds' l' bs'
          | _ => bs' = []
          end
      end
  end.

(** The list object after the calls [bs]. *)
Fixpoint chain_end (l : list PurePath) (bs : list event) : list PurePath :=
  match bs with
  | [] => l
  | (_, Result l' _ _) :: bs' => chain_end l' bs'
  | _ :: bs' => chain_end l bs'
  end.

(** The answer [Result l' total used] to the call
    [benchmark(l, queue_depth=d, drop_caches=dr)] is one that [benchmark]
    can give: some execution of it on the files [l] returns
    [(total, used)] and leaves the list as [l']. *)
Definition benchmark_returns (l : list PurePath) (d : nat) (dr : Z)
    (l' : list PurePath) (total : nat) (used : Z) : Prop :=
  ∃ rs t mr s, reachable_from (init (str <$> l) d dr rs t mr) s ∧
               pc s = RReturn total used ∧ all_files s = str <$> l'.

(** ** Some executions *)

(** A run with [--path d]: one file is generated, every call succeeds
    and every call of [benchmark] reads the file. *)
Definition run_path : PurePath := MkPath false ["d"].
Definition run_file : PurePath := MkPath false ["d"; "dataset"; "f"].
Definition run_read_file : PurePath := MkPath false ["d"; "dataset_fs"; "f"].

Definition fs_ok_answers (setup_calls : nat) : list answer :=
  replicate setup_calls (Exit 0) ++ [Done; Exit 0] ++
  replicate 3 (Result [run_read_file] 1 0) ++ [Done; Exit 0; Done; Done].

Definition main_ok_answers : list answer :=
  [Bool false; Done; Exit 0; Files [run_file]] ++
  fs_ok_answers 2 ++ fs_ok_answers 1 ++ fs_ok_answers 1 ++ [Exit 0; Done].

Definition main_ok_trace : list event :=
  (run_prog (main run_path 32768 2147483648) main_ok_answers).1.

(** The same run, but the second call of [benchmark] raises. *)
Definition main_raise_answers : list answer :=
  [Bool false; Done; Exit 0; Files [run_file]; Exit 0; Exit 0; Done; Exit 0;
   Result [run_read_file] 1 0; Error; Done; Exit 0; Done; Done].

Definition main_raise_trace : list event :=
  (run_prog (main run_path 32768 2147483648) main_raise_answers).1.

(** [with fs.test():] for an [Ext4] object and a body that raises. *)
Definition run_fs : fs :=
  Fs Ext4 run_path (MkPath false ["d"; "dataset_fs"]) 2147483648
     (MkPath false ["d"; "dataset"]).

Definition test_raise_answers : list answer :=
  [Exit 0; Exit 0; Done; Exit 0; Error; Done; Exit 0; Done; Done].

Definition test_raise_trace : list event :=
  (run_prog (test run_fs (three_benchmarks [run_read_file])) test_raise_answers).1.

(** * [size] *)

(** A Python string is the sequence of its code points, numbers from 0
    to 1114111 (U+10FFFF).  The conversions [int] and [float] are not evaluated:
    the result of [size] says which of them is applied, and to which
    string. *)
Definition code_points (s : string) : list N :=
  N_of_ascii <$> String.list_ascii_of_string s.

(** [c.lower()] for the string of one code point [c]; the result is a
    string, of two code points for U+0130.  It is what Python gives for
    every code point below 256, and for every code point from 256 up whose
    lower case has a code point below 256: U+0130, U+0178, U+1E9E, U+212A
    (KELVIN SIGN, whose lower case is the letter k) and U+212B.  Any other
    code point from 256 up is left as it is, where Python may give another
    string of code points from 256 up; [size] compares the result with the
    letters of ['kmgtp'] only, and for that the two are the same. *)
Definition lower (c : N) : list N :=
  if (65 <=? c)%N && (c <=? 90)%N then [(c + 32)%N]
  else if (192 <=? c)%N && (c <=? 222)%N && negb (c =? 215)%N then [(c + 32)%N]
  else if (c =? 304)%N then [105%N; 775%N]
  else if (c =? 376)%N then [255%N]
  else if (c =? 7838)%N then [223%N]
  else if (c =? 8490)%N then [107%N]
  else if (c =? 8491)%N then [229%N]
  else [c].

(** [s[:-1]] *)
Definition but_last (s : list N) : list N := take (length s - 1) s.

(** What [size] returns: the value of one of its two [return]
    statements, or the exception of line 158. *)
Inductive size_result :=
| IndexError                                (* [size_str[-1]] on the empty string *)
| Scaled (mantissa : list N) (power : nat)  (* [int(round(float(mantissa) * 1024 ** power))] *)
| Plain (s : list N).                       (* [int(s)] *)

(** [for i, u in enumerate(units): if u == unit: return ...], from
    index [i] on; [None] when the loop ends. *)
Fixpoint find_unit (units : list N) (i : nat) (unit : list N) (size_str : list N) :
    option size_result :=
  match units with
  | [] => None
  | u :: units' =>
      if decide ([u] = unit)
      then Some (Scaled (but_last size_str) (i + 1))
      else find_unit units' (S i) unit size_str
  end.

(** [size], lines 157-163; [last size_str] is [size_str[-1]]. *)
Definition size (size_str : list N) : size_result :=
  match last size_str with
  | None => IndexError
  | Some c =>
      let unit := lower c in
      match find_unit (code_points "kmgtp") 0 unit size_str with
      | Some r => r
      | None => Plain size_str
      end
  end.

(** The power of 1024 that a unit stands for. *)
Definition power_of (unit : list N) : option nat :=
  if decide (unit = code_points "k") then Some 1
  else if decide (unit = code_points "m") then Some 2
  else if decide (unit = code_points "g") then Some 3
  else if decide (unit = code_points "t") then Some 4
  else if decide (unit = code_points "p") then Some 5
  else None.

(** The code points that [size] reads as a unit: the five letters, small
    and capital, and the Kelvin sign. *)
Definition unit_chars : list N :=
  code_points "kmgtpKMGTP" ++ [8490%N].

(** * Proofs *)

(** *** Sums over the worker table *)

Lemma sum_list_with_insert {A} (f : A → nat) (l : list A) i x y :
  l !! i = Some x →
  sum_list_with f (<[i:=y]> l) + f x = sum_list_with f l + f y.
Proof.
  revert i. induction l as [|a l IH]; intros [|i] Hi; simplify_eq/=; [lia|].
  specialize (IH _ Hi). lia.
Qed.

Lemma sum_list_with_snoc {A} (f : A → nat) (l : list A) x :
  sum_list_with f (l ++ [x]) = sum_list_with f l + f x.
Proof. rewrite sum_list_with_app. simpl. lia. Qed.

Lemma sum_list_snoc (l : list nat) x : sum_list (l ++ [x]) = sum_list l + x.
Proof. induction l; simpl; lia. Qed.

Lemma sum_list_with_le_length {A} (f : A → nat) (l : list A) :
  (∀ x, f x ≤ 1) → sum_list_with f l ≤ length l.
Proof. intros Hf. induction l as [|a l IH]; simpl; [lia|]. specialize (Hf a). lia. Qed.

Lemma sum_list_with_all {A} (f : A → nat) (l : list A) :
  (∀ x, f x ≤ 1) → sum_list_with f l = length l → Forall (λ x, f x = 1) l.
Proof.
  intros Hf. induction l as [|a l IH]; simpl; intros Hs; [constructor|].
  pose proof (Hf a). pose proof (sum_list_with_le_length f l Hf).
  constructor; [lia|]. apply IH. lia.
Qed.

Lemma nstops_snoc l t : nstops (l ++ [t]) = nstops l + is_stop t.
Proof. apply sum_list_with_snoc. Qed.

Lemma npaths_snoc l t : npaths (l ++ [t]) = npaths l + is_path t.
Proof. apply sum_list_with_snoc. Qed.

(** ** The invariant holds in every reachable state *)

(** *** Proof steps *)

(** Read the progress of the parent off its program counter. *)
Ltac unfold_phase :=
  unfold started, spawned, paths_put, stops_put, joined, collected, counted, in_time in *.

(** Turn the boolean tests of [step] into propositions. *)
Ltac elim_tests :=
  repeat match goal with
  | H : (_ <? _)%nat = true |- _ => apply Nat.ltb_lt in H
  | H : (_ <? _)%nat = false |- _ => apply Nat.ltb_ge in H
  | H : (_ <? _)%Z = true |- _ => apply Z.ltb_lt in H
  | H : (_ <? _)%Z = false |- _ => apply Z.ltb_ge in H
  | H : (_ <=? _)%Z = true |- _ => apply Z.leb_le in H
  | H : (_ <=? _)%Z = false |- _ => apply Z.leb_gt in H
  end.

(** Push sums, counts and lengths through [++]. *)
Ltac list_norm :=
  rewrite ?sum_list_with_snoc, ?sum_list_snoc, ?nstops_snoc, ?npaths_snoc,
    ?length_app, ?fmap_app, ?app_nil_r, <-?app_assoc; simpl.

(** Evaluate the counting functions on a worker whose position is known. *)
Ltac unfold_count :=
  unfold completed, uncounted, live, left_loop, exited, crashed, reported, terminated in *;
  simpl in *.

(** A lookup that succeeds is within the list, one that fails is beyond it. *)
Ltac lookup_bounds :=
  repeat match goal with
  | H : _ !! _ = Some _ |- _ => apply lookup_lt_Some in H
  | H : _ !! _ = None |- _ => apply lookup_ge_None in H
  end.

(** How each sum over the worker table changes when worker [i] moves. *)
Ltac sum_insert Hw w' :=
  match type of Hw with
  | ?ws !! ?i = Some ?w =>
      pose proof (sum_list_with_insert completed ws i w w' Hw);
      pose proof (sum_list_with_insert uncounted ws i w w' Hw);
      pose proof (sum_list_with_insert live ws i w w' Hw);
      pose proof (sum_list_with_insert left_loop ws i w w' Hw);
      pose proof (sum_list_with_insert exited ws i w w' Hw);
      pose proof (sum_list_with_insert reported ws i w w' Hw)
  end.

(** Case analysis on the tests and matches of a step [H : ... = Some s']. *)
Ltac case_step H :=
  repeat match type of H with
  | context [match ?x with _ => _ end] => destruct x eqn:?
  end; simplify_eq.

Lemma inv_init files qd dc rs t0 mr : inv (init files qd dc rs t0 mr).
Proof. constructor; unfold_phase; simpl; auto with lia. Qed.

Lemma inv_tick s d : inv s → (0 < d)%Z → inv (set_now s (now s + d)).
Proof.
  intros [Hsp Hbd Hend Hex Hchk Henq Hfifo Hrd Hst Hjn Hres Hit] Hd.
  constructor; unfold_phase; simpl in *; auto.
  - destruct (pc s); auto; destruct Hend as (e & ? & ?); exists e; (split; [done|lia]).
  - eapply Forall_impl; [done|]. simpl. intros w Hw t c Ht. specialize (Hw t c Ht). lia.
  - intros Hin. apply Hit. intros e He. specialize (Hin e He). lia.
Qed.

Lemma inv_main s s' : inv s → benchmark s = Some s' → inv s'.
Proof.
  intros [Hsp Hbd Hend Hex Hchk Henq Hfifo Hrd Hst Hjn Hres Hit] Hs. unfold benchmark in Hs.
  destruct s as [t mr rs cd files qd dc pq rq et ws p enq deq]; unfold_phase; simpl in *.
  destruct p; repeat case_match; simplify_eq; elim_tests; destruct_and?; simplify_eq/=;
  (constructor; unfold_phase; simpl in *; list_norm; auto with lia).
  all: try (destruct_and?; split_and?; lia).
  all: try (by apply app_eq_nil in Hfifo as [? ?]).
  all: try (eexists; split; [done|lia]).
  all: try (apply Forall_app; split; [done|]; constructor; [|constructor]; simpl; done).
  all: try (unfold_count; try intros Hin; try specialize (Hit Hin); lia).
  all: rewrite ?app_nil_r in *.
  all: try (rewrite ?app_assoc, ?Hfifo; done).
  all: try (split_and?; lookup_bounds; lia).
  all: try (by erewrite take_S_r, fmap_snoc by done).
  all: try (lookup_bounds; by rewrite !take_ge by lia).
  all: try (by rewrite <- replicate_S_end).
  all: try (do 2 f_equal; lia).
  - intros j w' Hj Hw'. destruct (decide (j = i)) as [->|]; [congruence|].
    apply (Hjn j); [lia|done].
  - intros j w' Hj Hw'. apply (Hjn j); [|done].
    match goal with H : _ !! _ = None |- _ => apply lookup_ge_None in H end. lia.
Qed.

Lemma inv_work i ok s s' : inv s → benchmark_worker i ok s = Some s' → inv s'.
Proof.
  intros [Hsp Hbd Hend Hex Hchk Henq Hfifo Hrd Hst Hjn Hres Hit] Hs.
  unfold benchmark_worker in Hs.
  destruct (workers s !! i) as [[e a]|] eqn:Hw; [|done].
  pose proof (Forall_lookup_1 _ _ _ _ Hex Hw) as Hexw.
  pose proof (Forall_lookup_1 _ _ _ _ Hchk Hw) as Hchkw.
  destruct s as [t mr rs cd files qd dc pq rq et ws p enq deq]; unfold_phase; simpl in *.
  destruct a; case_step Hs; elim_tests;
  unfold set_worker, do_get, do_report; simpl;
  match goal with |- context [<[i:=?w']> _] => sum_insert Hw w' end;
  destruct_and?;
  (constructor; unfold_phase; simpl in *; list_norm; list_norm; rewrite ?length_insert;
   auto with lia).
  all: try (destruct_and?; split_and?; unfold_count; lia).
  all: try (match goal with |- if ?b then _ else _ => destruct b end;
            [done | by destruct Hend as [-> _]]).
  all: try (apply Forall_insert; [done|]; simpl; try done; intros ???; simplify_eq; lia).
  all: try (intros Hin; pose proof (Hin _ eq_refl); specialize (Hit Hin); unfold_count; lia).
  all: try (intros j w' Hj Hw'; destruct (decide (j = i)) as [->|];
            [by specialize (Hjn _ _ Hj Hw)
            |rewrite list_lookup_insert_ne in Hw' by done; eauto]).
Qed.

Lemma inv_step a s s' : inv s → step a s = Some s' → inv s'.
Proof.
  destruct a as [d| |i ok]; simpl; intros Hinv Hs.
  - destruct (0 <? d)%Z eqn:Hd; simplify_eq. apply inv_tick; [done|]. by apply Z.ltb_lt.
  - by eapply inv_main.
  - by eapply inv_work.
Qed.

Lemma inv_run sched : ∀ s s', inv s → run sched s = Some s' → inv s'.
Proof.
  induction sched as [|a sched IH]; simpl; intros s s' Hinv Hr; [by simplify_eq|].
  destruct (step a s) as [s1|] eqn:Hs; [|done].
  eapply IH; [|done]. by eapply inv_step.
Qed.

Lemma inv_reachable s : reachable s → inv s.
Proof.
  intros (files & qd & dc & rs & t0 & mr & sched & Hr).
  eapply inv_run; [apply inv_init|done].
Qed.

(** ** Executions *)

Lemma run_app sched1 sched2 s :
  run (sched1 ++ sched2) s = run sched1 s ≫= run sched2.
Proof.
  revert s. induction sched1 as [|a sched1 IH]; intros s; simpl; [done|].
  destruct (step a s); simpl; auto.
Qed.

Lemma reachable_from_refl s : reachable_from s s.
Proof. by exists []. Qed.

Lemma reachable_from_trans s1 s2 s3 :
  reachable_from s1 s2 → reachable_from s2 s3 → reachable_from s1 s3.
Proof.
  intros [sched1 H1] [sched2 H2]. exists (sched1 ++ sched2).
  rewrite run_app, H1. done.
Qed.

Lemma reachable_from_step a s s' : step a s = Some s' → reachable_from s s'.
Proof. intros Hs. exists [a]. simpl. by rewrite Hs. Qed.

Lemma reachable_init files qd dc rs t0 mr s :
  reachable_from (init files qd dc rs t0 mr) s → reachable s.
Proof. intros Hr. by exists files, qd, dc, rs, t0, mr. Qed.

Lemma reachable_trans s s' : reachable s → reachable_from s s' → reachable s'.
Proof.
  intros (files & qd & dc & rs & t0 & mr & Hr) Hr'.
  exists files, qd, dc, rs, t0, mr. by eapply reachable_from_trans.
Qed.

(** A property kept by every step is kept by every execution. *)
Lemma run_invariant (P : state → Prop) :
  (∀ a s s', P s → step a s = Some s' → P s') →
  ∀ s s', reachable_from s s' → P s → P s'.
Proof.
  intros Hstep s s' [sched Hr]. revert s Hr.
  induction sched as [|a sched IH]; simpl; intros s Hr HP; [by simplify_eq|].
  destruct (step a s) as [s1|] eqn:Hs; [|done]. eauto.
Qed.

(** The executions defined above end where they are said to end. *)
Example crash_reading_run :
  run crash_sched (init ["a"] 1 0 [] 0 0) = Some crash_reading.
Proof. vm_compute. reflexivity. Qed.

Example crash_blocked_run :
  run [Work 0 false; Main; Main; Main] crash_reading = Some (crash_blocked 0).
Proof. vm_compute. reflexivity. Qed.

Example depth1_run : run depth1_sched (init ["a"] 1 0 [] 0 0) = Some depth1_final.
Proof. vm_compute. reflexivity. Qed.

Example depth2_run : run depth2_sched (init ["a"] 2 0 [] 0 0) = Some depth2_final.
Proof. vm_compute. reflexivity. Qed.

Example deadline_run :
  run deadline_sched (init ["a"] 1 0 [] 7 0) = Some deadline_state ∧
  run [Main; Main; Tick 5; Work 0 true; Main] deadline_state = Some deadline_later.
Proof. split; vm_compute; reflexivity. Qed.

Example late_run : run late_sched (init ["a"] 1 0 [] 0 0) = Some late_state.
Proof. vm_compute. reflexivity. Qed.

Example fast_run : run fast_sched (init ["a"; "b"] 1 0 [] 0 1) = Some fast_final.
Proof. vm_compute. reflexivity. Qed.

Example slow_run : run slow_sched (init ["a"] 1 0 [] 0 (DURATION + 1)) = Some slow_final.
Proof. vm_compute. reflexivity. Qed.

Example turn_run : run turn_sched (init ["a"; "b"] 2 3 [1] 5 0) = Some turn_final.
Proof. vm_compute. reflexivity. Qed.

Example plain_run : run plain_sched (init ["a"; "b"] 2 3 [] 0 0) = Some plain_final.
Proof. vm_compute. reflexivity. Qed.

Example depth0_run : run depth0_sched (init ["a"] 0 0 [] 0 0) = Some depth0_joining.
Proof. vm_compute. reflexivity. Qed.

(** ** The shuffle permutes *)

Lemma swap_Permutation x i j : swap x i j ≡ₚ x.
Proof.
  unfold swap. destruct (x !! i) as [a|] eqn:Hi; [|done].
  destruct (x !! j) as [b|] eqn:Hj; [|done].
  by apply Permutation_insert_swap.
Qed.

Lemma shuffle_from_Permutation i : ∀ rs x, (shuffle_from i rs x).1 ≡ₚ x.
Proof.
  induction i as [|i IH]; intros rs x; simpl; [done|].
  destruct (randbelow (S (S i)) rs) as [j rs']. rewrite IH. apply swap_Permutation.
Qed.

Lemma shuffle_Permutation rs x : (shuffle rs x).1 ≡ₚ x.
Proof. apply shuffle_from_Permutation. Qed.

(** The shuffle does reorder: two paths and no draw left, they swap. *)
Example shuffle_swaps : (shuffle [] ["a"; "b"]).1 = ["b"; "a"].
Proof. reflexivity. Qed.

(** ** What no step changes *)

Lemma step_frame a s s' :
  step a s = Some s' →
  queue_depth s' = queue_depth s ∧ drop_caches s' = drop_caches s ∧
  min_read s' = min_read s ∧ all_files s' ≡ₚ all_files s ∧ (now s ≤ now s')%Z.
Proof.
  destruct a as [d| |i ok]; simpl; unfold benchmark, benchmark_worker; intros Hs;
    case_step Hs; elim_tests; simpl; split_and?; try done; try lia.
  apply shuffle_Permutation.
Qed.

Lemma run_frame s s' :
  reachable_from s s' →
  queue_depth s' = queue_depth s ∧ drop_caches s' = drop_caches s ∧
  min_read s' = min_read s ∧ all_files s' ≡ₚ all_files s ∧ (now s ≤ now s')%Z.
Proof.
  intros Hr.
  refine (run_invariant (λ s', _ ∧ _ ∧ _ ∧ _ ∧ _) _ s s' Hr _).
  - intros a s1 s2 (? & ? & ? & ? & ?) Hs.
    destruct (step_frame _ _ _ Hs) as (-> & -> & -> & -> & ?). split_and?; try done; lia.
  - split_and?; try done; lia.
Qed.

(** ** Tokens *)

Lemma npaths_app l k : npaths (l ++ k) = npaths l + npaths k.
Proof. apply sum_list_with_app. Qed.

Lemma nstops_app l k : nstops (l ++ k) = nstops l + nstops k.
Proof. apply sum_list_with_app. Qed.

Lemma npaths_Some (fs : list Path) : npaths (Some <$> fs) = length fs.
Proof.
  induction fs as [|a fs IH]; [done|].
  change (S (npaths (Some <$> fs)) = S (length fs)). by rewrite IH.
Qed.

Lemma nstops_Some (fs : list Path) : nstops (Some <$> fs) = 0.
Proof. induction fs; simpl; done. Qed.

Lemma npaths_None n : npaths (replicate n None) = 0.
Proof. induction n; simpl; done. Qed.

Lemma nstops_None n : nstops (replicate n None) = n.
Proof.
  induction n as [|n IH]; [done|].
  change (S (nstops (replicate n None)) = S n). by rewrite IH.
Qed.

Lemma length_tokens (l : list token) : length l = npaths l + nstops l.
Proof.
  unfold npaths, nstops. induction l as [|[p|] l IH]; simpl; lia.
Qed.

(** A prefix of "all the paths, then the stops" that holds a stop holds
    every path. *)
Lemma stop_after_all_paths l q (fs : list Path) n :
  l ++ q = (Some <$> fs) ++ replicate n None →
  1 ≤ nstops l → npaths l = length fs.
Proof.
  intros Heq Hstop. apply app_eq_inv in Heq as [(k & -> & Hk)|(k & Hk & _)].
  - apply (f_equal npaths) in Hk. rewrite npaths_None, npaths_app in Hk.
    rewrite npaths_app, npaths_Some. lia.
  - apply (f_equal nstops) in Hk. rewrite nstops_Some, nstops_app in Hk. lia.
Qed.

(** The paths dequeued are among the paths enqueued. *)
Lemma dequeued_le_files s : inv s → npaths (dequeued s).*2 ≤ length (all_files s).
Proof.
  intros Hinv. pose proof (inv_fifo _ Hinv) as Hf. rewrite (inv_enqueued _ Hinv) in Hf.
  apply (f_equal npaths) in Hf.
  rewrite !npaths_app, npaths_Some, npaths_None, length_take in Hf. lia.
Qed.

(** ** The state in which [benchmark] returns *)

Lemma exited_sums ws :
  Forall (λ w, exited w = 1) ws →
  sum_list_with uncounted ws = 0 ∧
  sum_list_with reported ws = sum_list_with completed ws ∧
  sum_list_with left_loop ws = length ws ∧
  sum_list_with crashed ws = 0.
Proof.
  induction 1 as [|[e a] ws Ha _ IH]; simpl; [done|].
  destruct a; unfold_count; try done. lia.
Qed.

Lemma exited_le_1 w : exited w ≤ 1.
Proof. unfold exited. destruct (w_at w); lia. Qed.

Lemma returned_all_exited s total used :
  inv s → pc s = RReturn total used →
  Forall (λ w, exited w = 1) (workers s) ∧ result_queue s = [] ∧
  length (workers s) = queue_depth s ∧
  total = sum_list_with completed (workers s).
Proof.
  intros Hinv Hpc.
  destruct (inv_spawned _ Hinv) as [Hlen _].
  destruct (inv_results _ Hinv) as [Hex Hrep].
  unfold spawned, collected, counted in *. rewrite Hpc in *.
  pose proof (sum_list_with_le_length exited (workers s) exited_le_1) as Hle.
  assert (Hall : Forall (λ w, exited w = 1) (workers s)).
  { apply sum_list_with_all; [apply exited_le_1|lia]. }
  assert (Hrq : result_queue s = []).
  { apply length_zero_iff_nil. lia. }
  destruct (exited_sums _ Hall) as (_ & Hrc & _).
  rewrite Hrq in Hrep. simpl in Hrep. split_and?; try done. lia.
Qed.

Lemma returned_total s total used :
  inv s → pc s = RReturn total used →
  total ≤ length (all_files s) ∧
  total = npaths (dequeued s).*2 ∧
  Forall (λ w, w_at w = WExited (completed w)) (workers s).
Proof.
  intros Hinv Hpc.
  destruct (returned_all_exited _ _ _ Hinv Hpc) as (Hall & _ & _ & Htot).
  destruct (exited_sums _ Hall) as (Hun & _).
  pose proof (inv_reads _ Hinv) as Hrd.
  pose proof (dequeued_le_files _ Hinv) as Hle.
  split_and?; [lia|lia|].
  eapply Forall_impl; [exact Hall|]. intros [e a]. unfold exited, completed. simpl.
  by destruct a.
Qed.

(** C1.  Whatever the path set and the concurrency level (so also for
    every non-empty path set and every level [>= 1]), the total that
    [benchmark] returns is at most the number of paths supplied, and it is
    the number of path tokens (tokens other than the stop sentinel) that the
    workers took off [path_queue]; by then every worker has stopped. *)
Theorem returned_total_counts_dequeued_paths files qd dc rs t0 mr s total used :
  reachable_from (init files qd dc rs t0 mr) s →
  pc s = RReturn total used →
  total ≤ length files ∧
  total = npaths (dequeued s).*2 ∧
  Forall (λ w, w_at w = WExited (completed w)) (workers s).
Proof.
  intros Hr Hpc.
  pose proof (inv_reachable _ (reachable_init _ _ _ _ _ _ _ Hr)) as Hinv.
  destruct (run_frame _ _ Hr) as (_ & _ & _ & Hperm & _). simpl in Hperm.
  rewrite <- (Permutation_length Hperm). by apply (returned_total s total used).
Qed.

Lemma returned_total_counts_dequeued_paths_witness :
  2 ≤ length ["a"; "b"] ∧
  2 = npaths (dequeued turn_final).*2 ∧
  Forall (λ w, w_at w = WExited (completed w)) (workers turn_final).
Proof.
  apply (returned_total_counts_dequeued_paths ["a"; "b"] 2 3 [1] 5 0 turn_final 2 0).
  - exists turn_sched. vm_compute. reflexivity.
  - reflexivity.
Defined.

(** When [benchmark] returns within the deadline, every worker has
    taken a stop sentinel. *)
Lemma returned_in_time_stops s total used :
  inv s → pc s = RReturn total used → in_time s →
  nstops (dequeued s).*2 = queue_depth s.
Proof.
  intros Hinv Hpc Hin.
  destruct (returned_all_exited _ _ _ Hinv Hpc) as (Hall & _ & Hlen & _).
  destruct (exited_sums _ Hall) as (_ & _ & Hleft & _).
  pose proof (inv_in_time _ Hinv Hin). pose proof (inv_stops _ Hinv). lia.
Qed.

Lemma returned_enqueued s total used :
  inv s → pc s = RReturn total used →
  enqueued s = (Some <$> all_files s) ++ replicate (queue_depth s) None.
Proof.
  intros Hinv Hpc. rewrite (inv_enqueued _ Hinv).
  unfold paths_put, stops_put. rewrite Hpc. by rewrite take_ge.
Qed.

Lemma returned_in_time_total s total used :
  reachable s → 1 ≤ queue_depth s → pc s = RReturn total used → in_time s →
  total = length (all_files s).
Proof.
  intros Hr Hqd Hpc Hin. pose proof (inv_reachable _ Hr) as Hinv.
  pose proof (returned_in_time_stops _ _ _ Hinv Hpc Hin) as Hst.
  pose proof (inv_fifo _ Hinv) as Hf. rewrite (returned_enqueued _ _ _ Hinv Hpc) in Hf.
  apply stop_after_all_paths in Hf; [|lia].
  destruct (returned_all_exited _ _ _ Hinv Hpc) as (Hall & _ & _ & Htot).
  destruct (exited_sums _ Hall) as (Hun & _).
  pose proof (inv_reads _ Hinv). lia.
Qed.

(** ** Delivery is first-in first-out and single *)

Lemma omap_id_fmap_Some {A} (l : list A) : omap id (Some <$> l) = l.
Proof. induction l as [|a l IH]; simpl; [done|]. by f_equal. Qed.

Lemma omap_id_replicate_None {A} n : omap id (replicate n (@None A)) = [].
Proof. induction n; simpl; done. Qed.

Lemma omap_snd {A B} (l : list (A * option B)) : omap snd l = omap id l.*2.
Proof. induction l as [|[a [b|]] l IH]; simpl; [done| |done]. by f_equal. Qed.


Lemma taken_by_snoc i dq j tok :
  taken_by i (dq ++ [(j, tok)]) =
  taken_by i dq ++ (if decide (j = i) then option_list tok else []).
Proof.
  unfold taken_by. rewrite omap_app. simpl. f_equal.
  destruct (decide (j = i)); [by destruct tok|done].
Qed.






(** ** A worker whose read raised *)

Lemma crashed_no_step s i w c ok :
  workers s !! i = Some w → w_at w = WCrashed c → benchmark_worker i ok s = None.
Proof. intros Hw Hc. unfold benchmark_worker. by rewrite Hw, Hc. Qed.

Lemma crashed_stays a s s' i w c :
  inv s → workers s !! i = Some w → w_at w = WCrashed c →
  step a s = Some s' → workers s' !! i = Some w.
Proof.
  intros Hinv Hw Hc Hs. pose proof (inv_end_t _ Hinv) as Hend.
  destruct a as [d| |j ok]; simpl in Hs.
  - case_step Hs. done.
  - unfold benchmark in Hs. unfold started in Hend.
    case_step Hs; simpl; try done.
    + destruct Hend as [Hnil _]. by rewrite Hnil in Hw.
    + by apply lookup_app_l_Some.
  - destruct (decide (j = i)) as [->|Hne].
    + by rewrite (crashed_no_step _ _ _ _ ok Hw Hc) in Hs.
    + unfold benchmark_worker in Hs. case_step Hs; simpl; by rewrite list_lookup_insert_ne.
Qed.

Lemma crashed_forever s s' i w c :
  inv s → workers s !! i = Some w → w_at w = WCrashed c →
  reachable_from s s' → inv s' ∧ workers s' !! i = Some w.
Proof.
  intros Hinv Hw Hc Hr.
  refine (run_invariant (λ s', inv s' ∧ workers s' !! i = Some w) _ s s' Hr _); [|done].
  intros a s1 s2 [Hinv1 Hw1] Hs. split; [by eapply inv_step|by eapply crashed_stays].
Qed.

Lemma crashed_no_return s i w c total used :
  inv s → workers s !! i = Some w → w_at w = WCrashed c → pc s ≠ RReturn total used.
Proof.
  intros Hinv Hw Hc Hpc.
  destruct (returned_all_exited _ _ _ Hinv Hpc) as (Hall & _).
  pose proof (Forall_lookup_1 _ _ _ _ Hall Hw) as Hex.
  unfold exited in Hex. by rewrite Hc in Hex.
Qed.

(** C3, as the code has it.  When the read of worker [i] raises, the
    worker stops there and then: from that moment on it stays where the
    failure left it, with the count it had (the failed read is not counted),
    and it never runs another statement, so it neither retries, nor takes
    further work, nor publishes a count.  The parent never returns a result
    for that run, partial or not. *)
Theorem read_failure_stops_worker_and_result s i w p t0 c s1 s' :
  reachable s →
  workers s !! i = Some w → w_at w = WRead p t0 c →
  step (Work i false) s = Some s1 →
  reachable_from s1 s' →
  workers s' !! i = Some (Worker (exit_time w) (WCrashed c)) ∧
  (∀ ok, step (Work i ok) s' = None) ∧
  (∀ total used, pc s' ≠ RReturn total used).
Proof.
  intros Hr Hw Hat Hs Hr'.
  pose proof (inv_reachable _ Hr) as Hinv.
  pose proof (inv_step _ _ _ Hinv Hs) as Hinv1.
  assert (Hw1 : workers s1 !! i = Some (Worker (exit_time w) (WCrashed c))).
  { simpl in Hs. unfold benchmark_worker in Hs. rewrite Hw, Hat in Hs.
    case_step Hs. simpl. apply list_lookup_insert_eq. by eapply lookup_lt_Some. }
  destruct (crashed_forever s1 s' i _ c Hinv1 Hw1 eq_refl Hr') as [Hinv' Hw'].
  split_and?; [done| |].
  - intros ok. simpl. by eapply crashed_no_step.
  - intros total used. by eapply crashed_no_return.
Qed.

Lemma read_failure_stops_worker_and_result_witness :
  workers (crash_blocked 0) !! 0 = Some (Worker DURATION (WCrashed 0)) ∧
  (∀ ok, step (Work 0 ok) (crash_blocked 0) = None) ∧
  (∀ total used, pc (crash_blocked 0) ≠ RReturn total used).
Proof.
  apply (read_failure_stops_worker_and_result crash_reading 0
           (Worker DURATION (WRead "a" 0 0)) "a" 0%Z 0
           (set_worker crash_reading 0 (Worker DURATION (WCrashed 0)))).
  - exists ["a"], 1, 0%Z, [], 0%Z, 0%Z, crash_sched. reflexivity.
  - reflexivity.
  - reflexivity.
  - reflexivity.
  - exists [Main; Main; Main]. reflexivity.
Defined.

Lemma crash_blocked_forever sched :
  ∀ t s', run sched (crash_blocked t) = Some s' → ∃ t', s' = crash_blocked t'.
Proof.
  induction sched as [|a sched IH]; simpl; intros t s' Hr; [by exists t; simplify_eq|].
  destruct a as [d| |[|i] ok]; simpl in Hr; try done.
  destruct (0 <? d)%Z; [|done]. by eapply IH.
Qed.

(** C3 fails on the code: a read raises, and the parent does not fail the
    run.  With one path and one worker whose read raises, the parent joins
    the dead worker and then waits in [result_queue.get()] (line 151) for a
    count that never comes; in every later state it is still there. *)
Lemma read_failure_blocks_parent :
  ∃ s, reachable_from (init ["a"] 1 0 [] 0 0) s ∧
       workers s !! 0 = Some (Worker DURATION (WCrashed 0)) ∧
       ∀ s', reachable_from s s' → pc s' = RCollect 0 0 0.
Proof.
  exists (crash_blocked 0). split_and?; [|done|].
  - exists (crash_sched ++ [Work 0 false; Main; Main; Main]). reflexivity.
  - intros s' [sched Hr]. by apply crash_blocked_forever in Hr as [t' ->].
Qed.

(** ** The deadline *)

Lemma started_step a s s' :
  started s = true → step a s = Some s' → started s' = true ∧ end_t s' = end_t s.
Proof.
  unfold started. intros Hst Hs.
  destruct (pc s) eqn:Hpc; try done;
    destruct a as [d| |k ok]; simpl in Hs; unfold benchmark, benchmark_worker in Hs;
    rewrite ?Hpc in Hs; case_step Hs; simpl; by rewrite ?Hpc.
Qed.

Lemma started_run s s' :
  started s = true → reachable_from s s' → started s' = true ∧ end_t s' = end_t s.
Proof.
  intros Hst Hr.
  refine (run_invariant (λ s', started s' = true ∧ end_t s' = end_t s) _ s s' Hr _); [|done].
  intros a s1 s2 [Hst1 He1] Hs. destruct (started_step _ _ _ Hst1 Hs) as [? ->]. done.
Qed.

(** C4, as the code has it.  [benchmark(all_files, queue_depth,
    drop_caches)] takes no duration.  The deadline is set once, at line 129,
    to the clock value read there (before any worker is started) plus the
    constant [30.0] seconds; from then on [end_t] keeps that value, and it
    is the [exit_time] of every worker. *)
Theorem deadline_is_clock_plus_30s s s1 s' :
  reachable s → pc s = RDeadline →
  step Main s = Some s1 → reachable_from s1 s' →
  end_t s' = Some (now s + DURATION)%Z ∧
  Forall (λ w, exit_time w = (now s + DURATION)%Z) (workers s').
Proof.
  intros Hr Hpc Hs Hr'. simpl in Hs. unfold benchmark in Hs. rewrite Hpc in Hs.
  simplify_eq.
  destruct (started_run (do_deadline s) s' eq_refl Hr') as [_ He]. simpl in He.
  split; [done|].
  assert (Hinv : inv s').
  { apply inv_reachable. eapply reachable_trans; [|exact Hr'].
    eapply reachable_trans; [exact Hr|]. apply (reachable_from_step Main).
    simpl. unfold benchmark. by rewrite Hpc. }
  eapply Forall_impl; [apply (inv_exit_time _ Hinv)|]. simpl. intros w Hw. congruence.
Qed.

Lemma deadline_is_clock_plus_30s_witness :
  end_t deadline_later = Some (7 + DURATION)%Z ∧
  Forall (λ w, exit_time w = (7 + DURATION)%Z) (workers deadline_later).
Proof.
  apply (deadline_is_clock_plus_30s deadline_state (do_deadline deadline_state)).
  - exists ["a"], 1, 0%Z, [], 7%Z, 0%Z, deadline_sched. reflexivity.
  - reflexivity.
  - reflexivity.
  - exists [Main; Tick 5; Work 0 true; Main]. reflexivity.
Defined.

(** C4 fails on the code: the duration is not a parameter of [benchmark].
    Were it one, every duration could be obtained by some choice of the
    arguments; but no arguments give a deadline one nanosecond after the
    clock reading of line 129. *)
Lemma duration_is_not_an_argument :
  ¬ (∀ duration : Z, ∃ files qd dc, ∀ rs t0 mr s s1,
       reachable_from (init files qd dc rs t0 mr) s → pc s = RDeadline →
       step Main s = Some s1 → end_t s1 = Some (now s + duration)%Z).
Proof.
  intros H. destruct (H 1%Z) as (files & qd & dc & Hd).
  set (s0 := init files qd dc [] 0 0).
  set (s := do_shuffle (if (0 <? dc)%Z then do_drop s0 else set_pc s0 RShuffle)).
  assert (Hnow : now s = 0%Z) by (unfold s; by destruct (0 <? dc)%Z).
  assert (Hpc : pc s = RDeadline) by done.
  assert (Hstep : step Main s = Some (do_deadline s)).
  { simpl. unfold benchmark. by rewrite Hpc. }
  assert (Hreach : reachable_from s0 s).
  { exists [Main; Main]. simpl. unfold benchmark. simpl. unfold s.
    by destruct (0 <? dc)%Z. }
  specialize (Hd _ _ _ _ _ Hreach Hpc Hstep).
  change (Some (now s + DURATION)%Z = Some (now s + 1)%Z) in Hd.
  rewrite Hnow in Hd. unfold DURATION in Hd. simplify_eq.
Qed.

(** ** The deadline check *)

(** C5, as the code has it.  A worker reads the clock at the top of every
    iteration.  If the reading is past [exit_time] it leaves the loop at
    once and takes nothing from the queue.  Every [get] is made by a worker
    whose last reading [t], taken in the same iteration, was within the
    deadline ([t <= exit_time]); the [get] itself returns at the current
    time, which is [t] or later. *)
Theorem deadline_checked_before_each_get a s s' :
  reachable s → step a s = Some s' →
  (∀ i ok w c, a = Work i ok → workers s !! i = Some w → w_at w = WLoop c →
     (exit_time w < now s)%Z →
     workers s' !! i = Some (Worker (exit_time w) (WReport c)) ∧
     path_queue s' = path_queue s ∧ dequeued s' = dequeued s) ∧
  (dequeued s' ≠ dequeued s →
     ∃ i ok w t c tok q,
       a = Work i ok ∧ workers s !! i = Some w ∧ w_at w = WGet t c ∧
       (t ≤ exit_time w)%Z ∧ (t ≤ now s)%Z ∧
       path_queue s = tok :: q ∧ path_queue s' = q ∧
       dequeued s' = dequeued s ++ [(i, tok)]).
Proof.
  intros Hr Hs. pose proof (inv_reachable _ Hr) as Hinv. split.
  - intros i ok w c -> Hw Hat Hlt. simpl in Hs. unfold benchmark_worker in Hs.
    rewrite Hw, Hat in Hs. apply Z.ltb_lt in Hlt. rewrite Hlt in Hs. simplify_eq/=.
    split; [|done]. apply list_lookup_insert_eq. by eapply lookup_lt_Some.
  - intros Hne. destruct a as [d| |i ok]; simpl in Hs.
    + by case_step Hs.
    + unfold benchmark in Hs. by case_step Hs.
    + unfold benchmark_worker in Hs.
      destruct (workers s !! i) as [w|] eqn:Hw; [|done].
      pose proof (Forall_lookup_1 _ _ _ _ (inv_checked _ Hinv) Hw) as Hchk.
      destruct (w_at w) as [c|t c|p t0 c|c|c|c] eqn:Hat; case_step Hs; try done.
      * destruct (Hchk t c Hat). by eexists i, ok, w, t, c, (Some _), _.
      * destruct (Hchk t c Hat). by eexists i, ok, w, t, c, None, _.
Qed.

Lemma deadline_checked_before_each_get_witness :
  let s' := do_get late_state 0 (Some "a") []
              (Worker DURATION (WRead "a" (DURATION + 1) 0)) in
  (∀ i ok w c, Work 0 true = Work i ok → workers late_state !! i = Some w →
     w_at w = WLoop c → (exit_time w < now late_state)%Z →
     workers s' !! i = Some (Worker (exit_time w) (WReport c)) ∧
     path_queue s' = path_queue late_state ∧ dequeued s' = dequeued late_state) ∧
  (dequeued s' ≠ dequeued late_state →
     ∃ i ok w t c tok q,
       Work 0 true = Work i ok ∧ workers late_state !! i = Some w ∧ w_at w = WGet t c ∧
       (t ≤ exit_time w)%Z ∧ (t ≤ now late_state)%Z ∧
       path_queue late_state = tok :: q ∧ path_queue s' = q ∧
       dequeued s' = dequeued late_state ++ [(i, tok)]).
Proof.
  apply (deadline_checked_before_each_get (Work 0 true) late_state).
  - exists ["a"], 1, 0%Z, [], 0%Z, 0%Z, late_sched. reflexivity.
  - reflexivity.
Defined.

(** C5 fails on the code where it says that no work is taken after the
    deadline: the check and the [get] are two statements.  A worker reads
    the clock at 0, within the deadline, and waits in [get()]; the path is
    put one nanosecond after the deadline, and the worker takes it. *)
Lemma get_after_deadline :
  ∃ s s' e,
    reachable_from (init ["a"] 1 0 [] 0 0) s ∧
    end_t s = Some e ∧ (e < now s)%Z ∧
    step (Work 0 true) s = Some s' ∧
    dequeued s' = dequeued s ++ [(0, Some "a")] ∧
    workers s' !! 0 = Some (Worker e (WRead "a" (now s) 0)).
Proof.
  exists late_state, (do_get late_state 0 (Some "a") []
                        (Worker DURATION (WRead "a" (DURATION + 1) 0))), DURATION.
  split_and?; try reflexivity. exists late_sched. vm_compute. reflexivity.
Qed.

(** ** Every statement lowers the measure *)

Lemma shuffle_length rs x : length (shuffle rs x).1 = length x.
Proof. apply Permutation_length, shuffle_Permutation. Qed.

Lemma measure_tick s d : measure (set_now s d) = measure s.
Proof. done. Qed.

Lemma measure_main s s' : inv s → benchmark s = Some s' → measure s' < measure s.
Proof.
  intros Hinv Hs. destruct (inv_spawned _ Hinv) as [Hlen _].
  pose proof (inv_end_t _ Hinv) as Hend.
  unfold benchmark in Hs. unfold measure, rmeasure. unfold spawned, started in *.
  case_step Hs; elim_tests; simpl;
    rewrite ?shuffle_length, ?length_app, ?sum_list_with_snoc; simpl;
    lookup_bounds; try lia.
  unfold wmeasure. simpl. lia.
Qed.

Lemma measure_work i ok s s' : benchmark_worker i ok s = Some s' → measure s' < measure s.
Proof.
  intros Hs. unfold benchmark_worker in Hs. unfold measure.
  destruct (workers s !! i) as [w|] eqn:Hw; [|done].
  destruct (w_at w) eqn:Hat; case_step Hs;
  match goal with |- context [rmeasure ?x] => change (rmeasure x) with (rmeasure s) end;
  generalize (rmeasure s); intros r; simpl;
  match goal with |- context [<[i:=?w']> _] =>
    pose proof (sum_list_with_insert wmeasure _ i w w' Hw) as Hsum end;
  unfold wmeasure in Hsum at 2 4; rewrite Hat in Hsum; simpl in Hsum;
  rewrite ?Heql; simpl; lia.
Qed.

Lemma measure_step a s s' :
  inv s → step a s = Some s' →
  if is_tick a then measure s' = measure s else measure s' < measure s.
Proof.
  intros Hinv Hs. destruct a as [d| |i ok]; simpl in *.
  - by case_step Hs.
  - by apply measure_main.
  - by eapply measure_work.
Qed.

(** No execution runs more statements than [measure] allows. *)
Lemma statements_bounded sched : ∀ s s',
  inv s → run sched s = Some s' → statements sched + measure s' ≤ measure s.
Proof.
  induction sched as [|a sched IH]; simpl; intros s s' Hinv Hr.
  - simplify_eq. unfold statements. simpl. lia.
  - destruct (step a s) as [s1|] eqn:Hs; [|done].
    pose proof (measure_step _ _ _ Hinv Hs) as Hm.
    specialize (IH s1 s' (inv_step _ _ _ Hinv Hs) Hr).
    unfold statements in *. rewrite filter_cons. destruct a; simpl in *; lia.
Qed.

(** ** Nothing stays blocked *)

Lemma sum_list_with_lookup {A} (f : A → nat) (l : list A) i x :
  l !! i = Some x → f x ≤ sum_list_with f l.
Proof. intros Hi. apply sum_list_with_in. by eapply list_elem_of_lookup_2. Qed.

(** Before the parent has put every token, its next statement can run. *)
Lemma main_enabled_before_join s :
  inv s → all_put s = false → is_Some (benchmark s).
Proof.
  intros Hinv Hput. pose proof (inv_end_t _ Hinv) as Hend.
  unfold all_put, started, benchmark in *.
  destruct (pc s); try done; repeat case_match; eauto.
  destruct Hend as (e & ? & _). congruence.
Qed.

(** Once every token is put, a worker waiting in [get()] finds a token:
    for every worker still in the loop there is a stop sentinel left. *)
Lemma get_not_starved s i w t c :
  inv s → all_put s = true →
  workers s !! i = Some w → w_at w = WGet t c → path_queue s ≠ [].
Proof.
  intros Hinv Hput Hw Hat Hnil.
  pose proof (inv_fifo _ Hinv) as Hf. rewrite (inv_enqueued _ Hinv), Hnil, app_nil_r in Hf.
  apply (f_equal nstops) in Hf. rewrite nstops_app, nstops_Some, nstops_None in Hf.
  pose proof (inv_stops _ Hinv) as Hst.
  destruct (inv_spawned _ Hinv) as [Hlen _].
  pose proof (sum_list_with_lookup live _ _ _ Hw) as Hlive.
  unfold live in Hlive at 1. rewrite Hat in Hlive.
  unfold all_put, stops_put, spawned in *. destruct (pc s); try done; lia.
Qed.

Lemma worker_enabled s i w :
  workers s !! i = Some w → terminated w = false →
  (∀ t c, w_at w = WGet t c → path_queue s ≠ []) →
  (∀ p t0 c, w_at w = WRead p t0 c → (t0 + min_read s ≤ now s)%Z) →
  is_Some (benchmark_worker i true s).
Proof.
  intros Hw Hterm Hget Hread. unfold benchmark_worker, terminated in *. rewrite Hw.
  destruct (w_at w) as [c|t c|p t0 c|c|c|c] eqn:Hat; try done.
  - case_match; eauto.
  - specialize (Hget t c eq_refl). destruct (path_queue s) as [|[p|] q]; eauto. done.
  - specialize (Hread p t0 c eq_refl). apply Z.leb_le in Hread. rewrite Hread. eauto.
Qed.

Lemma work_true_ncrashed i s s' :
  benchmark_worker i true s = Some s' → ncrashed s' = ncrashed s.
Proof.
  intros Hs. unfold benchmark_worker in Hs. unfold ncrashed.
  destruct (workers s !! i) as [w|] eqn:Hw; [|done].
  destruct (w_at w) eqn:Hat; case_step Hs; simpl;
  match goal with |- context [<[i:=?w']> _] =>
    pose proof (sum_list_with_insert crashed _ i w w' Hw) as Hsum end;
  unfold crashed in Hsum at 2 4; rewrite Hat in Hsum; simpl in Hsum; lia.
Qed.

Lemma main_ncrashed s s' :
  inv s → benchmark s = Some s' → ncrashed s' = ncrashed s.
Proof.
  intros Hinv Hs. pose proof (inv_end_t _ Hinv) as Hend.
  unfold benchmark in Hs. unfold ncrashed, started in *.
  case_step Hs; simpl; rewrite ?sum_list_with_snoc; try done.
  by destruct Hend as [-> _].
Qed.

(** A worker that has not terminated can run its next statement, at once
    or, if it is in the middle of a read, once the read has had its time. *)
Lemma worker_progress s i w :
  inv s → workers s !! i = Some w → terminated w = false →
  (∀ t c, w_at w = WGet t c → path_queue s ≠ []) →
  ∃ sched s1, (sched = [Work i true] ∨ ∃ d, sched = [Tick d; Work i true]) ∧
              run sched s = Some s1 ∧ measure s1 < measure s ∧
              ncrashed s1 = ncrashed s.
Proof.
  intros Hinv Hw Hterm Hget.
  assert ((∀ p t0 c, w_at w = WRead p t0 c → (t0 + min_read s ≤ now s)%Z) ∨
          (∃ p t0 c, w_at w = WRead p t0 c ∧ (now s < t0 + min_read s)%Z))
    as [Hready|(p & t0 & c & Hat & Hlt)].
  { destruct (w_at w) as [c|t c|p t0 c|c|c|c] eqn:Hat; try by left.
    destruct (decide (t0 + min_read s ≤ now s)%Z).
    - left. intros ???. by intros [= <- <- <-].
    - right. exists p, t0, c. split; [done|lia]. }
  all: swap 1 2.
  - set (d := (t0 + min_read s - now s)%Z).
    destruct (worker_enabled (set_now s (now s + d)) i w) as [s1 Hs1]; try done.
    { simpl. intros p' t0' c' Hat'. rewrite Hat in Hat'. simplify_eq. unfold d. lia. }
    exists [Tick d; Work i true], s1. simpl.
    assert (Hd : (0 <? d)%Z = true) by (apply Z.ltb_lt; unfold d; lia).
    rewrite Hd, Hs1. split_and?; [by eauto|done| |].
    + apply measure_work in Hs1. by rewrite measure_tick in Hs1.
    + by apply work_true_ncrashed in Hs1.
  - destruct (worker_enabled s i w) as [s1 Hs1]; try done.
    exists [Work i true], s1. simpl. rewrite Hs1. split_and?; [by left|done| |].
    + by apply measure_work in Hs1.
    + by apply work_true_ncrashed in Hs1.
Qed.

(** The parent waits in two places only: in [join()] for a worker that
    has not terminated, and in [result_queue.get()] for a count. *)
Lemma main_blocked s :
  inv s → benchmark s = None →
  (∃ total used, pc s = RReturn total used) ∨
  (∃ i st w, pc s = RJoin i st ∧ workers s !! i = Some w ∧ terminated w = false) ∨
  (∃ i acc used, pc s = RCollect i acc used ∧ i < queue_depth s ∧ result_queue s = []).
Proof.
  intros Hinv Hs.
  destruct (all_put s) eqn:Hput.
  - unfold all_put, benchmark in *. destruct (pc s) eqn:Hpc; try done.
    + right; left. case_step Hs. by eexists _, _, _.
    + right; right. case_step Hs. elim_tests. by eexists _, _, _.
    + left. eauto.
  - destruct (main_enabled_before_join _ Hinv Hput) as [s' Hs']. congruence.
Qed.

(** When the parent waits for a count, every worker has terminated. *)
Lemma collecting_all_terminated s i acc used :
  inv s → pc s = RCollect i acc used →
  length (workers s) = queue_depth s ∧
  Forall (λ w, terminated w = true) (workers s).
Proof.
  intros Hinv Hpc. destruct (inv_spawned _ Hinv) as [Hlen _].
  pose proof (inv_joined _ Hinv) as Hj. unfold spawned, joined in *. rewrite Hpc in *.
  split; [done|]. apply Forall_lookup. intros j w Hw. apply (Hj j w); [|done].
  apply lookup_lt_Some in Hw. lia.
Qed.

Lemma exited_terminated ws :
  Forall (λ w, exited w = 1) ws → Forall (λ w, terminated w = true) ws.
Proof.
  intros H. eapply Forall_impl; [exact H|].
  intros [e a]. unfold exited, terminated. simpl. by destruct a.
Qed.

Lemma terminated_not_crashed_exited ws :
  Forall (λ w, terminated w = true) ws → sum_list_with crashed ws = 0 →
  sum_list_with exited ws = length ws.
Proof.
  induction 1 as [|[e a] ws Ha _ IH]; simpl; [done|].
  unfold terminated, crashed, exited in *. simpl in *. destruct a; try done; lia.
Qed.

(** From every reachable state some execution leads to a state in which
    all [queue_depth] workers are started and have terminated. *)
Lemma can_terminate n : ∀ s,
  inv s → measure s ≤ n →
  ∃ s', reachable_from s s' ∧ length (workers s') = queue_depth s' ∧
        Forall (λ w, terminated w = true) (workers s').
Proof.
  induction n as [|n IH]; intros s Hinv Hm.
  all: destruct (benchmark s) as [s1|] eqn:Hmain.
  all: try (pose proof (measure_main _ _ Hinv Hmain) as Hlt).
  1: lia.
  2: { destruct (IH s1) as (s' & Hr & Hok); [by eapply inv_main|lia|].
       exists s'. split; [|done].
       eapply reachable_from_trans; [apply (reachable_from_step Main); exact Hmain|done]. }
  all: destruct (main_blocked _ Hinv Hmain)
         as [(total & used & Hpc)|[(i & st & w & Hpc & Hw & Hterm)|(i & acc & used & Hpc & _)]].
  all: try (exists s; split; [apply reachable_from_refl|];
            first [ destruct (returned_all_exited _ _ _ Hinv Hpc) as (Hall & _ & Hlen & _);
                    split; [done|by apply exited_terminated]
                  | by eapply collecting_all_terminated ]).
  all: destruct (worker_progress s i w Hinv Hw Hterm) as (sched & s1 & _ & Hr1 & Hlt & _);
         [intros t c Hat; eapply get_not_starved; eauto;
          unfold all_put; by rewrite Hpc|].
  - lia.
  - destruct (IH s1) as (s' & Hr & Hok); [by eapply inv_run|lia|].
    exists s'. split; [|done]. eapply reachable_from_trans; [by exists sched|done].
Qed.

(** Unless a read raises, some execution leads to the [return]. *)
Lemma can_return n : ∀ s,
  inv s → measure s ≤ n → ncrashed s = 0 →
  ∃ s' total used, reachable_from s s' ∧ pc s' = RReturn total used.
Proof.
  induction n as [|n IH]; intros s Hinv Hm Hnc.
  all: destruct (benchmark s) as [s1|] eqn:Hmain.
  all: try (pose proof (measure_main _ _ Hinv Hmain) as Hlt).
  1: lia.
  2: { destruct (IH s1) as (s' & total & used & Hr & Hok);
         [by eapply inv_main|lia|by rewrite (main_ncrashed _ _ Hinv Hmain)|].
       exists s', total, used. split; [|done].
       eapply reachable_from_trans; [apply (reachable_from_step Main); exact Hmain|done]. }
  all: destruct (main_blocked _ Hinv Hmain)
         as [(total & used & Hpc)|[(i & st & w & Hpc & Hw & Hterm)|(i & acc & used & Hpc & Hi & Hrq)]].
  all: try (exists s, total, used; split; [apply reachable_from_refl|done]).
  all: try (exfalso;
            destruct (collecting_all_terminated _ _ _ _ Hinv Hpc) as [Hlen Hall];
            pose proof (terminated_not_crashed_exited _ Hall Hnc) as Hex;
            destruct (inv_results _ Hinv) as [Hres _];
            unfold collected in Hres; rewrite Hpc, Hrq in Hres; simpl in Hres; lia).
  all: destruct (worker_progress s i w Hinv Hw Hterm) as (sched & s1 & _ & Hr1 & Hlt & Hnc1);
         [intros t c Hat; eapply get_not_starved; eauto;
          unfold all_put; by rewrite Hpc|].
  - lia.
  - destruct (IH s1) as (s' & total & used & Hr & Hok);
      [by eapply inv_run|lia|congruence|].
    exists s', total, used. split; [|done].
    eapply reachable_from_trans; [by exists sched|done].
Qed.

(** ** Every path is read once *)

Lemma omap_insert_Permutation {A B} (f : A → option B) (l : list A) i x y :
  l !! i = Some x →
  omap f (<[i:=y]> l) ++ option_list (f x) ≡ₚ omap f l ++ option_list (f y).
Proof.
  revert i. induction l as [|a l IH]; intros [|i] Hi; simplify_eq/=.
  - destruct (f x), (f y); simpl; rewrite ?app_nil_r, <- ?Permutation_cons_append;
      try done. apply Permutation_swap.
  - specialize (IH _ Hi). destruct (f a); simpl; [by f_equiv|done].
Qed.

Lemma ncrashed_step a s s' : inv s → step a s = Some s' → ncrashed s ≤ ncrashed s'.
Proof.
  intros Hinv Hs. destruct a as [d| |i ok]; simpl in Hs.
  - by case_step Hs.
  - by rewrite (main_ncrashed _ _ Hinv Hs).
  - unfold benchmark_worker in Hs. unfold ncrashed.
    destruct (workers s !! i) as [w|] eqn:Hw; [|done].
    destruct (w_at w) eqn:Hat; case_step Hs; simpl;
    match goal with |- context [<[i:=?w']> _] =>
      pose proof (sum_list_with_insert crashed _ i w w' Hw) as Hsum end;
    unfold crashed in Hsum at 2 4; rewrite Hat in Hsum; simpl in Hsum; lia.
Qed.

Lemma ncrashed_run sched : ∀ s s', inv s → run sched s = Some s' → ncrashed s ≤ ncrashed s'.
Proof.
  induction sched as [|a sched IH]; simpl; intros s s' Hinv Hr; [by simplify_eq|].
  destruct (step a s) as [s1|] eqn:Hs; [|done].
  pose proof (ncrashed_step _ _ _ Hinv Hs).
  specialize (IH s1 s' (inv_step _ _ _ Hinv Hs) Hr). lia.
Qed.

Lemma omap_snd_snoc (dq : list (nat * token)) i tok :
  omap snd (dq ++ [(i, tok)]) = omap snd dq ++ option_list tok.
Proof. rewrite omap_app. simpl. by destruct tok. Qed.

(** One step: the paths read so far and the paths being read are the
    paths delivered, as long as no read has raised. *)
Lemma reading_step a s s' (R : list Path) :
  inv s → step a s = Some s' → ncrashed s' = 0 →
  R ++ reading s ≡ₚ omap snd (dequeued s) →
  (R ++ (option_list (read_of a s)).*2) ++ reading s' ≡ₚ omap snd (dequeued s').
Proof.
  intros Hinv Hs Hnc HR. pose proof (inv_end_t _ Hinv) as Hend.
  unfold started in Hend. unfold reading in *.
  destruct a as [d| |i ok]; simpl in Hs.
  - case_step Hs. simpl. by rewrite app_nil_r.
  - unfold read_of. simpl. rewrite app_nil_r.
    unfold benchmark in Hs. case_step Hs; simpl; try done.
    + destruct Hend as [Hnil _]. by rewrite Hnil in HR.
    + rewrite omap_app. simpl. by rewrite app_nil_r.
  - unfold benchmark_worker in Hs. unfold read_of.
    destruct (workers s !! i) as [w|] eqn:Hw; [|done].
    destruct (w_at w) as [c|t c|p t0 c|c|c|c] eqn:Hat; case_step Hs; simpl;
      rewrite ?omap_snd_snoc; simpl;
      match goal with |- context [<[i:=?w']> _] =>
        pose proof (omap_insert_Permutation read_now _ i w w' Hw) as Hins;
        pose proof (sum_list_with_insert crashed _ i w w' Hw) as Hsum end;
      unfold read_now in Hins at 2 4; unfold crashed in Hsum at 2 4;
      rewrite Hat in Hins, Hsum; simpl in Hins, Hsum;
      rewrite ?app_nil_r in Hins;
      try (destruct ok; simpl); rewrite ?app_nil_r.
    all: try (by rewrite Hins).
    all: try (rewrite Hins, app_assoc; by f_equiv).
    all: try (rewrite <- app_assoc; simpl; rewrite <- Hins in HR;
              rewrite <- HR; f_equiv; apply Permutation_cons_append).
    all: try (unfold ncrashed in Hnc; simpl in Hnc; lia).
Qed.

Lemma reading_run sched : ∀ s s' (R : list Path),
  inv s → run sched s = Some s' → ncrashed s' = 0 →
  R ++ reading s ≡ₚ omap snd (dequeued s) →
  (R ++ (reads sched s).*2) ++ reading s' ≡ₚ omap snd (dequeued s').
Proof.
  induction sched as [|a sched IH]; simpl; intros s s' R Hinv Hr Hnc HR.
  { simplify_eq. by rewrite app_nil_r. }
  destruct (step a s) as [s1|] eqn:Hs; [|done].
  pose proof (inv_step _ _ _ Hinv Hs) as Hinv1.
  pose proof (ncrashed_run _ _ _ Hinv1 Hr) as Hle.
  pose proof (reading_step a s s1 R Hinv Hs ltac:(lia) HR) as H1.
  specialize (IH s1 s' _ Hinv1 Hr Hnc H1).
  by rewrite fmap_app, app_assoc.
Qed.

(** When [benchmark] returns, the reads completed are of the paths
    delivered, one read for each delivery. *)
Lemma reads_at_return files qd dc rs t0 mr sched s total used :
  run sched (init files qd dc rs t0 mr) = Some s → pc s = RReturn total used →
  (reads sched (init files qd dc rs t0 mr)).*2 ≡ₚ omap snd (dequeued s).
Proof.
  intros Hr Hpc.
  assert (Hinv : inv s) by (eapply inv_run; [apply inv_init|exact Hr]).
  destruct (returned_all_exited _ _ _ Hinv Hpc) as (Hall & _).
  destruct (exited_sums _ Hall) as (_ & _ & _ & Hnc).
  pose proof (reading_run sched _ s [] (inv_init _ _ _ _ _ _) Hr Hnc) as H.
  simpl in H. specialize (H (reflexivity _)).
  assert (Hrd : reading s = []).
  { unfold reading. clear -Hall. induction Hall as [|[e a] ws Ha _ IH]; [done|].
    simpl. unfold exited in Ha. simpl in Ha. unfold read_now at 1. simpl.
    by destruct a. }
  by rewrite Hrd, app_nil_r in H.
Qed.

(** When it returns within the deadline, every path has been delivered. *)
Lemma returned_in_time_delivered s total used :
  reachable s → 1 ≤ queue_depth s → pc s = RReturn total used → in_time s →
  omap snd (dequeued s) = all_files s.
Proof.
  intros Hr Hqd Hpc Hin. pose proof (inv_reachable _ Hr) as Hinv.
  pose proof (returned_in_time_stops _ _ _ Hinv Hpc Hin) as Hst.
  pose proof (returned_in_time_total _ _ _ Hr Hqd Hpc Hin) as Htot.
  destruct (returned_total _ _ _ Hinv Hpc) as (_ & Hnp & _).
  pose proof (inv_fifo _ Hinv) as Hf. rewrite (returned_enqueued _ _ _ Hinv Hpc) in Hf.
  assert (Hpq : path_queue s = []).
  { apply length_zero_iff_nil. apply (f_equal length) in Hf.
    rewrite !length_app, length_replicate, (length_fmap Some) in Hf.
    rewrite (length_tokens (dequeued s).*2) in Hf. lia. }
  rewrite Hpq, app_nil_r in Hf. rewrite omap_snd, Hf.
  by rewrite omap_app, omap_id_fmap_Some, omap_id_replicate_None, app_nil_r.
Qed.

(** The two executions of the two workers taking turns and of worker 0
    taking both paths: the reads completed. *)
Example turn_reads :
  reads turn_sched (init ["a"; "b"] 2 3 [1] 5 0) = [(1, "a"); (0, "b")] ∧
  reads plain_sched (init ["a"; "b"] 2 3 [] 0 0) = [(0, "b"); (0, "a")].
Proof. split; vm_compute; reflexivity. Qed.

(** C8.  Take one path set and run [benchmark] on it twice, the random
    draws of the shuffle (and so the order of [all_files]) being any.  If
    both runs return before the deadline has passed, both return the same
    total, the number of paths supplied; and in each run the reads that the
    workers completed, taken in the order in which they ended, are of the
    paths supplied, each path read as many times as it was supplied: every
    path is read exactly once. *)
Theorem total_independent_of_shuffle files qd dc rs1 rs2 t1 t2 mr1 mr2
    sched1 sched2 s1 s2 total1 used1 total2 used2 :
  1 ≤ qd →
  run sched1 (init files qd dc rs1 t1 mr1) = Some s1 →
  run sched2 (init files qd dc rs2 t2 mr2) = Some s2 →
  pc s1 = RReturn total1 used1 → in_time s1 →
  pc s2 = RReturn total2 used2 → in_time s2 →
  total1 = total2 ∧ total1 = length files ∧
  npaths (dequeued s1).*2 = length files ∧
  (reads sched1 (init files qd dc rs1 t1 mr1)).*2 ≡ₚ files ∧
  (reads sched2 (init files qd dc rs2 t2 mr2)).*2 ≡ₚ files.
Proof.
  intros Hqd Hrun1 Hrun2 Hpc1 Hin1 Hpc2 Hin2.
  assert (Hr1 : reachable_from (init files qd dc rs1 t1 mr1) s1) by (by exists sched1).
  assert (Hr2 : reachable_from (init files qd dc rs2 t2 mr2) s2) by (by exists sched2).
  destruct (run_frame _ _ Hr1) as (Hq1 & _ & _ & Hp1 & _).
  destruct (run_frame _ _ Hr2) as (Hq2 & _ & _ & Hp2 & _). simpl in *.
  apply reachable_init in Hr1 as Hr1'. apply reachable_init in Hr2 as Hr2'.
  pose proof (returned_in_time_total s1 total1 used1 Hr1') as H1.
  pose proof (returned_in_time_total s2 total2 used2 Hr2') as H2.
  rewrite Hq1, (Permutation_length Hp1) in H1.
  rewrite Hq2, (Permutation_length Hp2) in H2.
  destruct (returned_total _ _ used1 (inv_reachable _ Hr1') Hpc1) as (_ & Hd & _).
  specialize (H1 Hqd Hpc1 Hin1). specialize (H2 Hqd Hpc2 Hin2).
  split_and?; [lia|lia|lia| |].
  - rewrite (reads_at_return _ _ _ _ _ _ _ _ _ _ Hrun1 Hpc1).
    rewrite (returned_in_time_delivered _ _ _ Hr1' ltac:(lia) Hpc1 Hin1). done.
  - rewrite (reads_at_return _ _ _ _ _ _ _ _ _ _ Hrun2 Hpc2).
    rewrite (returned_in_time_delivered _ _ _ Hr2' ltac:(lia) Hpc2 Hin2). done.
Qed.

Lemma total_independent_of_shuffle_witness :
  2 = 2 ∧ 2 = length ["a"; "b"] ∧ npaths (dequeued turn_final).*2 = length ["a"; "b"] ∧
  (reads turn_sched (init ["a"; "b"] 2 3 [1] 5 0)).*2 ≡ₚ ["a"; "b"] ∧
  (reads plain_sched (init ["a"; "b"] 2 3 [] 0 0)).*2 ≡ₚ ["a"; "b"].
Proof.
  apply (total_independent_of_shuffle ["a"; "b"] 2 3 [1] [] 5 0 0 0
           turn_sched plain_sched turn_final plain_final 2 0 2 0).
  - lia.
  - vm_compute. reflexivity.
  - vm_compute. reflexivity.
  - reflexivity.
  - intros e He. injection He as <-. vm_compute. discriminate.
  - reflexivity.
  - intros e He. injection He as <-. vm_compute. discriminate.
Defined.

(** ** The two timestamps *)

Lemma clock_ok_step t0 a s s' : clock_ok t0 s → step a s = Some s' → clock_ok t0 s'.
Proof.
  unfold clock_ok. intros [Ht Hpc] Hs.
  destruct a as [d| |i ok]; simpl in Hs; unfold benchmark, benchmark_worker in Hs.
  - case_step Hs. elim_tests. simpl. split; [lia|]. destruct (pc s); lia.
  - destruct (pc s) eqn:Heq; case_step Hs; simpl; rewrite ?Heq; lia.
  - destruct (workers s !! i) as [w|]; [|done].
    destruct (w_at w); case_step Hs; simpl; done.
Qed.

Lemma clock_ok_run files qd dc rs t0 mr s :
  reachable_from (init files qd dc rs t0 mr) s → clock_ok t0 s.
Proof.
  intros Hr. refine (run_invariant (clock_ok t0) _ _ s Hr _).
  - intros a s1 s2. apply clock_ok_step.
  - unfold clock_ok. simpl. lia.
Qed.


Lemma used_t_step a s s' u : used_t s = Some u → step a s = Some s' → used_t s' = Some u.
Proof.
  unfold used_t. intros Hu Hs.
  destruct a as [d| |i ok]; simpl in Hs; unfold benchmark, benchmark_worker in Hs.
  - case_step Hs. done.
  - destruct (pc s) eqn:Hpc; try done; case_step Hs; simpl; by rewrite ?Hpc.
  - destruct (workers s !! i) as [w|]; [|done].
    destruct (w_at w); case_step Hs; simpl; done.
Qed.

Lemma used_t_run sched : ∀ s s' u,
  used_t s = Some u → run sched s = Some s' → used_t s' = Some u.
Proof.
  induction sched as [|a sched IH]; simpl; intros s s' u Hu Hr; [by simplify_eq|].
  destruct (step a s) as [s1|] eqn:Hs; [|done].
  eapply IH; [|done]. by eapply used_t_step.
Qed.

Lemma start_t_step a s s' st :
  start_t s = Some st → step a s = Some s' →
  start_t s' = Some st ∨
  (a = Main ∧ pc s = RStopClock st ∧ used_t s' = Some (now s - st)%Z).
Proof.
  unfold start_t, used_t. intros Hst Hs.
  destruct a as [d| |i ok]; simpl in Hs; unfold benchmark, benchmark_worker in Hs.
  - case_step Hs. by left.
  - destruct (pc s) eqn:Hpc; try done; case_step Hs; simpl; rewrite ?Hpc; auto.
  - left. destruct (workers s !! i) as [w|]; [|done].
    destruct (w_at w); case_step Hs; simpl; done.
Qed.

Lemma before_clock_step a s s' :
  before_clock s = true → step a s = Some s' →
  before_clock s' = true ∨
  (a = Main ∧ pc s = RStartClock ∧ start_t s' = Some (now s)).
Proof.
  unfold before_clock, start_t. intros Hst Hs.
  destruct a as [d| |i ok]; simpl in Hs; unfold benchmark, benchmark_worker in Hs.
  - case_step Hs. by left.
  - destruct (pc s) eqn:Hpc; try done; case_step Hs; simpl; rewrite ?Hpc; auto.
  - left. destruct (workers s !! i) as [w|]; [|done].
    destruct (w_at w); case_step Hs; simpl; done.
Qed.

(** From line 138 to the [return]: the clock is read at line 148, in a
    state [s2], and [used_t] is that reading less [start_t]. *)
Lemma stop_clock_on_the_way sched : ∀ s s' st total used,
  start_t s = Some st → run sched s = Some s' → pc s' = RReturn total used →
  ∃ sched2 sched3 s2,
    sched = sched2 ++ Main :: sched3 ∧ run sched2 s = Some s2 ∧
    pc s2 = RStopClock st ∧ used = (now s2 - st)%Z.
Proof.
  induction sched as [|a sched IH]; simpl; intros s s' st total used Hst Hr Hpc.
  { simplify_eq. unfold start_t in Hst. by rewrite Hpc in Hst. }
  destruct (step a s) as [s1|] eqn:Hs; [|done].
  destruct (start_t_step _ _ _ _ Hst Hs) as [Hst1|(-> & Hpc2 & Hu)].
  - destruct (IH _ _ _ _ _ Hst1 Hr Hpc) as (sched2 & sched3 & s2 & -> & Hr2 & Hpc2 & Hu).
    exists (a :: sched2), sched3, s2. simpl. rewrite Hs. done.
  - exists [], sched, s. split_and?; try done.
    pose proof (used_t_run _ _ _ _ Hu Hr) as Hu'. unfold used_t in Hu'.
    rewrite Hpc in Hu'. by simplify_eq.
Qed.

(** From the call to the [return]: the clock is read at line 138, in a
    state [s1], and then at line 148. *)
Lemma clocks_on_the_way sched : ∀ s s' total used,
  before_clock s = true → run sched s = Some s' → pc s' = RReturn total used →
  ∃ sched1 sched2 sched3 s1 s2,
    sched = sched1 ++ Main :: sched2 ++ Main :: sched3 ∧
    run sched1 s = Some s1 ∧ pc s1 = RStartClock ∧
    run (Main :: sched2) s1 = Some s2 ∧ pc s2 = RStopClock (now s1) ∧
    used = (now s2 - now s1)%Z.
Proof.
  induction sched as [|a sched IH]; simpl; intros s s' total used Hb Hr Hpc.
  { simplify_eq. unfold before_clock in Hb. by rewrite Hpc in Hb. }
  destruct (step a s) as [s1|] eqn:Hs; [|done].
  destruct (before_clock_step _ _ _ Hb Hs) as [Hb1|(-> & Hpc1 & Hst)].
  - destruct (IH _ _ _ _ Hb1 Hr Hpc)
      as (sched1 & sched2 & sched3 & s1' & s2 & -> & Hr1 & Hpc1 & Hr2 & Hpc2 & Hu).
    exists (a :: sched1), sched2, sched3, s1', s2. simpl. rewrite Hs. done.
  - destruct (stop_clock_on_the_way _ _ _ _ _ _ Hst Hr Hpc)
      as (sched2 & sched3 & s2 & -> & Hr2 & Hpc2 & Hu).
    exists [], sched2, sched3, s, s2. simpl in *. rewrite Hs. done.
Qed.

(** C7, as the code has it.  What a call of [benchmark] returns is the
    pair [(completed_count, used_t)].  [completed_count] is the sum of the
    counts of its [queue_depth] workers.  [used_t] is the elapsed wall
    time: the reading of the clock at line 148, taken when every worker
    has ended, less the reading at line 138, [start_t], taken when all
    workers are started and before the first path is put; it is not
    negative and not longer than the call.  Once lines 143-144 are passed,
    and as long as no read raises, the call can run on to its [return].
    The queue depth is not part of the value returned. *)
Theorem returns_total_and_elapsed files qd dc rs t0 mr :
  (∀ sched s total used,
     run sched (init files qd dc rs t0 mr) = Some s → pc s = RReturn total used →
     total = sum_list_with completed (workers s) ∧
     length (workers s) = qd ∧
     (0 ≤ used ≤ now s - t0)%Z ∧
     ∃ sched1 sched2 sched3 s1 s2,
       sched = sched1 ++ Main :: sched2 ++ Main :: sched3 ∧
       run sched1 (init files qd dc rs t0 mr) = Some s1 ∧ pc s1 = RStartClock ∧
       length (workers s1) = qd ∧ enqueued s1 = [] ∧
       run (Main :: sched2) s1 = Some s2 ∧ pc s2 = RStopClock (now s1) ∧
       Forall (λ w, terminated w = true) (workers s2) ∧
       used = (now s2 - now s1)%Z) ∧
  (∀ s, reachable_from (init files qd dc rs t0 mr) s →
     all_put s = true → ncrashed s = 0 →
     ∃ s' total used, reachable_from s s' ∧ pc s' = RReturn total used).
Proof.
  split.
  - intros sched s total used Hrun Hpc.
    assert (Hr : reachable_from (init files qd dc rs t0 mr) s) by (by exists sched).
    pose proof (inv_reachable _ (reachable_init _ _ _ _ _ _ _ Hr)) as Hinv.
    destruct (returned_all_exited _ _ _ Hinv Hpc) as (_ & _ & Hlen & Htot).
    destruct (run_frame _ _ Hr) as (Hqd & _). simpl in Hqd.
    destruct (clock_ok_run _ _ _ _ _ _ _ Hr) as [_ Hc]. rewrite Hpc in Hc.
    split_and?; [done|congruence|lia|lia|].
    destruct (clocks_on_the_way sched (init files qd dc rs t0 mr) s total used
                eq_refl Hrun Hpc)
      as (sched1 & sched2 & sched3 & s1 & s2 & -> & Hr1 & Hpc1 & Hr2 & Hpc2 & Hu).
    assert (Hinv1 : inv s1) by (eapply inv_run; [apply inv_init|exact Hr1]).
    assert (Hinv2 : inv s2) by (eapply inv_run; [exact Hinv1|exact Hr2]).
    assert (Hqd1 : queue_depth s1 = qd).
    { by destruct (run_frame _ _ (ex_intro _ sched1 Hr1)) as (? & _). }
    exists sched1, sched2, sched3, s1, s2. split_and?; try done.
    { destruct (inv_spawned _ Hinv1) as [Hlen1 _]. unfold spawned in Hlen1.
      rewrite Hpc1 in Hlen1. congruence. }
    { rewrite (inv_enqueued _ Hinv1). unfold paths_put, stops_put. by rewrite Hpc1. }
    destruct (inv_spawned _ Hinv2) as [Hlen2 _].
    pose proof (inv_joined _ Hinv2) as Hj. unfold spawned, joined in *. rewrite Hpc2 in *.
    apply Forall_lookup. intros j w Hw. apply (Hj j w); [|done].
    apply lookup_lt_Some in Hw. lia.
  - intros s Hr _ Hnc.
    apply (can_return (measure s)); [|done|done].
    apply inv_reachable. by eapply reachable_init.
Qed.

Lemma returns_total_and_elapsed_witness :
  2 = sum_list_with completed (workers fast_final) ∧
  length (workers fast_final) = 1 ∧
  (0 ≤ 2 ≤ now fast_final - 0)%Z ∧
  ∃ sched1 sched2 sched3 s1 s2,
    fast_sched = sched1 ++ Main :: sched2 ++ Main :: sched3 ∧
    run sched1 (init ["a"; "b"] 1 0 [] 0 1) = Some s1 ∧ pc s1 = RStartClock ∧
    length (workers s1) = 1 ∧ enqueued s1 = [] ∧
    run (Main :: sched2) s1 = Some s2 ∧ pc s2 = RStopClock (now s1) ∧
    Forall (λ w, terminated w = true) (workers s2) ∧
    2%Z = (now s2 - now s1)%Z.
Proof.
  apply (proj1 (returns_total_and_elapsed ["a"; "b"] 1 0 [] 0 1) fast_sched fast_final 2 2%Z).
  - vm_compute. reflexivity.
  - reflexivity.
Defined.

(** C7 fails on the code where it says that the queue depth is returned:
    no function of the value returned gives the queue depth back.  Two
    calls on the same path, one with one worker and one with two, both
    return [(1, 0)]. *)
Lemma queue_depth_not_returned :
  ¬ ∃ depth_of : nat → Z → nat,
      ∀ files qd dc rs t0 mr s total used,
        reachable_from (init files qd dc rs t0 mr) s → pc s = RReturn total used →
        depth_of total used = qd.
Proof.
  intros [depth_of H].
  assert (H1 : reachable_from (init ["a"] 1 0 [] 0 0) depth1_final).
  { exists depth1_sched. vm_compute. reflexivity. }
  assert (H2 : reachable_from (init ["a"] 2 0 [] 0 0) depth2_final).
  { exists depth2_sched. vm_compute. reflexivity. }
  apply H with (total := 1) (used := 0%Z) in H1; [|reflexivity].
  apply H with (total := 1) (used := 0%Z) in H2; [|reflexivity].
  congruence.
Qed.

(** ** One stop sentinel for each worker *)

Lemma stops_enqueued s :
  inv s → nstops (enqueued s) = stops_put s.
Proof.
  intros Hinv. rewrite (inv_enqueued _ Hinv).
  by rewrite nstops_app, nstops_Some, nstops_None.
Qed.

(** When nothing can run any more, every worker has terminated. *)
Lemma settled_all_terminated s :
  inv s → settled s →
  length (workers s) = queue_depth s ∧ Forall (λ w, terminated w = true) (workers s).
Proof.
  intros Hinv Hset.
  destruct (benchmark s) as [s1|] eqn:Hmain.
  { specialize (Hset [Main] s1). simpl in Hset. rewrite Hmain in Hset.
    by specialize (Hset eq_refl). }
  destruct (main_blocked _ Hinv Hmain)
    as [(total & used & Hpc)|[(i & st & w & Hpc & Hw & Hterm)|(i & acc & used & Hpc & _)]].
  - destruct (returned_all_exited _ _ _ Hinv Hpc) as (Hall & _ & Hlen & _).
    split; [done|by apply exited_terminated].
  - destruct (worker_progress s i w Hinv Hw Hterm) as (sched & s1 & Hsh & Hrun & _).
    { intros t c Hat. eapply get_not_starved; eauto. unfold all_put. by rewrite Hpc. }
    specialize (Hset sched s1 Hrun). by destruct Hsh as [->|[d ->]].
  - by eapply collecting_all_terminated.
Qed.

(** C6.  Once the parent has finished putting, the stop sentinels put on
    [path_queue] are as many as the workers started, [queue_depth] (before
    that, fewer).  This is what lets every worker terminate, whatever the
    clock says.  A worker that has not terminated can run its next
    statement, at once or after the time its read needs, unless it waits in
    [get()] on an empty queue; and then the parent still has tokens to put
    and its next statement can run.  No execution runs more than
    [measure s] statements.  So every execution comes to a state from which
    only time passes, and in such a state all [queue_depth] workers are
    started and have terminated; and such a state can be reached. *)
Theorem one_stop_per_worker_terminates_all s :
  reachable s →
  nstops (enqueued s) ≤ queue_depth s ∧
  (all_put s = true →
     nstops (enqueued s) = length (workers s) ∧ length (workers s) = queue_depth s) ∧
  (∀ i w, workers s !! i = Some w → terminated w = false →
     (∃ sched s1, (sched = [Work i true] ∨ ∃ d, sched = [Tick d; Work i true]) ∧
                  run sched s = Some s1) ∨
     (∃ t c, w_at w = WGet t c ∧ path_queue s = [] ∧
             all_put s = false ∧ is_Some (step Main s))) ∧
  (∀ sched s', run sched s = Some s' → statements sched ≤ measure s) ∧
  (settled s →
     length (workers s) = queue_depth s ∧
     Forall (λ w, terminated w = true) (workers s)) ∧
  (∃ s', reachable_from s s' ∧ length (workers s') = queue_depth s' ∧
         Forall (λ w, terminated w = true) (workers s')).
Proof.
  intros Hr. pose proof (inv_reachable _ Hr) as Hinv.
  pose proof (stops_enqueued _ Hinv) as Hst.
  destruct (inv_spawned _ Hinv) as [Hlen _].
  destruct (inv_bounds _ Hinv) as (_ & Hsp & _).
  split_and?.
  - lia.
  - intros Hput. unfold all_put, stops_put, spawned in *. destruct (pc s); try done; lia.
  - intros i w Hw Hterm.
    destruct (decide (path_queue s = [])) as [Hnil|Hne]; [destruct (w_at w) eqn:Hat|].
    2: { right. destruct (all_put s) eqn:Hput.
         - by destruct (get_not_starved _ _ _ _ _ Hinv Hput Hw Hat).
         - eexists _, _. split_and?; try done. by apply main_enabled_before_join. }
    all: left;
      destruct (worker_progress s i w Hinv Hw Hterm) as (sched & s1 & Hsh & Hrun & _);
      [intros ??; congruence|by exists sched, s1].
  - intros sched s' Hrun. pose proof (statements_bounded _ _ _ Hinv Hrun). lia.
  - by apply settled_all_terminated.
  - by apply (can_terminate (measure s)).
Qed.

Lemma one_stop_per_worker_terminates_all_witness :
  nstops (enqueued late_state) ≤ queue_depth late_state ∧
  (∀ sched s', run sched late_state = Some s' → statements sched ≤ measure late_state) ∧
  (∃ s', reachable_from late_state s' ∧ length (workers s') = queue_depth s' ∧
         Forall (λ w, terminated w = true) (workers s')).
Proof.
  assert (Hr : reachable late_state).
  { exists ["a"], 1, 0%Z, [], 0%Z, 0%Z, late_sched. vm_compute. reflexivity. }
  pose proof (one_stop_per_worker_terminates_all late_state Hr)
    as (Hle & _ & _ & Hbound & _ & Hend).
  split_and?; [exact Hle|exact Hbound|exact Hend].
Defined.

(** ** Reads slower than the duration *)






(** The bound wants reads slower than the duration; that they take time
    is not enough.  With two paths, one worker and reads of one nanosecond,
    [benchmark] returns a total of 2. *)
Example one_worker_reads_two :
  ∃ s used, reachable_from (init ["a"; "b"] 1 0 [] 0 1) s ∧
            queue_depth s = 1 ∧ (0 < min_read s)%Z ∧ pc s = RReturn 2 used.
Proof.
  exists fast_final, 2%Z. split_and?; try reflexivity.
  exists fast_sched. vm_compute. reflexivity.
Qed.

(** ** The caller's list *)

Lemma shuffled_step files rs a s s' :
  (all_files s, rng s) = (if shuffled s then shuffle rs files else (files, rs)) →
  step a s = Some s' →
  (all_files s', rng s') = (if shuffled s' then shuffle rs files else (files, rs)).
Proof.
  unfold shuffled. intros Hsh Hs.
  destruct a as [d| |i ok]; simpl in Hs; unfold benchmark, benchmark_worker in Hs.
  - by case_step Hs.
  - destruct (pc s) eqn:Hpc; case_step Hs; simpl; try done.
    by destruct (shuffle _ _).
  - destruct (workers s !! i) as [w|]; [|done].
    destruct (w_at w); case_step Hs; simpl; done.
Qed.

Lemma shuffled_run files qd dc rs t0 mr s :
  reachable_from (init files qd dc rs t0 mr) s →
  (all_files s, rng s) = (if shuffled s then shuffle rs files else (files, rs)).
Proof.
  intros Hr.
  refine (run_invariant (λ s, (all_files s, rng s) = _) _ _ s Hr _); [|done].
  intros a s1 s2. apply shuffled_step.
Qed.

Lemma shuffle_n_Permutation n : ∀ rs x, (shuffle_n n rs x).1 ≡ₚ x.
Proof.
  induction n as [|n IH]; intros rs x; simpl; [done|].
  rewrite IH. apply shuffle_Permutation.
Qed.

Lemma calls_shuffle_n dc mr qds l rs t l' rs' :
  calls dc mr qds l rs t l' rs' → (l', rs') = shuffle_n (length qds) rs l.
Proof.
  induction 1 as [|qd qds l rs t s total used t' l' rs' Hr Hpc _ _ IH]; simpl; [done|].
  apply shuffled_run in Hr. unfold shuffled in Hr. rewrite Hpc in Hr.
  rewrite IH. destruct (shuffle rs l). by simplify_eq/=.
Qed.

(** C10.  [benchmark] reorders the caller's list in place and does
    nothing else to it.  In every state of a call the list holds the paths
    it held before the call, as many times each (a permutation); from the
    shuffle of line 127 on, and so after the call, it is the shuffled list,
    in the order in which the paths are enqueued.  A caller that calls
    again with the same list, as [main] does for the queue depths 1, 8 and
    64, starts each call from the order the call before left: after the
    calls the list is the original one shuffled once for each call, still
    a permutation of the original. *)
Theorem benchmark_permutes_callers_list files qd dc rs t0 mr s :
  reachable_from (init files qd dc rs t0 mr) s →
  all_files s ≡ₚ files ∧
  all_files s = (if shuffled s then (shuffle rs files).1 else files) ∧
  enqueued s = (Some <$> take (paths_put s) (all_files s))
               ++ replicate (stops_put s) None ∧
  (∀ qds l' rs', calls dc mr qds files rs t0 l' rs' →
     l' = (shuffle_n (length qds) rs files).1 ∧ l' ≡ₚ files).
Proof.
  intros Hr. destruct (run_frame _ _ Hr) as (_ & _ & _ & Hperm & _). simpl in Hperm.
  pose proof (shuffled_run _ _ _ _ _ _ _ Hr) as Hsh.
  split_and?; [done| | |].
  - destruct (shuffled s); [destruct (shuffle rs files)|]; by simplify_eq/=.
  - apply inv_enqueued, inv_reachable. by eapply reachable_init.
  - intros qds l' rs' Hc. apply calls_shuffle_n in Hc.
    split; [by rewrite <- Hc|]. replace l' with (shuffle_n (length qds) rs files).1.
    + apply shuffle_n_Permutation.
    + by rewrite <- Hc.
Qed.

Lemma benchmark_permutes_callers_list_witness :
  all_files fast_final ≡ₚ ["a"; "b"] ∧
  all_files fast_final = ["b"; "a"] ∧
  enqueued fast_final = [Some "b"; Some "a"; None] ∧
  (∀ qds l' rs', calls 0 1 qds ["a"; "b"] [] 0 l' rs' →
     l' = (shuffle_n (length qds) [] ["a"; "b"]).1 ∧ l' ≡ₚ ["a"; "b"]).
Proof.
  apply (benchmark_permutes_callers_list ["a"; "b"] 1 0 [] 0 1 fast_final).
  exists fast_sched. vm_compute. reflexivity.
Defined.

(** For [main]: after its three calls the list has been shuffled three
    times. *)
Corollary main_calls_permute mr l rs t l' rs' :
  main_calls mr l rs t l' rs' →
  l' = (shuffle_n 3 rs l).1 ∧ l' ≡ₚ l.
Proof.
  intros Hc. apply calls_shuffle_n in Hc.
  change (length [1; 8; 64]) with 3 in Hc.
  assert (l' = (shuffle_n 3 rs l).1) as -> by (by rewrite <- Hc).
  split; [done|apply shuffle_n_Permutation].
Qed.

(** * More about [benchmark] *)

(** ** The command that drops the caches *)

Lemma cache_drops_step dc a s s' :
  drop_caches s = dc ∧
    cache_drops s = (if dropped s && (0 <? dc)%Z then [dc] else []) →
  step a s = Some s' →
  drop_caches s' = dc ∧
    cache_drops s' = (if dropped s' && (0 <? dc)%Z then [dc] else []).
Proof.
  intros [<- Hcd] Hs. unfold dropped in *.
  destruct a as [d| |i ok]; simpl in Hs; unfold benchmark, benchmark_worker in Hs;
    case_step Hs; simpl in *; rewrite ?Hcd; try done.
  all: try (by match goal with H : (0 <? _)%Z = _ |- _ => rewrite H end).
Qed.

(** X1.  The command of lines 123-124.  In every state of a call
    [benchmark(files, qd, dc)]: as long as line 124 is not passed, no
    command has been run; from then on, the command
    [echo dc > /proc/sys/vm/drop_caches] has been run once if [dc > 0], and
    none has if [dc <= 0]; no later statement runs one.  Whether the
    command wrote to [drop_caches] the program does not know: its exit
    status is not looked at. *)
Theorem drop_caches_command_run_once_iff_positive files qd dc rs t0 mr s :
  reachable_from (init files qd dc rs t0 mr) s →
  cache_drops s = if dropped s && (0 <? dc)%Z then [dc] else [].
Proof.
  intros Hr.
  refine (proj2 (run_invariant (λ s, drop_caches s = dc ∧ _) _ _ s Hr _)).
  - intros a s1 s2. apply cache_drops_step.
  - done.
Qed.

Lemma drop_caches_command_run_once_iff_positive_witness :
  cache_drops turn_final = [3%Z].
Proof.
  apply (drop_caches_command_run_once_iff_positive ["a"; "b"] 2 3 [1] 5 0 turn_final).
  exists turn_sched. vm_compute. reflexivity.
Defined.

(** ** No worker, no path *)

Lemma crashed_le_uncounted ws : sum_list_with crashed ws ≤ sum_list_with uncounted ws.
Proof.
  induction ws as [|[e a] ws IH]; simpl; [done|].
  change (crashed (Worker e a) + sum_list_with crashed ws
          ≤ uncounted (Worker e a) + sum_list_with uncounted ws).
  assert (crashed (Worker e a) ≤ uncounted (Worker e a)); [|lia].
  unfold crashed, uncounted; simpl. destruct a; lia.
Qed.

Lemma sum_list_with_0 {A} (f : A → nat) (l : list A) :
  sum_list_with f l = 0 → Forall (λ x, f x = 0) l.
Proof.
  induction l as [|x l IH]; simpl; intros H; constructor; [lia|apply IH; lia].
Qed.

(** X2.  [queue_depth = 0].  No worker is started and no token is ever
    taken from [path_queue]: what the parent has put is still there.  If
    the call returns, it returns the total 0, with every path left on
    [path_queue].  With no worker to take the paths, line 144 is passed
    only if they fit in the pipe (see the conventions); once it is passed,
    the call can run on to its [return]. *)
Theorem queue_depth_zero_reads_nothing files dc rs t0 mr s :
  reachable_from (init files 0 dc rs t0 mr) s →
  workers s = [] ∧ dequeued s = [] ∧ path_queue s = enqueued s ∧
  (∀ total used, pc s = RReturn total used →
     total = 0 ∧ path_queue s = Some <$> all_files s) ∧
  (all_put s = true → ∃ s' used, reachable_from s s' ∧ pc s' = RReturn 0 used).
Proof.
  intros Hr.
  pose proof (reachable_init _ _ _ _ _ _ _ Hr) as Hrs.
  pose proof (inv_reachable _ Hrs) as Hinv.
  destruct (run_frame _ _ Hr) as (Hqd & _). simpl in Hqd.
  destruct (inv_spawned _ Hinv) as [Hlen Hsp]. rewrite Hqd in Hsp.
  assert (Hws : workers s = []) by (apply length_zero_iff_nil; lia).
  pose proof (inv_reads _ Hinv) as Hrd. pose proof (inv_stops _ Hinv) as Hst.
  rewrite Hws in Hrd, Hst. simpl in Hrd, Hst.
  assert (Hdq : dequeued s = []).
  { apply (fmap_nil_inv snd), length_zero_iff_nil. rewrite length_tokens. lia. }
  assert (Hret : ∀ s1 total used, reachable s1 → workers s1 = [] →
            pc s1 = RReturn total used → total = 0).
  { intros s1 total used Hr1 Hws1 Hpc.
    destruct (returned_all_exited _ _ _ (inv_reachable _ Hr1) Hpc) as (_ & _ & _ & ->).
    by rewrite Hws1. }
  pose proof (inv_fifo _ Hinv) as Hf. rewrite Hdq in Hf. simpl in Hf.
  split_and?; [done|done|done| |].
  - intros total used Hpc. split; [by eapply Hret|].
    rewrite Hf, (returned_enqueued _ _ _ Hinv Hpc), Hqd. simpl.
    by rewrite app_nil_r.
  - intros _. destruct (can_return _ _ Hinv (le_n _)) as (s' & total & used & Hr' & Hpc).
    { unfold ncrashed. by rewrite Hws. }
    exists s', used. split; [done|].
    pose proof (reachable_from_trans _ _ _ Hr Hr') as Hr0.
    pose proof (reachable_init _ _ _ _ _ _ _ Hr0) as Hrs'.
    pose proof (inv_reachable _ Hrs') as Hinv'.
    destruct (run_frame _ _ Hr0) as (Hqd' & _). simpl in Hqd'.
    destruct (inv_spawned _ Hinv') as [Hlen' Hsp']. rewrite Hqd' in Hsp'.
    rewrite (Hret s' total used) in Hpc; try done.
    apply length_zero_iff_nil; lia.
Qed.

Lemma queue_depth_zero_reads_nothing_witness :
  path_queue depth0_joining = [Some "a"] ∧
  ∃ s' used, reachable_from depth0_joining s' ∧ pc s' = RReturn 0 used.
Proof.
  destruct (queue_depth_zero_reads_nothing ["a"] 0 [] 0 0 depth0_joining)
    as (_ & _ & Hq & _ & Hret).
  - exists depth0_sched. vm_compute. reflexivity.
  - split; [exact Hq|]. apply Hret. reflexivity.
Defined.

(** X3.  An empty list of paths.  No worker counts a read and no read
    raises, so that the call, whatever the queue depth, can always run on
    to its [return]; the total returned is 0. *)
Theorem empty_path_list_returns_zero qd dc rs t0 mr s :
  reachable_from (init [] qd dc rs t0 mr) s →
  all_files s = [] ∧
  Forall (λ w, completed w = 0 ∧ crashed w = 0) (workers s) ∧
  (∀ total used, pc s = RReturn total used → total = 0) ∧
  (∃ s' used, reachable_from s s' ∧ pc s' = RReturn 0 used).
Proof.
  assert (Hall : ∀ s, reachable_from (init [] qd dc rs t0 mr) s →
            all_files s = [] ∧ inv s ∧
            sum_list_with completed (workers s) = 0 ∧ ncrashed s = 0).
  { intros s1 Hr.
    pose proof (inv_reachable _ (reachable_init _ _ _ _ _ _ _ Hr)) as Hinv.
    destruct (run_frame _ _ Hr) as (_ & _ & _ & Hperm & _). simpl in Hperm.
    apply Permutation_nil_r in Hperm.
    pose proof (dequeued_le_files _ Hinv) as Hle. rewrite Hperm in Hle. simpl in Hle.
    pose proof (inv_reads _ Hinv) as Hrd.
    pose proof (crashed_le_uncounted (workers s1)).
    unfold ncrashed. split_and?; [done|done|lia|lia]. }
  intros Hr. destruct (Hall s Hr) as (Hf & Hinv & Hc & Hnc).
  split_and?; [done| | |].
  - apply sum_list_with_0 in Hc. apply sum_list_with_0 in Hnc.
    apply Forall_and. by split.
  - intros total used Hpc.
    destruct (returned_all_exited _ _ _ Hinv Hpc) as (_ & _ & _ & ->). done.
  - destruct (can_return _ _ Hinv (le_n _) Hnc) as (s' & total & used & Hr' & Hpc).
    exists s', used. split; [done|].
    destruct (Hall s' (reachable_from_trans _ _ _ Hr Hr')) as (_ & Hinv' & Hc' & _).
    destruct (returned_all_exited _ _ _ Hinv' Hpc) as (_ & _ & _ & Htot).
    by rewrite Htot, Hc' in Hpc.
Qed.

Lemma empty_path_list_returns_zero_witness :
  ∃ s' used, reachable_from (init [] 1 0 [] 0 0) s' ∧ pc s' = RReturn 0 used.
Proof.
  apply (empty_path_list_returns_zero 1 0 [] 0 0 (init [] 1 0 [] 0 0)).
  exists []. reflexivity.
Defined.

(** ** The count of a worker *)

Lemma count_kept_refl w : count_kept w w.
Proof. unfold count_kept. auto with lia. Qed.

Lemma count_kept_trans w1 w2 w3 : count_kept w1 w2 → count_kept w2 w3 → count_kept w1 w3.
Proof.
  intros (He1 & Hc1 & Hl1 & Ht1) (He2 & Hc2 & Hl2 & Ht2).
  unfold count_kept. split_and?; [congruence|lia| |].
  - intros Hl. destruct (Hl1 Hl) as [Hl' Hc']. destruct (Hl2 Hl') as [? ?].
    split; [done|congruence].
  - intros Ht. rewrite (Ht1 Ht) in *. auto.
Qed.

Lemma count_kept_step a s s' i w :
  inv s → step a s = Some s' → workers s !! i = Some w →
  ∃ w', workers s' !! i = Some w' ∧ count_kept w w'.
Proof.
  intros Hinv Hs Hw.
  assert (Hsame : ∃ w', Some w = Some w' ∧ count_kept w w').
  { exists w. split; [done|apply count_kept_refl]. }
  pose proof (inv_end_t _ Hinv) as Hend. unfold started in Hend.
  destruct a as [d| |j ok]; simpl in Hs.
  - case_step Hs. simpl. by rewrite Hw.
  - unfold benchmark in Hs. case_step Hs; simpl; rewrite ?Hw; try done.
    + destruct Hend as [Hnil _]. by rewrite Hnil in Hw.
    + rewrite lookup_app_l by (by eapply lookup_lt_Some). by rewrite Hw.
  - unfold benchmark_worker in Hs.
    destruct (workers s !! j) as [w0|] eqn:Hw0; [|done].
    destruct (decide (j = i)) as [->|Hne].
    2: { assert (workers s' !! i = Some w) as ->; [|done].
         case_step Hs; simpl; by rewrite list_lookup_insert_ne. }
    assert (w0 = w) as -> by congruence.
    pose proof (lookup_lt_Some _ _ _ Hw) as Hlt.
    destruct w as [e p]. simpl in *.
    destruct p; case_step Hs; simpl; rewrite list_lookup_insert_eq by done;
      eexists; (split; [done|]); unfold count_kept; unfold_count;
      split_and?; auto with lia; done.
Qed.

(** X4.  [completed_count] of a worker, from any reachable state to any
    later one: the worker is still in the table, with the deadline it was
    started with; its count has not gone down; once the worker has left
    the loop its count stays as it is, and once the process has ended
    nothing of it changes. *)
Theorem worker_count_monotone_then_frozen s s' i w :
  reachable s → reachable_from s s' → workers s !! i = Some w →
  ∃ w', workers s' !! i = Some w' ∧ count_kept w w'.
Proof.
  intros Hr [sched Hrun] Hw. apply inv_reachable in Hr. revert s w Hr Hrun Hw.
  induction sched as [|a sched IH]; simpl; intros s w Hinv Hrun Hw.
  { simplify_eq. exists w. split; [done|apply count_kept_refl]. }
  destruct (step a s) as [s1|] eqn:Hs; [|done].
  destruct (count_kept_step _ _ _ _ _ Hinv Hs Hw) as (w1 & Hw1 & Hk1).
  destruct (IH s1 w1 (inv_step _ _ _ Hinv Hs) Hrun Hw1) as (w' & Hw' & Hk).
  exists w'. split; [done|by eapply count_kept_trans].
Qed.

Lemma worker_count_monotone_then_frozen_witness :
  ∃ w', workers fast_final !! 0 = Some w' ∧
        count_kept (Worker DURATION (WLoop 1)) w'.
Proof.
  apply (worker_count_monotone_then_frozen
           (State 1 1 [] [] ["b"; "a"] 1 0 [Some "a"; None] [] (Some DURATION)
              [Worker DURATION (WLoop 1)] (RJoin 0 0)
              [Some "b"; Some "a"; None] [(0, Some "b")])
           fast_final 0).
  - exists ["a"; "b"], 1, 0%Z, [], 0%Z, 1%Z, (take 15 fast_sched). vm_compute. reflexivity.
  - exists (drop 15 fast_sched). vm_compute. reflexivity.
  - reflexivity.
Defined.

(** ** The stop sentinel of a worker *)

Lemma stops_by_snoc i dq j tok :
  stops_by i (dq ++ [(j, tok)]) =
  stops_by i dq + (if decide (j = i) then is_stop tok else 0).
Proof. unfold stops_by. by rewrite sum_list_with_snoc. Qed.

Lemma stops_by_step a s s' :
  inv s → stop_taken_on_leaving s → step a s = Some s' → stop_taken_on_leaving s'.
Proof.
  intros Hinv (Hin & Hout) Hs.
  pose proof (inv_end_t _ Hinv) as Hend. unfold started in Hend.
  pose proof (inv_exit_time _ Hinv) as Hex.
  destruct a as [d| |j ok]; simpl in Hs.
  - case_step Hs. elim_tests. split; [|done]. simpl. intros i w Hw.
    destruct (Hin i w Hw) as [Hle Heq]. split; [done|].
    intros Ht. apply Heq. intros e He. specialize (Ht e He). simpl in Ht. lia.
  - unfold benchmark in Hs. case_step Hs; simpl; try done.
    + split; [by intros ???|]. simpl. intros k _. apply Hout.
      destruct Hend as [-> _]. simpl. lia.
    + split; simpl.
      * intros k w Hw. apply lookup_app_Some in Hw as [Hw|[Hge Hw]]; [by apply Hin|].
        apply list_lookup_singleton_Some in Hw as [_ <-].
        rewrite (Hout k Hge). unfold left_loop. simpl. auto with lia.
      * intros k Hk. rewrite length_app in Hk. simpl in Hk. apply Hout. lia.
  - unfold benchmark_worker in Hs.
    destruct (workers s !! j) as [w0|] eqn:Hw0; [|done].
    pose proof (lookup_lt_Some _ _ _ Hw0) as Hlt.
    pose proof (Forall_lookup_1 _ _ _ _ Hex Hw0) as Hexw.
    destruct (Hin j w0 Hw0) as [Hle0 Heq0].
    destruct w0 as [e p]. simpl in *.
    destruct p; case_step Hs; elim_tests; simpl;
      (split; simpl; rewrite ?length_insert;
       [intros k w Hw; rewrite ?stops_by_snoc
       |intros k Hk; rewrite ?stops_by_snoc, ?(Hout k Hk);
        try (rewrite decide_False by lia); done]).
    all: destruct (decide (j = k)) as [->|Hne];
      [rewrite list_lookup_insert_eq in Hw by done; simplify_eq
      |rewrite list_lookup_insert_ne in Hw by done;
       destruct (Hin k w Hw); simpl; rewrite ?Nat.add_0_r; done].
    all: unfold left_loop in *; simpl in *; unfold in_time in *; simpl in *.
    all: try (split; [lia|intros Ht; specialize (Heq0 Ht); lia]).
    split; [lia|]. intros Ht. specialize (Ht _ Hexw). lia.
Qed.

Lemma stops_by_run files qd dc rs t0 mr s :
  reachable_from (init files qd dc rs t0 mr) s → stop_taken_on_leaving s.
Proof.
  intros Hr.
  refine (proj2 (run_invariant (λ s, inv s ∧ stop_taken_on_leaving s) _ _ s Hr _)).
  - intros a s1 s2 [Hinv Hst] Hs. split; [by eapply inv_step|by eapply stops_by_step].
  - split; [apply inv_init|]. by split.
Qed.

Lemma left_loop_le_1 w : left_loop w ≤ 1.
Proof. unfold left_loop. destruct (w_at w); lia. Qed.

(** X5.  The stop sentinels of line 142.  No worker takes more than one;
    a worker that has taken one has left the loop; and when [benchmark]
    returns with the deadline not passed, each of the [queue_depth]
    workers has taken exactly one. *)
Theorem each_worker_takes_at_most_one_stop files qd dc rs t0 mr s :
  reachable_from (init files qd dc rs t0 mr) s →
  (∀ i, stops_by i (dequeued s) ≤ 1) ∧
  (∀ i w, workers s !! i = Some w →
     stops_by i (dequeued s) = 1 → left_loop w = 1) ∧
  (∀ total used, pc s = RReturn total used → in_time s →
     ∀ i, i < qd → stops_by i (dequeued s) = 1).
Proof.
  intros Hr. destruct (stops_by_run _ _ _ _ _ _ _ Hr) as [Hin Hout].
  pose proof (inv_reachable _ (reachable_init _ _ _ _ _ _ _ Hr)) as Hinv.
  destruct (run_frame _ _ Hr) as (Hqd & _). simpl in Hqd.
  split_and?.
  - intros i. destruct (workers s !! i) as [w|] eqn:Hw.
    + destruct (Hin i w Hw) as [Hle _]. pose proof (left_loop_le_1 w). lia.
    + apply lookup_ge_None in Hw. rewrite (Hout i Hw). lia.
  - intros i w Hw H1. destruct (Hin i w Hw) as [Hle _].
    pose proof (left_loop_le_1 w). lia.
  - intros total used Hpc Ht i Hi.
    destruct (returned_all_exited _ _ _ Hinv Hpc) as (Hall & _ & Hlen & _).
    destruct (lookup_lt_is_Some_2 (workers s) i) as [w Hw]; [lia|].
    destruct (Hin i w Hw) as [_ Heq]. rewrite (Heq Ht).
    pose proof (Forall_lookup_1 _ _ _ _ Hall Hw) as Hex.
    unfold exited, left_loop in *. by destruct (w_at w).
Qed.

Lemma each_worker_takes_at_most_one_stop_witness :
  (∀ i, stops_by i (dequeued turn_final) ≤ 1) ∧
  (∀ i w, workers turn_final !! i = Some w →
     stops_by i (dequeued turn_final) = 1 → left_loop w = 1) ∧
  (∀ total used, pc turn_final = RReturn total used → in_time turn_final →
     ∀ i, i < 2 → stops_by i (dequeued turn_final) = 1).
Proof.
  apply (each_worker_takes_at_most_one_stop ["a"; "b"] 2 3 [1] 5 0 turn_final).
  exists turn_sched. vm_compute. reflexivity.
Defined.

(** ** Where the parent waits *)

(** X6.  Where [benchmark] can wait for ever once lines 143-144 are
    passed.  When the parent waits in [result_queue.get()] (line 151) on an
    empty queue, some worker has died in a read.  So a state past line 144
    in which no process has a statement left to run is the [return], or
    some read has raised; and from a state past line 144, as long as no
    read has raised, the [return] can be reached.  (At line 144 itself the
    parent can stay for another reason, a pipe that is full: see the
    conventions.) *)
Theorem parent_waits_for_count_only_after_crash s :
  reachable s →
  (∀ i acc used, pc s = RCollect i acc used → benchmark s = None →
     0 < ncrashed s) ∧
  (all_put s = true → settled s →
     (∃ total used, pc s = RReturn total used) ∨ 0 < ncrashed s) ∧
  (all_put s = true → ncrashed s = 0 →
     ∃ s' total used, reachable_from s s' ∧ pc s' = RReturn total used).
Proof.
  intros Hr. pose proof (inv_reachable _ Hr) as Hinv.
  assert (Hcol : ∀ i acc used, pc s = RCollect i acc used → benchmark s = None →
            0 < ncrashed s).
  { intros i acc used Hpc Hb.
    destruct (main_blocked _ Hinv Hb)
      as [(? & ? & ?)|[(? & ? & ? & ? & _)|(i' & acc' & used' & Hpc' & Hi & Hrq)]];
      try congruence.
    destruct (collecting_all_terminated _ _ _ _ Hinv Hpc) as [Hlen Hall].
    destruct (decide (ncrashed s = 0)) as [Hnc|]; [|lia]. exfalso.
    pose proof (terminated_not_crashed_exited _ Hall Hnc) as Hex.
    destruct (inv_results _ Hinv) as [Hres _].
    unfold collected in Hres. rewrite Hpc', Hrq in Hres. simpl in Hres. lia. }
  split_and?; [done| |].
  - intros _ Hset.
    destruct (benchmark s) as [s1|] eqn:Hmain.
    { specialize (Hset [Main] s1). simpl in Hset. rewrite Hmain in Hset.
      by specialize (Hset eq_refl). }
    destruct (main_blocked _ Hinv Hmain)
      as [(total & used & Hpc)|[(i & st & w & Hpc & Hw & Hterm)|(i & acc & used & Hpc & _)]].
    + left. eauto.
    + destruct (worker_progress s i w Hinv Hw Hterm) as (sched & s1 & Hsh & Hrun & _).
      { intros t c Hat. eapply get_not_starved; eauto. unfold all_put. by rewrite Hpc. }
      specialize (Hset sched s1 Hrun). by destruct Hsh as [->|[d ->]].
    + right. by eapply Hcol.
  - intros _ Hnc. by apply (can_return (measure s)).
Qed.

Lemma parent_waits_for_count_only_after_crash_witness :
  benchmark (crash_blocked 0) = None ∧
  (∀ i acc used, pc (crash_blocked 0) = RCollect i acc used →
     benchmark (crash_blocked 0) = None → 0 < ncrashed (crash_blocked 0)).
Proof.
  split; [reflexivity|].
  apply (parent_waits_for_count_only_after_crash (crash_blocked 0)).
  exists ["a"], 1, 0%Z, [], 0%Z, 0%Z, (crash_sched ++ [Work 0 false; Main; Main; Main]).
  vm_compute. reflexivity.
Defined.

(** ** The measured window *)

Lemma window_step a s s' : inv s → window s → step a s = Some s' → window s'.
Proof.
  intros Hinv Hwin Hs. pose proof (inv_end_t _ Hinv) as Hend.
  destruct (inv_spawned _ Hinv) as [Hlen _].
  unfold window, start_t, started, spawned in *.
  destruct a as [d| |j ok]; simpl in Hs.
  - case_step Hs. elim_tests. simpl.
    destruct (pc s); try done; destruct Hwin as (e & ? & ? & ? & ?);
      exists e; split_and?; try done; lia.
  - unfold benchmark in Hs. case_step Hs; simpl; try done.
    destruct Hend as (e & He & Hle). exists e. split_and?; try done; lia.
  - unfold benchmark_worker in Hs. case_step Hs; simpl; try done.
    all: destruct (pc s); try done; destruct Hwin as (e' & ? & ? & ? & ?);
      exists e'; rewrite ?length_insert; split_and?; try done; lia.
Qed.

(** X7.  [start_t] and [end_t] (lines 129-138).  When [start_t] is read,
    all [queue_depth] workers are started and [end_t] is set; [end_t] is
    at most [start_t] plus 30 seconds, less by the time it took to start
    the workers. *)
Theorem deadline_within_30s_of_start files qd dc rs t0 mr s st :
  reachable_from (init files qd dc rs t0 mr) s → start_t s = Some st →
  ∃ e, end_t s = Some e ∧ (e ≤ st + DURATION)%Z ∧ (st ≤ now s)%Z ∧
       length (workers s) = qd.
Proof.
  intros Hr Hst.
  assert (Hw : inv s ∧ window s).
  { refine (run_invariant (λ s, inv s ∧ window s) _ _ s Hr _).
    - intros a s1 s2 [Hinv Hwin] Hs. split; [by eapply inv_step|by eapply window_step].
    - split; [apply inv_init|done]. }
  destruct Hw as [_ Hwin]. unfold window in Hwin. rewrite Hst in Hwin.
  destruct (run_frame _ _ Hr) as (Hqd & _). simpl in Hqd.
  destruct Hwin as (e & ? & ? & ? & ?). exists e. split_and?; try done; lia.
Qed.

Lemma deadline_within_30s_of_start_witness :
  ∃ e, end_t late_state = Some e ∧
       (e ≤ DURATION + 1 + DURATION)%Z ∧
       (DURATION + 1 ≤ now late_state)%Z ∧ length (workers late_state) = 1.
Proof.
  apply (deadline_within_30s_of_start ["a"] 1 0 [] 0 0 late_state).
  - exists late_sched. vm_compute. reflexivity.
  - reflexivity.
Defined.

(** ** The queues at the return *)

(** X8.  The two queues when [benchmark] returns.  [result_queue] is
    empty.  [path_queue] holds the tokens put that no worker took, in the
    order of putting: the tokens left, the paths read and the stop
    sentinels taken add up to the paths and sentinels put.  When the
    deadline has not passed and there is a worker, [path_queue] is empty
    too. *)
Theorem queues_at_return files qd dc rs t0 mr s total used :
  reachable_from (init files qd dc rs t0 mr) s → pc s = RReturn total used →
  result_queue s = [] ∧
  path_queue s = drop (length (dequeued s)) ((Some <$> all_files s) ++ replicate qd None) ∧
  length (path_queue s) + total + nstops (dequeued s).*2 = length files + qd ∧
  (in_time s → 1 ≤ qd → path_queue s = []).
Proof.
  intros Hr Hpc.
  pose proof (reachable_init _ _ _ _ _ _ _ Hr) as Hrs.
  pose proof (inv_reachable _ Hrs) as Hinv.
  destruct (run_frame _ _ Hr) as (Hqd & _ & _ & Hperm & _). simpl in Hqd, Hperm.
  destruct (returned_all_exited _ _ _ Hinv Hpc) as (_ & Hrq & _ & _).
  destruct (returned_total _ _ _ Hinv Hpc) as (_ & Htot & _).
  pose proof (inv_fifo _ Hinv) as Hf.
  rewrite (returned_enqueued _ _ _ Hinv Hpc), Hqd in Hf.
  assert (Hlen : length (path_queue s) + total + nstops (dequeued s).*2
                 = length files + qd).
  { apply (f_equal length) in Hf.
    rewrite !length_app, length_replicate in Hf.
    rewrite (length_fmap Some), (length_tokens (dequeued s).*2) in Hf.
    rewrite <- (Permutation_length Hperm). lia. }
  split_and?; [done| |done|].
  - rewrite <- Hf, <- (length_fmap snd). by rewrite drop_app_length.
  - intros Hin Hq. apply length_zero_iff_nil.
    pose proof (returned_in_time_stops _ _ _ Hinv Hpc Hin) as Hst.
    pose proof (returned_in_time_total _ _ _ Hrs ltac:(lia) Hpc Hin) as Hall.
    rewrite (Permutation_length Hperm) in Hall. lia.
Qed.

Lemma queues_at_return_witness :
  result_queue slow_final = [] ∧
  path_queue slow_final = drop (length (dequeued slow_final))
                            ((Some <$> all_files slow_final) ++ replicate 1 None) ∧
  length (path_queue slow_final) + 1 + nstops (dequeued slow_final).*2
    = length ["a"] + 1 ∧
  (in_time slow_final → 1 ≤ 1 → path_queue slow_final = []).
Proof.
  apply (queues_at_return ["a"] 1 0 [] 0 (DURATION + 1) slow_final 1 (DURATION + 1)).
  - exists slow_sched. vm_compute. reflexivity.
  - reflexivity.
Defined.

(** ** After the deadline *)

Lemma end_t_started s e : reachable s → end_t s = Some e → started s = true.
Proof.
  intros (files & qd & dc & rs & t0 & mr & Hr) He.
  assert (H : started s = false → end_t s = None).
  { refine (run_invariant (λ s, started s = false → end_t s = None) _ _ s Hr _); [|done].
    intros a s1 s2 H1 Hs. unfold started in *.
    destruct a as [d| |k ok]; simpl in Hs; unfold benchmark, benchmark_worker in Hs;
      destruct (pc s1) eqn:Hpc; case_step Hs; simpl; rewrite ?Hpc; auto; done. }
  destruct (started s); [done|]. rewrite H in He; done.
Qed.

Lemma waiting_le_1 w : waiting w ≤ 1.
Proof. unfold waiting. destruct (w_at w); lia. Qed.

(** One step, the deadline passed: a path is delivered only to a worker
    that was waiting for it, and that worker waits no more. *)
Lemma late_step a s s' e :
  inv s → end_t s = Some e → (e < now s)%Z → started s = true →
  step a s = Some s' →
  (∀ i, length (taken_by i (dequeued s')) + waiting_at i s'
        ≤ length (taken_by i (dequeued s)) + waiting_at i s) ∧
  npaths (dequeued s').*2 + sum_list_with waiting (workers s')
  ≤ npaths (dequeued s).*2 + sum_list_with waiting (workers s).
Proof.
  intros Hinv He Hlate Hst Hs.
  pose proof (inv_exit_time _ Hinv) as Hex.
  unfold waiting_at. unfold started in Hst.
  destruct a as [d| |j ok]; simpl in Hs.
  - case_step Hs. simpl. split; [intros i|]; lia.
  - unfold benchmark in Hs. case_step Hs; simpl; try done; try (split; [intros k|]; lia).
    split.
    + intros k. destruct (workers s !! k) as [w|] eqn:Hw.
      * rewrite lookup_app_l by (by eapply lookup_lt_Some). by rewrite Hw.
      * apply lookup_ge_None in Hw.
        destruct (decide (k = length (workers s))) as [->|].
        -- rewrite lookup_app_r, Nat.sub_diag by done. simpl. unfold waiting. simpl. lia.
        -- rewrite lookup_ge_None_2; [lia|]. rewrite length_app. simpl. lia.
    + rewrite sum_list_with_snoc. unfold waiting at 2. simpl. lia.
  - unfold benchmark_worker in Hs.
    destruct (workers s !! j) as [w|] eqn:Hw; [|done].
    pose proof (lookup_lt_Some _ _ _ Hw) as Hlt.
    pose proof (Forall_lookup_1 _ _ _ _ Hex Hw) as Hexw.
    assert (exit_time w = e) as Hew by congruence.
    destruct w as [e' p]. simpl in *. subst e'.
    destruct p; case_step Hs; elim_tests; try lia; simpl;
      match goal with |- context [<[j:=?w']> _] =>
        pose proof (sum_list_with_insert waiting _ j _ w' Hw) as Hsum end;
      unfold waiting in Hsum at 2 4; simpl in Hsum;
      rewrite ?fmap_app; simpl; rewrite ?npaths_snoc; simpl;
      (split; [intros k; rewrite ?taken_by_snoc|lia]).
    all: destruct (decide (j = k)) as [->|Hne];
      [rewrite list_lookup_insert_eq, Hw by done
      |rewrite list_lookup_insert_ne by done].
    all: unfold waiting; simpl; rewrite ?length_app, ?app_nil_r; simpl; lia.
Qed.

(** X9.  After the deadline.  From a state in which the clock is past
    [end_t], no worker is delivered more than one further path (the one
    it may be waiting for in [get()], having checked the clock in time),
    and all in all at most [queue_depth] further paths are delivered. *)
Theorem one_more_path_per_worker_after_deadline s s' e :
  reachable s → end_t s = Some e → (e < now s)%Z →
  reachable_from s s' →
  (∀ i, length (taken_by i (dequeued s')) ≤ length (taken_by i (dequeued s)) + 1) ∧
  npaths (dequeued s').*2 ≤ npaths (dequeued s).*2 + queue_depth s.
Proof.
  intros Hr He Hlate Hr'.
  pose proof (inv_reachable _ Hr) as Hinv.
  pose proof (end_t_started _ _ Hr He) as Hst.
  assert (H : inv s' ∧ end_t s' = Some e ∧ (e < now s')%Z ∧ started s' = true ∧
            (∀ i, length (taken_by i (dequeued s')) + waiting_at i s'
                  ≤ length (taken_by i (dequeued s)) + waiting_at i s) ∧
            npaths (dequeued s').*2 + sum_list_with waiting (workers s')
            ≤ npaths (dequeued s).*2 + sum_list_with waiting (workers s)).
  { refine (run_invariant (λ s', inv s' ∧ end_t s' = Some e ∧ (e < now s')%Z ∧
              started s' = true ∧ _ ∧ _) _ _ s' Hr' _).
    - intros a s1 s2 (Hinv1 & He1 & Hl1 & Hst1 & Hi1 & Hn1) Hs.
      destruct (late_step _ _ _ _ Hinv1 He1 Hl1 Hst1 Hs) as [Hi2 Hn2].
      destruct (started_step _ _ _ Hst1 Hs) as [Hst2 He2].
      destruct (step_frame _ _ _ Hs) as (_ & _ & _ & _ & Hnow).
      split_and?; [by eapply inv_step|congruence|lia|done| |lia].
      intros i. specialize (Hi1 i). specialize (Hi2 i). lia.
    - split_and?; try done. }
  destruct H as (_ & _ & _ & _ & Hi & Hn). split.
  - intros i. specialize (Hi i).
    assert (waiting_at i s ≤ 1); [|lia].
    unfold waiting_at. destruct (workers s !! i); [apply waiting_le_1|lia].
  - pose proof (sum_list_with_le_length waiting (workers s) waiting_le_1).
    destruct (inv_spawned _ Hinv). lia.
Qed.

Lemma one_more_path_per_worker_after_deadline_witness :
  let s' := do_get late_state 0 (Some "a") []
              (Worker DURATION (WRead "a" (DURATION + 1) 0)) in
  (∀ i, length (taken_by i (dequeued s'))
        ≤ length (taken_by i (dequeued late_state)) + 1) ∧
  npaths (dequeued s').*2 ≤ npaths (dequeued late_state).*2 + queue_depth late_state.
Proof.
  apply (one_more_path_per_worker_after_deadline late_state _ DURATION).
  - exists ["a"], 1, 0%Z, [], 0%Z, 0%Z, late_sched. vm_compute. reflexivity.
  - reflexivity.
  - vm_compute. reflexivity.
  - exists [Work 0 true]. reflexivity.
Defined.

(** * The file systems and [main] *)

(** ** Paths *)

Lemma strip_prefix_Some pre l r : strip_prefix pre l = Some r ↔ l = pre ++ r.
Proof.
  revert l. induction pre as [|x pre IH]; intros [|y l]; simpl.
  - split; congruence.
  - split; congruence.
  - split; [done|]. intros H. discriminate.
  - destruct (decide (x = y)) as [->|Hne].
    + rewrite IH. split; congruence.
    + split; [done|]. intros H. congruence.
Qed.

Lemma relative_to_Some p other r :
  relative_to p other = Some r ↔
  rooted r = false ∧ rooted p = rooted other ∧ names p = names other ++ names r.
Proof.
  unfold relative_to. destruct (decide (rooted p = rooted other)) as [Hr|Hr].
  - rewrite fmap_Some. split.
    + intros (ns & Hs & ->). apply strip_prefix_Some in Hs. done.
    + intros (Hr0 & _ & Hn). exists (names r). rewrite strip_prefix_Some.
      split; [done|]. destruct r; simpl in *. by subst.
  - split; [done|]. intros (_ & ? & _). done.
Qed.

(** A path under [other] is [other] joined with what [relative_to]
    gives, and joining then taking the relative path gives it back. *)
Lemma joinpath_relative_to p other r :
  relative_to p other = Some r → joinpath other r = p.
Proof.
  rewrite relative_to_Some. intros (Hr & Hro & Hn). unfold joinpath. rewrite Hr.
  destruct p; simpl in *. by subst.
Qed.

Lemma relative_to_joinpath a r :
  rooted r = false → relative_to (joinpath a r) a = Some r.
Proof.
  intros Hr. apply relative_to_Some. unfold joinpath. rewrite Hr. done.
Qed.

Lemma all_read_files_Some target dataset files l :
  all_read_files target dataset files = Some l ↔
  Forall2 (λ p q, ∃ r, relative_to p dataset = Some r ∧ q = joinpath target r) files l.
Proof.
  unfold all_read_files. rewrite mapM_Some.
  split; intros H; eapply Forall2_impl; try exact H; simpl;
    intros p q; rewrite fmap_Some; naive_solver.
Qed.

(** X10.  The list of line 188 mirrors [all_files]: as long, in the same
    order, each path as far below [mount_target] as the file is below
    [dataset_path]; distinct files give distinct paths.  The line raises
    [ValueError] when, and only when, some file is not below
    [dataset_path]. *)
Theorem read_files_mirror_dataset target dataset files :
  (∀ l, all_read_files target dataset files = Some l →
     length l = length files ∧
     (∀ i p q, files !! i = Some p → l !! i = Some q →
        relative_to q target = relative_to p dataset ∧
        is_Some (relative_to p dataset)) ∧
     (NoDup files → NoDup l)) ∧
  (all_read_files target dataset files = None ↔
     ∃ p, p ∈ files ∧ relative_to p dataset = None).
Proof.
  split.
  - intros l Hl. apply all_read_files_Some in Hl.
    split_and?.
    + symmetry. by eapply Forall2_length.
    + intros i p q Hp Hq.
      destruct (Forall2_lookup_lr _ _ _ _ _ _ Hl Hp Hq) as (r & Hr & ->).
      rewrite Hr. split; [|by eexists].
      apply relative_to_joinpath. by apply relative_to_Some in Hr as (? & _).
    + intros Hnd. induction Hl as [|p q files l (r & Hr & ->) Hl IH]; [constructor|].
      apply NoDup_cons in Hnd as [Hp Hnd]. apply NoDup_cons. split; [|by apply IH].
      intros Hin. apply Hp.
      apply list_elem_of_lookup in Hin as [i Hi].
      destruct (Forall2_lookup_r _ _ _ _ _ Hl Hi) as (p' & Hp' & r' & Hr' & Heq).
      assert (r' = r) as ->.
      { apply relative_to_Some in Hr as (Hr0 & _). apply relative_to_Some in Hr' as (Hr0' & _).
        pose proof (relative_to_joinpath target r Hr0) as H1.
        rewrite Heq, (relative_to_joinpath target r' Hr0') in H1. congruence. }
      apply joinpath_relative_to in Hr, Hr'. subst p'. rewrite <- Hr.
      by eapply list_elem_of_lookup_2.
  - unfold all_read_files. rewrite mapM_None. split.
    + intros Hex. apply Exists_exists in Hex as (p & Hin & Hp).
      exists p. split; [done|]. by apply fmap_None in Hp.
    + intros (p & Hin & Hp). apply Exists_exists. exists p. split; [done|].
      by rewrite Hp.
Qed.

Lemma relative_to_sibling path n m r q :
  n ≠ m → rooted r = false →
  q = joinpath (joinpath path (of_name n)) r →
  relative_to q (joinpath path (of_name m)) = None.
Proof.
  intros Hne Hr ->. destruct (relative_to _ _) as [r'|] eqn:Hrel; [|done].
  apply relative_to_Some in Hrel as (_ & _ & Hn). exfalso.
  unfold joinpath in Hn. rewrite Hr in Hn. simpl in Hn.
  rewrite <- !app_assoc in Hn. apply app_inv_head in Hn. simpl in Hn. congruence.
Qed.

(** X11.  In [main] the paths that are read lie below the mounted file
    system [path / 'dataset_fs'], none of them below the directory [path /
    'dataset'] that the files were generated in; and the image of a file
    system lies in neither directory. *)
Theorem reads_go_to_the_mounted_file_system path files l :
  let dataset := joinpath path (of_name "dataset") in
  let target := joinpath path (of_name "dataset_fs") in
  all_read_files target dataset files = Some l →
  (∀ q, q ∈ l → is_Some (relative_to q target) ∧ relative_to q dataset = None) ∧
  (∀ c size image, fs_image_path (Fs c path target size dataset) = Some image →
     relative_to image target = None ∧ relative_to image dataset = None ∧
     image ∉ l).
Proof.
  intros dataset target Hl. apply all_read_files_Some in Hl.
  assert (Hq : ∀ q, q ∈ l → ∃ r, rooted r = false ∧ q = joinpath target r).
  { intros q Hin. apply list_elem_of_lookup in Hin as [i Hi].
    destruct (Forall2_lookup_r _ _ _ _ _ Hl Hi) as (p & _ & r & Hr & ->).
    exists r. split; [|done]. by apply relative_to_Some in Hr as (? & _). }
  assert (Himg : ∀ c size image,
            fs_image_path (Fs c path target size dataset) = Some image →
            ∃ n, n ≠ "dataset_fs" ∧ n ≠ "dataset" ∧
                 image = joinpath (joinpath path (of_name n)) (MkPath false [])).
  { intros c size image Hi. unfold fs_image_path in Hi. simpl in Hi.
    destruct c; simplify_eq; eexists; (split_and?; [| |
      unfold joinpath; simpl; by rewrite app_nil_r]); done. }
  split.
  - intros q Hin. destruct (Hq q Hin) as (r & Hr & ->). split.
    + rewrite relative_to_joinpath by done. by eexists.
    + by apply (relative_to_sibling path "dataset_fs" "dataset" r).
  - intros c size image Hi. destruct (Himg c size image Hi) as (n & Hn1 & Hn2 & ->).
    pose proof (relative_to_sibling path n "dataset_fs" (MkPath false []) _
                  Hn1 eq_refl eq_refl) as Ht.
    pose proof (relative_to_sibling path n "dataset" (MkPath false []) _
                  Hn2 eq_refl eq_refl) as Hd.
    split_and?; [done|done|].
    intros Hin. destruct (Hq _ Hin) as (r & Hr & Heq).
    pose proof (relative_to_joinpath target r Hr) as Hrel.
    rewrite <- Heq in Hrel. unfold target in Hrel. congruence.
Qed.

Lemma reads_go_to_the_mounted_file_system_witness :
  all_read_files (MkPath false ["d"; "dataset_fs"]) (MkPath false ["d"; "dataset"])
    [MkPath false ["d"; "dataset"; "0"; "f"]]
    = Some [MkPath false ["d"; "dataset_fs"; "0"; "f"]] ∧
  (∀ q, q ∈ [MkPath false ["d"; "dataset_fs"; "0"; "f"]] →
     is_Some (relative_to q (MkPath false ["d"; "dataset_fs"])) ∧
     relative_to q (MkPath false ["d"; "dataset"]) = None).
Proof.
  split; [reflexivity|].
  apply (reads_go_to_the_mounted_file_system (MkPath false ["d"])
           [MkPath false ["d"; "dataset"; "0"; "f"]]).
  reflexivity.
Defined.

(** ** Executions of programs *)

Lemma exec_bind_inv {A B} (m : prog A) (f : A → prog B) tr r :
  exec (m ≫= f) tr r →
  (∃ a tr1 tr2, exec m tr1 (Returned a) ∧ exec (f a) tr2 r ∧ tr = tr1 ++ tr2) ∨
  (∃ e, exec m tr (Raises e) ∧ r = Raises e) ∨
  (exec m tr Blocked ∧ r = Blocked).
Proof.
  unfold mbind, prog_bind. revert tr.
  induction m as [a|e|c k IH]; simpl; intros tr H.
  - left. exists a, [], tr. split_and?; [constructor|done|done].
  - inversion H; subst. right; left. exists e. split; [constructor|done].
  - inversion H as [ | |c' k' Hp|c' k' a tr' r' Hp Hn Hk]; subst.
    + right; right. split; [by constructor|done].
    + destruct (IH a tr' Hk) as [(x & tr1 & tr2 & H1 & H2 & ->)|[(e & H1 & ->)|[H1 ->]]].
      * left. exists x, ((c, a) :: tr1), tr2. split_and?; [by constructor|done|done].
      * right; left. exists e. split; [by constructor|done].
      * right; right. split; [by constructor|done].
Qed.

Lemma exec_finally_inv {A} (m : prog A) (h : prog unit) tr r :
  exec (finally m h) tr r →
  (exec m tr Blocked ∧ r = Blocked) ∨
  (∃ tr1 r1 tr2 r2, exec m tr1 r1 ∧ r1 ≠ Blocked ∧ exec h tr2 r2 ∧ tr = tr1 ++ tr2 ∧
     r = match r2 with Returned _ => r1 | Raises e => Raises e | Blocked => Blocked end).
Proof.
  revert tr. induction m as [a|e|c k IH]; simpl; intros tr H.
  - right. apply exec_bind_inv in H
      as [(x & tr1 & tr2 & H1 & H2 & ->)|[(e & H1 & ->)|[H1 ->]]].
    + inversion H2; subst. exists [], (Returned a), tr1, (Returned x).
      rewrite app_nil_r. split_and?; try done; constructor.
    + exists [], (Returned a), tr, (Raises e). split_and?; try done; constructor.
    + exists [], (Returned a), tr, Blocked. split_and?; try done; constructor.
  - right. apply exec_bind_inv in H
      as [(x & tr1 & tr2 & H1 & H2 & ->)|[(e' & H1 & ->)|[H1 ->]]].
    + inversion H2; subst. exists [], (Raises e), tr1, (Returned x).
      rewrite app_nil_r. split_and?; try done; constructor.
    + exists [], (Raises e), tr, (Raises e'). split_and?; try done; constructor.
    + exists [], (Raises e), tr, Blocked. split_and?; try done; constructor.
  - inversion H as [ | |c' k' Hp|c' k' a tr' r' Hp Hn Hk]; subst.
    + left. split; [by constructor|done].
    + destruct (IH a tr' Hk) as [[H1 ->]|(tr1 & r1 & tr2 & r2 & H1 & Hr1 & H2 & -> & ->)].
      * left. split; [by constructor|done].
      * right. exists ((c, a) :: tr1), r1, tr2, r2. split_and?; try done. by constructor.
Qed.

(** What [run_prog] computes is an execution. *)
Lemma run_prog_exec {A} (m : prog A) o tr r :
  run_prog m o = (tr, Some r) → exec m tr r.
Proof.
  revert o tr. induction m as [a|e|c k IH]; simpl; intros o tr H.
  - simplify_eq. constructor.
  - simplify_eq. constructor.
  - destruct o as [|a o]; [done|]. destruct (possible c a) eqn:Hp; [|done].
    destruct (run_prog (k a) o) as [tr' r'] eqn:Hk.
    destruct a; simpl in H; simplify_eq; try (by constructor);
      (constructor; [done|done|by eapply IH]).
Qed.

(** An execution is what [run_prog] computes on the answers given. *)
Lemma exec_run_prog {A} (m : prog A) tr r :
  exec m tr r → run_prog m tr.*2 = (tr, Some r).
Proof.
  induction 1 as [a|e|c k Hp|c k a tr r Hp Hn Hk IH]; simpl; try done.
  - by rewrite Hp.
  - rewrite Hp. destruct a; try done;
      change (list_fmap (call * answer)%type answer snd tr) with (tr.*2);
      by rewrite IH.
Qed.

Lemma exec_deterministic {A} (m : prog A) tr r r' :
  exec m tr r → exec m tr r' → r = r'.
Proof.
  intros H H'. apply exec_run_prog in H, H'. congruence.
Qed.

(** The executions of one call. *)
Lemma exec_subprocess_run argv tr r :
  exec (subprocess_run argv) tr r →
  (tr = [(Subprocess argv, Exit 0)] ∧ r = Returned ()) ∨
  r ≠ Returned () ∧
  ((tr = [(Subprocess argv, Never)] ∧ r = Blocked) ∨
   (tr = [(Subprocess argv, Error)] ∧ r = Raises (CallError (Subprocess argv))) ∨
   (∃ rc, rc ≠ 0%Z ∧ tr = [(Subprocess argv, Exit rc)] ∧
          r = Raises (CalledProcessError argv rc))).
Proof.
  unfold subprocess_run. intros H.
  inversion H as [ | |c' k' Hp|c' k' a tr' r' Hp Hn Hk]; subst.
  { right. split; [done|]. by left. }
  destruct a; simpl in Hp; try done.
  - destruct (decide (returncode = 0%Z)) as [->|Hrc]; inversion Hk; subst.
    + by left.
    + right. split; [done|]. right; right. by exists returncode.
  - inversion Hk; subst. right. split; [done|]. right; left. done.
Qed.

Lemma exec_do_call c tr r :
  exec (do_call c) tr r →
  (tr = [(c, Done)] ∧ r = Returned ()) ∨
  r ≠ Returned () ∧
  ((tr = [(c, Never)] ∧ r = Blocked) ∨
   (∃ a, a ≠ Done ∧ a ≠ Never ∧ tr = [(c, a)] ∧ r = Raises (CallError c))).
Proof.
  unfold do_call. intros H.
  inversion H as [ | |c' k' Hp|c' k' a tr' r' Hp Hn Hk]; subst.
  { right. split; [done|]. by left. }
  destruct a; inversion Hk; subst; try (by left); try done;
    (right; split; [done|]; right; eexists; split_and?; [| |done|done]; done).
Qed.

(** A sequence: the first part returns and the rest runs, or the first
    part ends the execution. *)
Lemma exec_seq_inv {A} (m : prog unit) (n : prog A) tr r :
  exec (m ;; n) tr r →
  (∃ tr1 tr2, exec m tr1 (Returned ()) ∧ exec n tr2 r ∧ tr = tr1 ++ tr2) ∨
  (∃ r1, exec m tr r1 ∧ r1 ≠ Returned () ∧
         match r1 with
         | Returned _ => False
         | Raises e => r = Raises e
         | Blocked => r = Blocked
         end).
Proof.
  intros H. apply exec_bind_inv in H
    as [([] & tr1 & tr2 & H1 & H2 & ->)|[(e & H1 & ->)|[H1 ->]]].
  - left. by exists tr1, tr2.
  - right. by exists (Raises e).
  - right. by exists Blocked.
Qed.

Lemma exec_sleep n tr r :
  exec (do_call (Sleep n)) tr r → tr = [(Sleep n, Done)] ∧ r = Returned ().
Proof.
  unfold do_call. intros H.
  inversion H as [ | |c' k' Hp|c' k' a tr' r' Hp Hn Hk]; subst; [done|].
  destruct a; try done. by inversion Hk.
Qed.

(** ** [test] *)

Lemma exec_test_inv {A} (self : fs) (body : prog A) tr r :
  is_Some (name (cls self)) →
  exec (test self body) tr r →
  (exec (setup self) tr Blocked ∧ r = Blocked) ∨
  (∃ e, exec (setup self) tr (Raises e) ∧ r = Raises e) ∨
  (∃ tr_s tr_b, exec (setup self) tr_s (Returned ()) ∧
     ((exec body tr_b Blocked ∧ tr = tr_s ++ tr_b ∧ r = Blocked) ∨
      (∃ r_b tr_t r_t, exec body tr_b r_b ∧ r_b ≠ Blocked ∧
         exec (teardown self) tr_t r_t ∧
         tr = tr_s ++ tr_b ++ (Sleep 5, Done) :: tr_t ∧
         r = match r_t with
             | Returned _ => r_b
             | Raises e => Raises e
             | Blocked => Blocked
             end))).
Proof.
  intros [n Hn] H. unfold test in H. rewrite Hn in H.
  apply exec_seq_inv in H as [(tr_s & tr' & Hs & H & ->)|(r1 & Hs & Hr1 & Hr)].
  2: { destruct r1 as [[]|e|]; [done| |]; subst; eauto. }
  right; right. exists tr_s.
  apply exec_finally_inv in H
    as [[Hb ->]|(tr_b & r_b & tr2 & r2 & Hb & Hrb & H2 & -> & ->)].
  { exists tr'. split; [done|]. by left. }
  exists tr_b. split; [done|]. right.
  apply exec_seq_inv in H2 as [(tr1 & tr_t & Hsl & Ht & ->)|(r1 & Hsl & Hr1 & Hr)].
  - apply exec_sleep in Hsl as [-> _].
    exists r_b, tr_t, r2. split_and?; done.
  - by apply exec_sleep in Hsl as [_ ->].
Qed.

(** X12.  [with self.test(): body], for an object of a class with a
    [name].  When [setup] raises or blocks, so does the statement, and
    neither [body] nor [teardown] runs.  When [setup] returns, [body]
    runs; and unless it blocks, whether it returns or raises,
    [time.sleep(5.0)] and [teardown] run after it; the statement then ends
    as [body] did, or, if [teardown] raises, with the exception of
    [teardown]. *)
Theorem test_runs_teardown_iff_setup_returned {A} (self : fs) (body : prog A) tr r :
  is_Some (name (cls self)) →
  exec (test self body) tr r →
  (exec (setup self) tr Blocked ∧ r = Blocked) ∨
  (∃ e, exec (setup self) tr (Raises e) ∧ r = Raises e) ∨
  (∃ tr_s tr_b, exec (setup self) tr_s (Returned ()) ∧
     ((exec body tr_b Blocked ∧ tr = tr_s ++ tr_b ∧ r = Blocked) ∨
      (∃ r_b tr_t r_t, exec body tr_b r_b ∧ r_b ≠ Blocked ∧
         exec (teardown self) tr_t r_t ∧
         tr = tr_s ++ tr_b ++ (Sleep 5, Done) :: tr_t ∧
         r = match r_t with
             | Returned _ => r_b
             | Raises e => Raises e
             | Blocked => Blocked
             end))).
Proof. apply exec_test_inv. Qed.

Lemma test_runs_teardown_iff_setup_returned_witness :
  (exec (setup run_fs) test_raise_trace Blocked ∧
   @Raises (list PurePath) (CallError (Benchmark [run_read_file] 1 3)) = Blocked) ∨
  (∃ e, exec (setup run_fs) test_raise_trace (Raises e) ∧
        @Raises (list PurePath) (CallError (Benchmark [run_read_file] 1 3)) = Raises e) ∨
  (∃ tr_s tr_b, exec (setup run_fs) tr_s (Returned ()) ∧
     ((exec (three_benchmarks [run_read_file]) tr_b Blocked ∧
       test_raise_trace = tr_s ++ tr_b ∧
       @Raises (list PurePath) (CallError (Benchmark [run_read_file] 1 3)) = Blocked) ∨
      (∃ r_b tr_t r_t, exec (three_benchmarks [run_read_file]) tr_b r_b ∧
         r_b ≠ Blocked ∧ exec (teardown run_fs) tr_t r_t ∧
         test_raise_trace = tr_s ++ tr_b ++ (Sleep 5, Done) :: tr_t ∧
         @Raises (list PurePath) (CallError (Benchmark [run_read_file] 1 3))
         = match r_t with
           | Returned _ => r_b
           | Raises e => Raises e
           | Blocked => Blocked
           end))).
Proof.
  apply (test_runs_teardown_iff_setup_returned run_fs
           (three_benchmarks [run_read_file]) test_raise_trace).
  - by eexists.
  - apply run_prog_exec with (o := test_raise_answers). vm_compute. reflexivity.
Defined.

(** ** [setup] and [teardown] *)

Lemma exec_subprocess_seq {A} argv (n : prog A) tr r :
  exec (subprocess_run argv ;; n) tr r →
  (∃ tr', tr = (Subprocess argv, Exit 0) :: tr' ∧ exec n tr' r) ∨
  (∃ a, a ≠ Exit 0 ∧ tr = [(Subprocess argv, a)] ∧ ∀ x, r ≠ Returned x).
Proof.
  intros H. apply exec_seq_inv in H as [(tr1 & tr2 & H1 & H & ->)|(r1 & H1 & Hr1 & Hr)];
    apply exec_subprocess_run in H1
      as [[? ?]|[? [[? ?]|[[? ?]|(rc & Hrc & ? & ?)]]]]; simplify_eq.
  - left. by eexists.
  - right. by exists Never.
  - right. by exists Error.
  - right. exists (Exit rc). split_and?; [congruence|done|done].
Qed.

Lemma exec_do_call_seq {A} c (n : prog A) tr r :
  exec (do_call c ;; n) tr r →
  (∃ tr', tr = (c, Done) :: tr' ∧ exec n tr' r) ∨
  (∃ a, a ≠ Done ∧ tr = [(c, a)] ∧ ∀ x, r ≠ Returned x).
Proof.
  intros H. apply exec_seq_inv in H as [(tr1 & tr2 & H1 & H & ->)|(r1 & H1 & Hr1 & Hr)];
    apply exec_do_call in H1
      as [[? ?]|[? [[? ?]|(a & Ha & Ha' & ? & ?)]]]; simplify_eq.
  - left. by eexists.
  - right. by exists Never.
  - right. by exists a.
Qed.

Lemma exec_subprocess_last argv tr r :
  exec (subprocess_run argv) tr r →
  ∃ a, tr = [(Subprocess argv, a)] ∧ (a = Exit 0 ↔ r = Returned ()).
Proof.
  intros H. apply exec_subprocess_run in H
    as [[-> ->]|[Hr [[-> ->]|[[-> ->]|(rc & Hrc & -> & ->)]]]];
    eexists; (split; [done|]); split; congruence.
Qed.

Lemma exec_do_call_last c tr r :
  exec (do_call c) tr r →
  ∃ a, tr = [(c, a)] ∧ (a = Done ↔ r = Returned ()).
Proof.
  intros H. apply exec_do_call in H
    as [[-> ->]|[Hr [[-> ->]|(a & Ha & Ha' & -> & ->)]]];
    eexists; (split; [done|]); split; congruence.
Qed.

(** Follow an execution [H] through its next call. *)
Ltac run_calls H :=
  let H' := fresh in
  match type of H with
  | exec (subprocess_run _ ;; _) _ _ =>
      destruct (exec_subprocess_seq _ _ _ _ H) as [(? & -> & H')|(? & ? & -> & ?)];
      clear H; [rename H' into H|]
  | exec (do_call _ ;; _) _ _ =>
      destruct (exec_do_call_seq _ _ _ _ H) as [(? & -> & H')|(? & ? & -> & ?)];
      clear H; [rename H' into H|]
  | exec (subprocess_run _) _ _ =>
      destruct (exec_subprocess_last _ _ _ H) as (? & -> & H'); clear H
  | exec (do_call _) _ _ =>
      destruct (exec_do_call_last _ _ _ H) as (? & -> & H'); clear H
  end.

Lemma setup_shape self image tr r :
  fs_image_path self = Some image → exec (setup self) tr r →
  Forall (λ ev, builds ev.1) tr ∧
  ((Subprocess (mount_argv (cls self) image (mount_target self)), Exit 0) ∈ tr
   ↔ r = Returned ()).
Proof.
  intros Hi H. unfold setup in H. rewrite Hi in H.
  unfold fs_image_path in Hi.
  destruct (cls self) eqn:Hc; [done| | |]; simplify_eq.
  all: repeat run_calls H.
  all: split; [repeat constructor; simpl; done|].
  all: unfold mount_argv; rewrite ?elem_of_cons, elem_of_nil; split;
    [intros Hm; repeat (destruct Hm as [Hm|Hm]); simplify_eq; tauto
    |intros Hr;
     try match goal with Hx : ∀ x, _ ≠ Returned x |- _ => by destruct (Hx _ Hr) end].
  all: match goal with Hx : _ ↔ _ = Returned () |- _ => destruct Hx as [_ ->] end;
    tauto.
Qed.

(** What [teardown] does: [umount]; if that succeeded, [rmdir]; if that
    succeeded, [unlink]. *)
Lemma teardown_shape self image tr r :
  fs_image_path self = Some image → exec (teardown self) tr r →
  let u := Subprocess (umount_argv (mount_target self)) in
  let d := PathRmdir (mount_target self) in
  (∃ a, a ≠ Exit 0 ∧ tr = [(u, a)] ∧ r ≠ Returned ()) ∨
  (∃ a, a ≠ Done ∧ tr = [(u, Exit 0); (d, a)] ∧ r ≠ Returned ()) ∨
  (∃ a, tr = [(u, Exit 0); (d, Done); (PathUnlink image, a)] ∧
        (a = Done ↔ r = Returned ())).
Proof.
  intros Hi H. unfold teardown in H. rewrite Hi in H. simpl.
  repeat run_calls H.
  - right; right. by eexists.
  - right; left. by eexists.
  - left. by eexists.
Qed.

Lemma keeps_not_in tr :
  Forall (λ ev : event, keeps ev.1) tr →
  ∀ p, (Subprocess (umount_argv p) ∉ tr.*1) ∧ (PathRmdir p ∉ tr.*1) ∧
       (PathUnlink p ∉ tr.*1).
Proof.
  intros Hk p. rewrite Forall_forall in Hk.
  split_and?; intros Hin; apply list_elem_of_fmap in Hin as ([c a] & Hc & Hin);
    destruct (Hk _ Hin) as (H1 & H2 & H3); simpl in *; subst c;
    [by destruct (H1 p)|by destruct (H2 p)|by destruct (H3 p)].
Qed.

Lemma builds_keeps tr :
  Forall (λ ev : event, builds ev.1) tr → Forall (λ ev : event, keeps ev.1) tr.
Proof.
  intros H. eapply Forall_impl; [exact H|]. intros ev (? & ? & ? & _). by split_and?.
Qed.

Lemma benchmark_keeps tr :
  Forall (λ ev : event, is_benchmark ev.1 = true) tr →
  Forall (λ ev : event, keeps ev.1) tr.
Proof.
  intros H. eapply Forall_impl; [exact H|].
  intros [c a]. simpl. by destruct c.
Qed.

(** X13.  In [with fs.test(): body], [body] calling nothing but
    [benchmark]: [umount] is called only after a [mount] that succeeded,
    and after such a [mount] it is called, unless the execution is blocked
    before; when [setup] fails, with the image written or the directory
    made, nothing is removed; the image is removed only once the file
    system is unmounted and the directory removed; and [test] returning,
    the image is removed. *)
Theorem mount_is_paired_with_umount {A} (self : fs) (body : prog A) image tr r :
  fs_image_path self = Some image → only_benchmarks body →
  exec (test self body) tr r →
  let m := (Subprocess (mount_argv (cls self) image (mount_target self)), Exit 0%Z) in
  let u := Subprocess (umount_argv (mount_target self)) in
  let d := PathRmdir (mount_target self) in
  (u ∈ (tr.*1) → m ∈ tr) ∧
  (m ∈ tr → r ≠ Blocked → u ∈ (tr.*1)) ∧
  (m ∉ tr → ∀ p, (PathRmdir p ∉ tr.*1) ∧ (PathUnlink p ∉ tr.*1)) ∧
  (PathUnlink image ∈ (tr.*1) → (u, Exit 0%Z) ∈ tr ∧ (d, Done) ∈ tr) ∧
  (∀ x, r = Returned x → (PathUnlink image, Done) ∈ tr).
Proof.
  intros Hi Hbody H m u d.
  assert (Hname : is_Some (name (cls self))).
  { unfold fs_image_path in Hi. destruct (cls self); by eauto. }
  assert (Hsetup : ∀ tr_s r_s, exec (setup self) tr_s r_s →
            (m ∈ tr_s ↔ r_s = Returned ()) ∧ Forall (λ ev : event, keeps ev.1) tr_s).
  { intros tr_s r_s Hs. destruct (setup_shape _ _ _ _ Hi Hs) as [Hb Hm].
    split; [done|by apply builds_keeps]. }
  (* [setup] has failed *)
  assert (Hfail : ∀ r_s, exec (setup self) tr r_s → r_s ≠ Returned () →
            (∀ x, r ≠ Returned x) →
            (u ∈ (tr.*1) → m ∈ tr) ∧
            (m ∈ tr → r ≠ Blocked → u ∈ (tr.*1)) ∧
            (m ∉ tr → ∀ p, (PathRmdir p ∉ tr.*1) ∧ (PathUnlink p ∉ tr.*1)) ∧
            (PathUnlink image ∈ (tr.*1) → (u, Exit 0%Z) ∈ tr ∧ (d, Done) ∈ tr) ∧
            (∀ x, r = Returned x → (PathUnlink image, Done) ∈ tr)).
  { intros r_s Hs Hne Hr. destruct (Hsetup _ _ Hs) as [Hm Hk].
    pose proof (keeps_not_in _ Hk) as Hno.
    split_and?.
    - intros Hin. by destruct (Hno (mount_target self)) as (Hu & _).
    - intros Hin. by apply Hm in Hin.
    - intros _ p. destruct (Hno p) as (_ & ? & ?). done.
    - intros Hin. by destruct (Hno image) as (_ & _ & Hun).
    - intros x Hx. by destruct (Hr x). }
  destruct (exec_test_inv self body tr r Hname H)
    as [[Hs ->]|[(e & Hs & ->)|(tr_s & tr_b & Hs & Hrest)]].
  1,2: by eapply Hfail.
  clear Hfail. destruct (Hsetup _ _ Hs) as [Hm Hks].
  assert (Hms : m ∈ tr_s) by (by apply Hm).
  assert (Hkb : ∀ r_b, exec body tr_b r_b → Forall (λ ev : event, keeps ev.1) tr_b).
  { intros r_b Hb. by apply benchmark_keeps, (Hbody _ _ Hb). }
  destruct Hrest as [(Hb & -> & ->)|(r_b & tr_t & r_t & Hb & Hrb & Ht & -> & ->)].
  - assert (Hk : Forall (λ ev : event, keeps ev.1) (tr_s ++ tr_b)).
    { apply Forall_app. split; [done|by eapply Hkb]. }
    pose proof (keeps_not_in _ Hk) as Hno.
    split_and?; try done.
    + intros Hin. by destruct (Hno (mount_target self)) as (Hu & _).
    + intros Hnm. destruct Hnm. apply elem_of_app. by left.
    + intros Hin. by destruct (Hno image) as (_ & _ & Hun).
  - replace (tr_s ++ tr_b ++ (Sleep 5, Done) :: tr_t)
      with ((tr_s ++ tr_b ++ [(Sleep 5, Done)]) ++ tr_t) in *
      by (by rewrite <- !app_assoc).
    set (pre := tr_s ++ tr_b ++ [(Sleep 5, Done)]) in *.
    assert (Hk : Forall (λ ev : event, keeps ev.1) pre).
    { apply Forall_app. split; [done|]. apply Forall_app. split; [by eapply Hkb|].
      constructor; [|constructor]. by split_and?. }
    pose proof (keeps_not_in _ Hk) as Hno.
    assert (Hmtr : m ∈ pre ++ tr_t).
    { apply elem_of_app. left. apply elem_of_app. by left. }
    assert (Hu : u ∈ (pre ++ tr_t).*1).
    { rewrite fmap_app. apply elem_of_app. right.
      destruct (teardown_shape _ _ _ _ Hi Ht)
        as [(a & _ & -> & _)|[(a & _ & -> & _)|(a & -> & _)]]; simpl; left. }
    split_and?; try done.
    + intros Hin. rewrite fmap_app, elem_of_app in Hin.
      destruct Hin as [Hin|Hin]; [by destruct (Hno image) as (_ & _ & Hun)|].
      destruct (teardown_shape _ _ _ _ Hi Ht)
        as [(a & _ & -> & _)|[(a & _ & -> & _)|(a & -> & _)]]; simpl in Hin.
      * apply list_elem_of_singleton in Hin. done.
      * rewrite !elem_of_cons, elem_of_nil in Hin. destruct Hin as [?|[?|?]]; done.
      * split; apply elem_of_app; right; rewrite !elem_of_cons; auto.
    + intros x Hx. apply elem_of_app. right.
      destruct (teardown_shape _ _ _ _ Hi Ht)
        as [(a & _ & -> & Hr)|[(a & _ & -> & Hr)|(a & -> & [_ Hr])]];
        destruct r_t as [[]|e|]; try done.
      rewrite Hr by done. rewrite !elem_of_cons. auto.
Qed.

(** ** The calls of [benchmark] *)

Lemma exec_call_benchmark_bind {A} l d dr (k : list PurePath → prog A) tr r :
  exec (l1 ← call_benchmark l d dr; k l1) tr r →
  (∃ l' t u tr', tr = (Benchmark l d dr, Result l' t u) :: tr' ∧ exec (k l') tr' r) ∨
  (∃ a, is_result a = false ∧ tr = [(Benchmark l d dr, a)] ∧ ∀ x, r ≠ Returned x).
Proof.
  unfold mbind, prog_bind, call_benchmark. simpl. intros H.
  inversion H as [ | |c' k' Hp|c' k' a tr' r' Hp Hn Hk]; subst.
  { right. by exists Never. }
  destruct a; simpl in Hp; try done.
  - left. by eexists _, _, _, _.
  - right. exists Error. inversion Hk; subst. done.
Qed.

Lemma exec_call_benchmark l d dr tr r :
  exec (call_benchmark l d dr) tr r →
  (∃ l' t u, tr = [(Benchmark l d dr, Result l' t u)] ∧ r = Returned l') ∨
  (∃ a, is_result a = false ∧ tr = [(Benchmark l d dr, a)] ∧ ∀ x, r ≠ Returned x).
Proof.
  unfold call_benchmark. simpl. intros H.
  inversion H as [ | |c' k' Hp|c' k' a tr' r' Hp Hn Hk]; subst.
  { right. by exists Never. }
  destruct a; simpl in Hp; try done; inversion Hk; subst.
  - left. by eexists _, _, _.
  - right. by exists Error.
Qed.

Lemma three_benchmarks_shape l tr r :
  exec (three_benchmarks l) tr r →
  Forall (λ ev : event, is_benchmark ev.1 = true) tr ∧
  chained [1; 8; 64] l tr ∧
  (∀ l', r = Returned l' →
     length tr = 3 ∧ Forall (λ ev : event, is_result ev.2 = true) tr ∧
     chain_end l tr = l').
Proof.
  unfold three_benchmarks. intros H.
  apply exec_call_benchmark_bind in H
    as [(l1 & t1 & u1 & tr1 & -> & H)|(a & Ha & -> & Hr)].
  2: { split_and?; [by repeat constructor|by destruct a|intros l' ->; by destruct (Hr l')]. }
  apply exec_call_benchmark_bind in H
    as [(l2 & t2 & u2 & tr2 & -> & H)|(a & Ha & -> & Hr)].
  2: { split_and?; [by repeat constructor|by destruct a|intros l' ->; by destruct (Hr l')]. }
  apply exec_call_benchmark in H
    as [(l3 & t3 & u3 & -> & ->)|(a & Ha & -> & Hr)].
  2: { split_and?; [by repeat constructor|by destruct a|intros l' ->; by destruct (Hr l')]. }
  split_and?; [by repeat constructor|done|].
  intros l' [= <-]. split_and?; [done|by repeat constructor|done].
Qed.

Lemma three_benchmarks_only l : only_benchmarks (three_benchmarks l).
Proof. intros tr r H. by apply three_benchmarks_shape in H as [? _]. Qed.

Lemma benchmarks_of_app tr1 tr2 :
  benchmarks_of (tr1 ++ tr2) = benchmarks_of tr1 ++ benchmarks_of tr2.
Proof. apply filter_app. Qed.

Lemma benchmarks_of_all tr :
  Forall (λ ev : event, is_benchmark ev.1 = true) tr → benchmarks_of tr = tr.
Proof.
  induction 1 as [|ev tr Hev _ IH]; [done|].
  unfold benchmarks_of in *. rewrite filter_cons_True by done. by f_equal.
Qed.

Lemma benchmarks_of_none tr :
  Forall (λ ev : event, is_benchmark ev.1 = false) tr → benchmarks_of tr = [].
Proof.
  induction 1 as [|ev tr Hev _ IH]; [done|].
  unfold benchmarks_of in *. rewrite filter_cons_False; [done|]. by rewrite Hev.
Qed.

Lemma chained_weaken ds ds' : ∀ l bs, chained ds l bs → chained (ds ++ ds') l bs.
Proof.
  induction ds as [|d ds IH]; intros l [|[c a] bs] H; simpl in *; try done.
  destruct H as [-> H]. split; [done|]. destruct a; try done. by apply IH.
Qed.

Lemma chained_app ds1 ds2 : ∀ l bs1 bs2,
  chained ds1 l bs1 → length bs1 = length ds1 →
  Forall (λ ev : event, is_result ev.2 = true) bs1 →
  chained ds2 (chain_end l bs1) bs2 →
  chained (ds1 ++ ds2) l (bs1 ++ bs2).
Proof.
  induction ds1 as [|d ds1 IH]; intros l [|[c a] bs1] bs2 H Hlen Hres H2;
    simpl in *; try done.
  destruct H as [-> H]. apply Forall_cons in Hres as [Ha Hres].
  split; [done|]. destruct a; try done. apply IH; auto.
Qed.

Lemma chain_end_app bs1 : ∀ l bs2,
  chain_end l (bs1 ++ bs2) = chain_end (chain_end l bs1) bs2.
Proof.
  induction bs1 as [|[c a] bs1 IH]; intros l bs2; simpl; [done|].
  destruct a; apply IH.
Qed.

Lemma depths_S n : depths (S n) = [1; 8; 64] ++ depths n.
Proof. done. Qed.

Lemma length_depths n : length (depths n) = 3 * n.
Proof. induction n as [|n IH]; [done|]. rewrite depths_S, length_app, IH. simpl. lia. Qed.

(** ** The loop of [main] *)

Lemma builds_inner path tr :
  Forall (λ ev : event, builds ev.1) tr →
  Forall (λ ev : event, inner path ev.1) tr ∧ benchmarks_of tr = [].
Proof.
  intros H. split.
  - eapply Forall_impl; [exact H|]. intros ev (H1 & H2 & _ & H4 & _). by split_and?.
  - apply benchmarks_of_none. eapply Forall_impl; [exact H|]. by intros ev (_ & _ & _ & _ & ?).
Qed.

Lemma benchmark_inner path tr :
  Forall (λ ev : event, is_benchmark ev.1 = true) tr →
  Forall (λ ev : event, inner path ev.1) tr.
Proof.
  intros H. eapply Forall_impl; [exact H|]. intros [c a]. simpl. by destruct c.
Qed.

Lemma teardown_inner self image path tr r :
  fs_image_path self = Some image → mount_target self ≠ path →
  exec (teardown self) tr r →
  Forall (λ ev : event, inner path ev.1) tr ∧ benchmarks_of tr = [] ∧
  (r = Returned () → (PathUnlink image, Done) ∈ tr).
Proof.
  intros Hi Hne H.
  assert (Hu : inner path (Subprocess (umount_argv (mount_target self)))).
  { unfold inner. split_and?; try done. by intros [= ?]. }
  assert (Hd : inner path (PathRmdir (mount_target self))).
  { unfold inner. split_and?; try done. by intros [= ?]. }
  assert (Hx : inner path (PathUnlink image)) by done.
  destruct (teardown_shape _ _ _ _ Hi H)
    as [(a & _ & -> & Hr)|[(a & _ & -> & Hr)|(a & -> & [_ Hr])]].
  - split_and?; [repeat (apply Forall_cons_2; [by simpl|]); apply Forall_nil_2|done|done].
  - split_and?; [repeat (apply Forall_cons_2; [by simpl|]); apply Forall_nil_2|done|done].
  - split_and?; [repeat (apply Forall_cons_2; [by simpl|]); apply Forall_nil_2|done|].
    intros ->. rewrite Hr by done. rewrite !elem_of_cons. auto.
Qed.

(** One file system: [with fs.test():] and the three calls. *)
Lemma test_three_shape c path target dataset size l tr r :
  target ≠ path →
  exec (test (Fs c path target size dataset) (three_benchmarks l)) tr r →
  Forall (λ ev : event, inner path ev.1) tr ∧
  chained [1; 8; 64] l (benchmarks_of tr) ∧
  (∀ l', r = Returned l' →
     length (benchmarks_of tr) = 3 ∧
     Forall (λ ev : event, is_result ev.2 = true) (benchmarks_of tr) ∧
     chain_end l (benchmarks_of tr) = l' ∧
     ∀ image, fs_image_path (Fs c path target size dataset) = Some image →
       (PathUnlink image, Done) ∈ tr).
Proof.
  intros Hne H. set (self := Fs c path target size dataset) in *.
  destruct (name (cls self)) as [n|] eqn:Hn.
  2: { unfold test in H. rewrite Hn in H. inversion H; subst. by split_and?. }
  assert (∃ image, fs_image_path self = Some image) as [image Hi].
  { unfold fs_image_path. destruct c; simpl in *; by eauto. }
  assert (Hsetup : ∀ tr_s r_s, exec (setup self) tr_s r_s →
            Forall (λ ev : event, inner path ev.1) tr_s ∧ benchmarks_of tr_s = []).
  { intros tr_s r_s Hs. apply builds_inner. by apply (setup_shape _ _ _ _ Hi Hs). }
  destruct (exec_test_inv self _ tr r (mk_is_Some _ _ Hn) H)
    as [[Hs ->]|[(e & Hs & ->)|(tr_s & tr_b & Hs & Hrest)]].
  1,2: destruct (Hsetup _ _ Hs) as [Hin Hbs]; rewrite Hbs; by split_and?.
  destruct (Hsetup _ _ Hs) as [Hin Hbs].
  destruct Hrest as [(Hb & -> & ->)|(r_b & tr_t & r_t & Hb & Hrb & Ht & -> & ->)].
  - destruct (three_benchmarks_shape _ _ _ Hb) as (Hall & Hch & _).
    rewrite benchmarks_of_app, Hbs, (benchmarks_of_all _ Hall). simpl.
    split_and?; [|done|done].
    apply Forall_app. split; [done|by apply benchmark_inner].
  - destruct (three_benchmarks_shape _ _ _ Hb) as (Hall & Hch & Hret).
    destruct (teardown_inner self image path _ _ Hi Hne Ht) as (Hint & Hbt & Hun).
    replace (tr_s ++ tr_b ++ (Sleep 5, Done) :: tr_t)
      with (tr_s ++ tr_b ++ [(Sleep 5, Done)] ++ tr_t) by done.
    rewrite !benchmarks_of_app, Hbs, Hbt, (benchmarks_of_all _ Hall). simpl.
    rewrite app_nil_r.
    split_and?; [|done|].
    + apply Forall_app. split; [done|]. apply Forall_app. split; [by apply benchmark_inner|].
      apply Forall_cons_2; [|done]. by split_and?.
    + intros l' Hl'. destruct r_t as [[]|e|]; try done.
      destruct (Hret l' Hl') as (? & ? & ?). split_and?; try done.
      intros image' Hi'. assert (image' = image) as -> by congruence.
      rewrite !elem_of_app. right; right; right. by apply Hun.
Qed.

Lemma for_each_fs_shape path target dataset size cs :
  target ≠ path →
  ∀ l tr r, exec (for_each_fs cs path target dataset size l) tr r →
  Forall (λ ev : event, inner path ev.1) tr ∧
  chained (depths (length cs)) l (benchmarks_of tr) ∧
  (∀ l', r = Returned l' →
     length (benchmarks_of tr) = 3 * length cs ∧
     Forall (λ ev : event, is_result ev.2 = true) (benchmarks_of tr) ∧
     chain_end l (benchmarks_of tr) = l' ∧
     ∀ c image, c ∈ cs → fs_image_path (Fs c path target size dataset) = Some image →
       (PathUnlink image, Done) ∈ tr).
Proof.
  intros Hne. induction cs as [|c cs IH]; intros l tr r H; simpl in H.
  { inversion H; subst. split_and?; [done|done|].
    intros l' [= <-]. split_and?; try done. intros c image Hc. by apply elem_of_nil in Hc. }
  apply exec_bind_inv in H
    as [(l1 & tr1 & tr2 & H1 & H2 & ->)|[(e & H1 & ->)|[H1 ->]]].
  2,3: destruct (test_three_shape _ _ _ _ _ _ _ _ Hne H1) as (Hin & Hch & _);
    split_and?; [done|by apply (chained_weaken [1; 8; 64])|done].
  destruct (test_three_shape _ _ _ _ _ _ _ _ Hne H1) as (Hin1 & Hch1 & Hret1).
  destruct (Hret1 l1 eq_refl) as (Hlen1 & Hres1 & Hend1 & Hun1).
  destruct (IH _ _ _ H2) as (Hin2 & Hch2 & Hret2).
  rewrite benchmarks_of_app. split_and?.
  - by apply Forall_app.
  - simpl length. rewrite depths_S. apply chained_app; try done. by rewrite Hend1.
  - intros l' Hl'. destruct (Hret2 l' Hl') as (Hlen2 & Hres2 & Hend2 & Hun2).
    split_and?.
    + rewrite length_app. simpl length. lia.
    + by apply Forall_app.
    + by rewrite chain_end_app, Hend1.
    + intros c' image Hc Hi. apply elem_of_app.
      apply elem_of_cons in Hc as [->|Hc]; [left; by apply Hun1|right; by eapply Hun2].
Qed.

(** ** [main] *)

Lemma exec_path_exists_bind {A} p (k : bool → prog A) tr r :
  exec (b ← path_exists p; k b) tr r →
  (∃ b tr', tr = (PathExists p, Bool b) :: tr' ∧ exec (k b) tr' r) ∨
  (tr = [(PathExists p, Error)] ∧ r = Raises (CallError (PathExists p))).
Proof.
  unfold mbind, prog_bind, path_exists. simpl. intros H.
  inversion H as [ | |c' k' Hp|c' k' a tr' r' Hp Hn Hk]; subst; [done|].
  destruct a; try done.
  - left. by eexists _, _.
  - right. by inversion Hk.
Qed.

Lemma exec_generate_bind {A} d f t (k : list PurePath → prog A) tr r :
  exec (l ← generate_fake_dataset d f t; k l) tr r →
  (∃ files tr', tr = (GenerateFakeDataset d f t, Files files) :: tr' ∧
                exec (k files) tr' r) ∨
  (∃ a, (∀ files, a ≠ Files files) ∧ tr = [(GenerateFakeDataset d f t, a)] ∧
        ∀ x, r ≠ Returned x).
Proof.
  unfold mbind, prog_bind, generate_fake_dataset. simpl. intros H.
  inversion H as [ | |c' k' Hp|c' k' a tr' r' Hp Hn Hk]; subst.
  { right. by exists Never. }
  destruct a; simpl in Hp; try done.
  - left. by eexists _, _.
  - right. exists Error. inversion Hk; subst. done.
Qed.

(** The stages of [main]: [exists()] raises; or the path exists; or a
    step before the loop fails; or the loop runs, and then the two last
    calls if it returns. *)
Lemma main_shape path fsz tsz tr r :
  exec (main path fsz tsz) tr r →
  let dataset := joinpath path (of_name "dataset") in
  let target := joinpath path (of_name "dataset_fs") in
  let mount := Subprocess [Lit "sudo"; Lit "mount"; Lit "-t"; Lit "tmpfs"; Lit "tmpfs";
                           Str path] in
  (tr = [(PathExists path, Error)] ∧ r = Raises (CallError (PathExists path))) ∨
  (tr = [(PathExists path, Bool true)] ∧ r = Raises (RuntimeError path)) ∨
  (∃ a, a ≠ Done ∧ tr = [(PathExists path, Bool false); (PathMkdir path, a)] ∧
        ∀ x, r ≠ Returned x) ∨
  (∃ a, a ≠ Exit 0 ∧
        tr = [(PathExists path, Bool false); (PathMkdir path, Done); (mount, a)] ∧
        ∀ x, r ≠ Returned x) ∨
  (∃ a, tr = [(PathExists path, Bool false); (PathMkdir path, Done); (mount, Exit 0);
              (GenerateFakeDataset dataset fsz tsz, a)] ∧
        (∀ x, r ≠ Returned x) ∧
        ∀ files, a = Files files → all_read_files target dataset files = None) ∨
  (∃ files l tr_f r_f tr_end,
     tr = [(PathExists path, Bool false); (PathMkdir path, Done); (mount, Exit 0);
           (GenerateFakeDataset dataset fsz tsz, Files files)] ++ tr_f ++ tr_end ∧
     all_read_files target dataset files = Some l ∧
     exec (for_each_fs all_fs path target dataset tsz l) tr_f r_f ∧
     (((∀ x, r_f ≠ Returned x) ∧ tr_end = [] ∧ ∀ x, r ≠ Returned x) ∨
      ((∃ l', r_f = Returned l') ∧
       exec (subprocess_run (umount_argv path);; do_call (PathRmdir path)) tr_end r))).
Proof.
  intros H dataset target mount. unfold main in H.
  destruct (exec_path_exists_bind _ _ _ _ H) as [(b & tr' & -> & Hk)|[-> ->]];
    [clear H; rename Hk into H|by left].
  right. destruct b.
  { left. by inversion H. }
  right. run_calls H; [|left; by eexists]. right.
  run_calls H; [|left; by eexists]. right.
  apply exec_generate_bind in H as [(files & tr' & -> & H)|(a & Ha & -> & Hr)].
  2: { left. exists a. split_and?; try done. intros files ->. by destruct (Ha files). }
  fold dataset target in H.
  destruct (all_read_files target dataset files) as [l|] eqn:Hl.
  2: { left. exists (Files files). inversion H; subst. split_and?; try done.
       by intros ? [= <-]. }
  right. apply exec_bind_inv in H
    as [(l' & tr1 & tr2 & H1 & H2 & ->)|[(e & H1 & ->)|[H1 ->]]].
  - exists files, l, tr1, (Returned l'), tr2. split_and?; try done. right. by eauto.
  - exists files, l, tr', (Raises e), []. rewrite app_nil_r.
    split_and?; try done. left. by split_and?.
  - exists files, l, tr', Blocked, []. rewrite app_nil_r.
    split_and?; try done. left. by split_and?.
Qed.

(** X14.  [main] first asks whether the path exists (line 173), and the
    call has one of three answers.  If the path exists, [main] raises
    [RuntimeError], having done nothing else.  If [exists()] itself raises,
    that exception ends [main], nothing else being done either.  Only if
    the path does not exist does [main] go on, and its next call is the
    [mkdir] of the path. *)
Theorem main_refuses_existing_path path fsz tsz tr r :
  exec (main path fsz tsz) tr r →
  ∃ a tr', tr = (PathExists path, a) :: tr' ∧
           (a = Bool true ∨ a = Error ∨ a = Bool false) ∧
           (a = Bool true → tr' = [] ∧ r = Raises (RuntimeError path)) ∧
           (a = Error → tr' = [] ∧ r = Raises (CallError (PathExists path))) ∧
           (a = Bool false → ∃ a' tr'', tr' = (PathMkdir path, a') :: tr'').
Proof.
  intros H. unfold main in H.
  destruct (exec_path_exists_bind _ _ _ _ H) as [(b & tr' & -> & Hk)|[-> ->]].
  - exists (Bool b), tr'. split; [done|]. destruct b.
    + split_and?; [by left| |done|done]. intros _. by inversion Hk.
    + split_and?; [by right; right|done|done|]. intros _.
      run_calls Hk; by eexists _, _.
  - exists Error, []. split_and?; [done|by right; left|done|done|done].
Qed.

Lemma exec_last_two path tr r :
  exec (subprocess_run (umount_argv path);; do_call (PathRmdir path)) tr r →
  (∃ a, a ≠ Exit 0 ∧ tr = [(Subprocess (umount_argv path), a)] ∧ r ≠ Returned ()) ∨
  (∃ a, tr = [(Subprocess (umount_argv path), Exit 0); (PathRmdir path, a)] ∧
        (a = Done ↔ r = Returned ())).
Proof.
  intros H. repeat run_calls H.
  - right. by eexists.
  - left. by eexists.
Qed.

Lemma inner_not_in path tr :
  Forall (λ ev : event, inner path ev.1) tr →
  (Subprocess (umount_argv path) ∉ tr.*1) ∧ (PathRmdir path ∉ tr.*1) ∧
  ∀ d f t a, (GenerateFakeDataset d f t, a) ∉ tr.
Proof.
  intros Hk. rewrite Forall_forall in Hk. split_and?.
  - intros Hin. apply list_elem_of_fmap in Hin as ([c a] & Hc & Hin).
    destruct (Hk _ Hin) as (H1 & _). simpl in *. by subst.
  - intros Hin. apply list_elem_of_fmap in Hin as ([c a] & Hc & Hin).
    destruct (Hk _ Hin) as (_ & H2 & _). simpl in *. by subst.
  - intros d f t a Hin. destruct (Hk _ Hin) as (_ & _ & H3). by destruct (H3 d f t).
Qed.

Lemma joinpath_of_name_ne path n : joinpath path (of_name n) ≠ path.
Proof.
  destruct path as [b ns]. unfold joinpath. simpl. intros [= H].
  apply (f_equal length) in H. rewrite length_app in H. simpl in H. lia.
Qed.

(** What a trace of [main] shows. *)
Lemma main_facts path fsz tsz tr r :
  exec (main path fsz tsz) tr r →
  let dataset := joinpath path (of_name "dataset") in
  let target := joinpath path (of_name "dataset_fs") in
  let u := Subprocess (umount_argv path) in
  ∃ l,
    chained (depths 3) l (benchmarks_of tr) ∧
    (∀ files a, (GenerateFakeDataset dataset fsz tsz, a) ∈ tr → a = Files files →
       benchmarks_of tr ≠ [] → all_read_files target dataset files = Some l) ∧
    (benchmarks_of tr ≠ [] →
       ∃ files, (GenerateFakeDataset dataset fsz tsz, Files files) ∈ tr) ∧
    (u ∈ tr.*1 →
       length (benchmarks_of tr) = 9 ∧
       Forall (λ ev : event, is_result ev.2 = true) (benchmarks_of tr) ∧
       ∀ c image, c ∈ all_fs →
         fs_image_path (Fs c path target tsz dataset) = Some image →
         (PathUnlink image, Done) ∈ tr) ∧
    (PathRmdir path ∈ tr.*1 → (u, Exit 0%Z) ∈ tr) ∧
    (r = Returned () ↔ (PathRmdir path, Done) ∈ tr).
Proof.
  intros H dataset target u.
  destruct (main_shape _ _ _ _ _ H)
    as [[-> ->]|[[-> ->]|[(a & Ha & -> & Hr)|[(a & Ha & -> & Hr)|[(a & -> & Hr & Hnone)
       |(files & l & tr_f & r_f & tr_end & -> & Hl & Hf & Hend)]]]]].
  1-5: exists []; split_and?; try done;
    try (simpl; rewrite ?elem_of_cons, elem_of_nil; intros Hin;
         repeat (destruct Hin as [Hin|Hin]); done);
    try (split; [first [done|intros ->; by destruct (Hr ())]|];
         rewrite ?elem_of_cons, elem_of_nil; intros Hin;
         repeat (destruct Hin as [Hin|Hin]); done).
  fold dataset target in Hl, Hf |- *.
  assert (Hne : target ≠ path) by apply joinpath_of_name_ne.
  destruct (for_each_fs_shape _ _ _ _ _ Hne _ _ _ Hf) as (Hin & Hch & Hret).
  destruct (inner_not_in _ _ Hin) as (Hnu & Hnd & Hng).
  set (pre := [(PathExists path, Bool false); (PathMkdir path, Done);
               (Subprocess [Lit "sudo"; Lit "mount"; Lit "-t"; Lit "tmpfs"; Lit "tmpfs";
                            Str path], Exit 0%Z);
               (GenerateFakeDataset dataset fsz tsz, Files files)]) in *.
  assert (Hbpre : benchmarks_of pre = []) by done.
  assert (Hbend : benchmarks_of tr_end = [] ∧
            (∀ d f t a, (GenerateFakeDataset d f t, a) ∉ tr_end) ∧
            (u ∈ tr_end.*1 → ∃ l', r_f = Returned l') ∧
            (PathRmdir path ∈ tr_end.*1 → (u, Exit 0%Z) ∈ tr_end) ∧
            (r = Returned () ↔ (PathRmdir path, Done) ∈ tr_end)).
  { destruct Hend as [(Hrf & -> & Hr)|[Hrf Hend]].
    - split_and?; try done.
      + intros ????. apply not_elem_of_nil.
      + intros Hx. by apply elem_of_nil in Hx.
      + intros Hx. by apply elem_of_nil in Hx.
      + split; [intros ->; by destruct (Hr ())|]. intros Hx. by apply elem_of_nil in Hx.
    - destruct (exec_last_two _ _ _ Hend) as [(a & Ha & -> & Hr)|(a & -> & Hr)].
      + split_and?; try done.
        * intros ???? Hx. by apply list_elem_of_singleton in Hx.
        * simpl. intros Hx. by apply list_elem_of_singleton in Hx.
        * split; [done|]. intros Hx. by apply list_elem_of_singleton in Hx.
      + split_and?; try done.
        * intros ???? Hx. rewrite !elem_of_cons, elem_of_nil in Hx.
          destruct Hx as [?|[?|?]]; done.
        * intros _. rewrite !elem_of_cons. auto.
        * rewrite <- Hr. rewrite !elem_of_cons, elem_of_nil. split.
          -- intros ->. auto.
          -- intros [?|[?|?]]; by simplify_eq. }
  destruct Hbend as (Hbe & Hge & Hue & Hde & Hre).
  assert (Hbs : benchmarks_of (pre ++ tr_f ++ tr_end) = benchmarks_of tr_f).
  { by rewrite !benchmarks_of_app, Hbpre, Hbe, app_nil_r. }
  rewrite Hbs. exists l. split_and?.
  - done.
  - intros files' a Hx -> _.
    rewrite !elem_of_app in Hx. destruct Hx as [Hx|[Hx|Hx]].
    + unfold pre in Hx. rewrite !elem_of_cons, elem_of_nil in Hx.
      destruct Hx as [?|[?|[?|[?|?]]]]; by simplify_eq.
    + by destruct (Hng _ _ _ _ Hx).
    + by destruct (Hge _ _ _ _ Hx).
  - intros _. exists files. apply elem_of_app. left. unfold pre.
    rewrite !elem_of_cons. auto.
  - rewrite !fmap_app, !elem_of_app. intros [Hx|[Hx|Hx]].
    + unfold pre in Hx. simpl in Hx. rewrite !elem_of_cons, elem_of_nil in Hx.
      destruct Hx as [?|[?|[?|[?|?]]]]; done.
    + done.
    + destruct (Hue Hx) as [l' ->].
      destruct (Hret l' eq_refl) as (Hlen & Hres & _ & Hun).
      split_and?; [done|done|].
      intros c image Hc Hi. rewrite !elem_of_app. right; left. by eapply Hun.
  - rewrite !fmap_app, !elem_of_app. intros [Hx|[Hx|Hx]].
    + unfold pre in Hx. simpl in Hx. rewrite !elem_of_cons, elem_of_nil in Hx.
      destruct Hx as [?|[?|[?|[?|?]]]]; done.
    + done.
    + right; right. by apply Hde.
  - rewrite Hre. rewrite !elem_of_app. split; [by auto|].
    intros [Hx|[Hx|Hx]]; [| |done].
    + unfold pre in Hx. rewrite !elem_of_cons, elem_of_nil in Hx.
      destruct Hx as [?|[?|[?|[?|?]]]]; done.
    + destruct Hnd. apply list_elem_of_fmap. by exists (PathRmdir path, Done).
Qed.

(** X15.  [main] unmounts the tmpfs only when the three file systems have
    been benchmarked, three calls each and each returning, and their
    images removed; it removes the directory only after the [umount] has
    succeeded; and it returns exactly when the directory is removed.  So
    whatever fails before, the tmpfs stays mounted at [path]. *)
Theorem main_cleans_up_only_after_all_tests path fsz tsz tr r :
  exec (main path fsz tsz) tr r →
  let dataset := joinpath path (of_name "dataset") in
  let target := joinpath path (of_name "dataset_fs") in
  let u := Subprocess (umount_argv path) in
  (u ∈ tr.*1 →
     length (benchmarks_of tr) = 9 ∧
     Forall (λ ev : event, is_result ev.2 = true) (benchmarks_of tr) ∧
     ∀ c image, c ∈ all_fs →
       fs_image_path (Fs c path target tsz dataset) = Some image →
       (PathUnlink image, Done) ∈ tr) ∧
  (PathRmdir path ∈ tr.*1 → (u, Exit 0%Z) ∈ tr) ∧
  (r = Returned () ↔ (PathRmdir path, Done) ∈ tr).
Proof.
  intros H. destruct (main_facts _ _ _ _ _ H) as (l & _ & _ & _ & Hu & Hd & Hr).
  by split_and?.
Qed.


(** ** [main] and [benchmark] together *)

Lemma chained_modelled S bs : ∀ ds l,
  chained ds l bs →
  (∀ l d dr l' total used,
     (Benchmark l d dr, Result l' total used) ∈ bs →
     benchmark_returns l d dr l' total used) →
  str <$> l ≡ₚ S →
  ∀ l1 d dr a, (Benchmark l1 d dr, a) ∈ bs →
    d ∈ ds ∧ dr = 3%Z ∧ str <$> l1 ≡ₚ S ∧
    ∀ l' total used, a = Result l' total used →
      total ≤ length S ∧ str <$> l' ≡ₚ S.
Proof.
  induction bs as [|[c a0] bs IH]; intros ds l Hch Hmod Hperm l1 d dr a Hin.
  { by apply elem_of_nil in Hin. }
  destruct ds as [|d0 ds]; [done|]. simpl in Hch. destruct Hch as [-> Hch].
  assert (Hhead : ∀ l' total used, a0 = Result l' total used →
            total ≤ length S ∧ str <$> l' ≡ₚ S).
  { intros l' total used ->.
    destruct (Hmod l d0 3%Z l' total used) as (rs & t & mr & s & Hr & Hpc & Hfiles).
    { apply elem_of_cons. by left. }
    pose proof (inv_reachable _ (reachable_init _ _ _ _ _ _ _ Hr)) as Hinv.
    destruct (run_frame _ _ Hr) as (_ & _ & _ & Hp & _).
    change (all_files s ≡ₚ str <$> l) in Hp.
    destruct (returned_total _ _ _ Hinv Hpc) as (Hle & _).
    assert (Hlen : length (all_files s) = length S).
    { etrans; [apply (Permutation_length Hp)|apply (Permutation_length Hperm)]. }
    split; [lia|]. rewrite <- Hfiles. by etrans. }
  apply elem_of_cons in Hin as [[= -> -> -> ->]|Hin].
  { split_and?; [apply elem_of_cons; by left|done|done|done]. }
  destruct a0 as [| | | |l' total used| |]; try (subst bs; by apply elem_of_nil in Hin).
  destruct (Hhead l' total used eq_refl) as [_ Hperm'].
  destruct (IH ds l' Hch) with (l1 := l1) (d := d) (dr := dr) (a := a)
    as (Hd & Hrest); try done.
  { intros ?????? Hx. apply Hmod. apply elem_of_cons. by right. }
  split; [apply elem_of_cons; by right|done].
Qed.

(** X17.  [main] and [benchmark] together.  If every result that a call of
    [benchmark] gives in an execution of [main] is one that [benchmark]
    can return, then each call is made with [drop_caches=3] and a queue
    depth of 1, 8 or 64, on a list that holds, in some order, the files of
    the list of line 188, and the total it returns is at most the number
    of files generated. *)
Theorem main_benchmarks_the_mirrored_files path fsz tsz tr r :
  exec (main path fsz tsz) tr r →
  (∀ l d dr l' total used,
     (Benchmark l d dr, Result l' total used) ∈ tr →
     benchmark_returns l d dr l' total used) →
  let dataset := joinpath path (of_name "dataset") in
  let target := joinpath path (of_name "dataset_fs") in
  ∀ l d dr a, (Benchmark l d dr, a) ∈ tr →
    ∃ files l0,
      (GenerateFakeDataset dataset fsz tsz, Files files) ∈ tr ∧
      all_read_files target dataset files = Some l0 ∧
      d ∈ [1; 8; 64] ∧ dr = 3%Z ∧ str <$> l ≡ₚ str <$> l0 ∧
      ∀ l' total used, a = Result l' total used →
        total ≤ length files ∧ str <$> l' ≡ₚ str <$> l0.
Proof.
  intros H Hmod dataset target l d dr a Hin.
  destruct (main_facts _ _ _ _ _ H) as (l0 & Hch & Hg & Hex & _).
  assert (Hb : (Benchmark l d dr, a) ∈ benchmarks_of tr).
  { apply list_elem_of_filter. by split. }
  assert (Hne : benchmarks_of tr ≠ []).
  { intros Hnil. rewrite Hnil in Hb. by apply elem_of_nil in Hb. }
  destruct (Hex Hne) as [files Hf]. pose proof (Hg _ _ Hf eq_refl Hne) as Hl0.
  assert (Hlen : length (str <$> l0) = length files).
  { rewrite length_fmap. apply all_read_files_Some in Hl0. symmetry.
    by eapply Forall2_length. }
  destruct (chained_modelled (str <$> l0) (benchmarks_of tr) _ _ Hch) with
    (l1 := l) (d := d) (dr := dr) (a := a) as (Hd & Hdr & Hp & Hres); try done.
  { intros ?????? Hx. apply Hmod. by apply list_elem_of_filter in Hx as [_ ?]. }
  exists files, l0. split_and?; try done.
  - change (depths 3) with [1; 8; 64; 1; 8; 64; 1; 8; 64] in Hd.
    rewrite !elem_of_cons, elem_of_nil in *. tauto.
  - intros l' total used Ha. rewrite <- Hlen. by eapply Hres.
Qed.

(** ** The executions defined above *)

Example main_ok_run :
  exec (main run_path 32768 2147483648) main_ok_trace (Returned ()).
Proof. apply run_prog_exec with (o := main_ok_answers). vm_compute. reflexivity. Qed.

Example main_raise_run :
  exec (main run_path 32768 2147483648) main_raise_trace
    (Raises (CallError (Benchmark [run_read_file] 8 3))).
Proof. apply run_prog_exec with (o := main_raise_answers). vm_compute. reflexivity. Qed.

Example test_raise_run :
  exec (test run_fs (three_benchmarks [run_read_file])) test_raise_trace
    (Raises (CallError (Benchmark [run_read_file] 1 3))).
Proof. apply run_prog_exec with (o := test_raise_answers). vm_compute. reflexivity. Qed.

Lemma mount_is_paired_with_umount_witness :
  Subprocess (umount_argv (mount_target run_fs)) ∈ test_raise_trace.*1 ∧
  (PathUnlink (MkPath false ["d"; "dataset.ext4"]) ∈ test_raise_trace.*1 →
     (Subprocess (umount_argv (mount_target run_fs)), Exit 0%Z) ∈ test_raise_trace ∧
     (PathRmdir (mount_target run_fs), Done) ∈ test_raise_trace).
Proof.
  pose proof (mount_is_paired_with_umount run_fs (three_benchmarks [run_read_file])
                (MkPath false ["d"; "dataset.ext4"]) test_raise_trace
                (Raises (CallError (Benchmark [run_read_file] 1 3))))
    as (_ & Hu & _ & Hx & _).
  - reflexivity.
  - apply three_benchmarks_only.
  - apply run_prog_exec with (o := test_raise_answers). vm_compute. reflexivity.
  - split; [|exact Hx]. apply Hu; [|done].
    apply (bool_decide_unpack _). vm_compute. exact I.
Defined.

Lemma main_refuses_existing_path_witness :
  ∃ a tr', [(PathExists run_path, Bool true)] = (PathExists run_path, a) :: tr' ∧
           (a = Bool true ∨ a = Error ∨ a = Bool false) ∧
           (a = Bool true → tr' = [] ∧
              @Raises () (RuntimeError run_path) = Raises (RuntimeError run_path)) ∧
           (a = Error → tr' = [] ∧
              @Raises () (RuntimeError run_path)
              = Raises (CallError (PathExists run_path))) ∧
           (a = Bool false → ∃ a' tr'', tr' = (PathMkdir run_path, a') :: tr'').
Proof.
  apply (main_refuses_existing_path run_path 32768 2147483648
           [(PathExists run_path, Bool true)] (Raises (RuntimeError run_path))).
  apply run_prog_exec with (o := [Bool true]). vm_compute. reflexivity.
Defined.

Lemma main_cleans_up_only_after_all_tests_witness :
  length (benchmarks_of main_ok_trace) = 9 ∧
  (Subprocess (umount_argv run_path) ∉ main_raise_trace.*1).
Proof.
  split.
  - apply (main_cleans_up_only_after_all_tests run_path 32768 2147483648
             main_ok_trace (Returned ())).
    + apply run_prog_exec with (o := main_ok_answers). vm_compute. reflexivity.
    + apply (bool_decide_unpack _). vm_compute. exact I.
  - intros Hu.
    apply (main_cleans_up_only_after_all_tests run_path 32768 2147483648
             main_raise_trace (Raises (CallError (Benchmark [run_read_file] 8 3))))
      in Hu as (Hlen & _).
    + vm_compute in Hlen. discriminate Hlen.
    + apply run_prog_exec with (o := main_raise_answers). vm_compute. reflexivity.
Defined.


Lemma main_benchmarks_the_mirrored_files_witness :
  ∃ files l0,
    (GenerateFakeDataset (MkPath false ["d"; "dataset"]) 32768 2147483648,
     Files files) ∈ main_raise_trace ∧
    all_read_files (MkPath false ["d"; "dataset_fs"])
      (MkPath false ["d"; "dataset"]) files = Some l0 ∧
    1 ∈ [1; 8; 64] ∧ 3%Z = 3%Z ∧ str <$> [run_read_file] ≡ₚ str <$> l0 ∧
    ∀ l' total used, Result [run_read_file] 1 0 = Result l' total used →
      total ≤ length files ∧ str <$> l' ≡ₚ str <$> l0.
Proof.
  apply (main_benchmarks_the_mirrored_files run_path 32768 2147483648 main_raise_trace
           (Raises (CallError (Benchmark [run_read_file] 8 3)))).
  - apply run_prog_exec with (o := main_raise_answers). vm_compute. reflexivity.
  - intros l d dr l' total used Hin.
    let t := eval vm_compute in main_raise_trace in
      change main_raise_trace with t in Hin.
    rewrite !elem_of_cons, elem_of_nil in Hin.
    repeat (destruct Hin as [Hin|Hin]); try discriminate Hin; [|done].
    injection Hin as -> -> -> -> -> ->.
    exists [], 0%Z, 0%Z. eexists. split_and?.
    + exists depth1_sched. vm_compute. reflexivity.
    + reflexivity.
    + reflexivity.
  - apply (bool_decide_unpack _). vm_compute. exact I.
Defined.

(** * [size] *)

Lemma but_last_snoc (m : list N) c : but_last (m ++ [c]) = m.
Proof.
  unfold but_last. rewrite length_app. simpl.
  replace (length m + 1 - 1) with (length m) by lia. by rewrite take_app_length.
Qed.

Lemma size_snoc m c :
  size (m ++ [c]) = match power_of (lower c) with
                    | Some n => Scaled m n
                    | None => Plain (m ++ [c])
                    end.
Proof.
  unfold size. rewrite last_snoc. simpl. rewrite but_last_snoc.
  unfold power_of. change (code_points "k") with [107%N].
  change (code_points "m") with [109%N]. change (code_points "g") with [103%N].
  change (code_points "t") with [116%N]. change (code_points "p") with [112%N].
  repeat case_decide; simplify_eq; try done.
Qed.

Lemma unit_chars_lower c : is_Some (power_of (lower c)) ↔ c ∈ unit_chars.
Proof.
  unfold unit_chars. change (code_points "kmgtpKMGTP") with
    [107%N; 109%N; 103%N; 116%N; 112%N; 75%N; 77%N; 71%N; 84%N; 80%N].
  simpl. rewrite !elem_of_cons, elem_of_nil.
  unfold lower.
  destruct ((65 <=? c)%N && (c <=? 90)%N) eqn:H1;
    [|destruct ((192 <=? c)%N && (c <=? 222)%N && negb (c =? 215)%N) eqn:H2;
      [|destruct (c =? 304)%N eqn:H3;
        [|destruct (c =? 376)%N eqn:H4;
          [|destruct (c =? 7838)%N eqn:H5;
            [|destruct (c =? 8490)%N eqn:H6;
              [|destruct (c =? 8491)%N eqn:H7]]]]]].
  all: rewrite ?andb_true_iff, ?andb_false_iff, ?negb_true_iff, ?negb_false_iff,
         ?N.leb_le, ?N.leb_gt, ?N.eqb_eq, ?N.eqb_neq in *.
  all: unfold power_of.
  all: change (code_points "k") with [107%N];
       change (code_points "m") with [109%N]; change (code_points "g") with [103%N];
       change (code_points "t") with [116%N]; change (code_points "p") with [112%N].
  all: repeat case_decide; simplify_eq.
  all: repeat match goal with
       | H : [?a] ≠ [?b] |- _ =>
           assert (a ≠ b) by (let E := fresh in intros E; apply H; by rewrite E); clear H
       end.
  all: split; [intros [? ?]; try done; lia | intros ?; try (by eexists); exfalso; lia].
Qed.

(** X18.  [size] raises [IndexError] on the empty string and on no other.
    A string whose last character is one of [unit_chars], that is one of
    the letters [k], [m], [g], [t], [p], small or capital, or the Kelvin
    sign U+212A (whose lower case is [k]), is split there: what is before
    that character is converted with [float] and scaled by 1024 to the
    power 1 to 5, the same for the capital letter as for the small one.
    Every other string is converted whole with [int], last character
    included. *)
Theorem size_reads_the_unit_in_either_case :
  (∀ s, size s = IndexError ↔ s = []) ∧
  (∀ m c, size (m ++ [c]) =
          match power_of (lower c) with
          | Some n => Scaled m n
          | None => Plain (m ++ [c])
          end) ∧
  (∀ c, is_Some (power_of (lower c)) ↔ c ∈ unit_chars) ∧
  (∀ m c n, power_of [c] = Some n →
     size (m ++ [c]) = Scaled m n ∧ size (m ++ [(c - 32)%N]) = Scaled m n) ∧
  (∀ m, size (m ++ [8490%N]) = Scaled m 1).
Proof.
  split_and?.
  - intros s. split; [|by intros ->].
    destruct s as [|a s _] using rev_ind; [done|].
    rewrite size_snoc. by destruct (power_of _).
  - apply size_snoc.
  - apply unit_chars_lower.
  - intros m c n Hn. rewrite !size_snoc.
    assert (lower c = [c] ∧ lower (c - 32)%N = [c]) as [-> ->]; [|by rewrite Hn].
    unfold power_of in Hn.
    change (code_points "k") with [107%N] in Hn.
    change (code_points "m") with [109%N] in Hn. change (code_points "g") with [103%N] in Hn.
    change (code_points "t") with [116%N] in Hn. change (code_points "p") with [112%N] in Hn.
    repeat (case_decide; [by simplify_eq|]). done.
  - intros m. by rewrite size_snoc.
Qed.

(** Some sizes: the two defaults of [main] are of the third kind. *)
Example size_examples :
  size (code_points "1.5K") = Scaled (code_points "1.5") 1 ∧
  size (code_points "2g") = Scaled (code_points "2") 3 ∧
  size (code_points "32768") = Plain (code_points "32768") ∧
  size (code_points "1" ++ [8490%N]) = Scaled (code_points "1") 1 ∧
  size (code_points "10kb") = Plain (code_points "10kb").
Proof. split_and?; reflexivity. Qed.
